(** * neutraledu: in-video question scheduler and AI request gateway

    A shallow embedding of
    - the gateway module imported as [../lib/gemini] (request queue, retry
      wrapper, offline fallbacks and the four public operations),
    - [src/components/Lessons/VideoPlayer.tsx] (interval check, [handleAnswer]),
    - [src/pages/LessonDetailPage.tsx] ([startQuestionCheck],
      [handleAnswerSubmit], [closeQuestionModal], marker buttons).

    A finite JavaScript number is held as the rational it denotes ([Q]);
    arithmetic on numbers rounds to the nearest double ([Double]).  Strings
    are [string] (UTF-8 bytes); React state is a record threaded through
    handlers; awaited effects are explicit event lists. *)

From Stdlib Require Import String Ascii List Bool Arith Lia ZArith QArith Qround Qabs.
From Stdlib Require Import Qminmax Lqa DecimalString Qpower Qreduction.
Import ListNotations.

Local Open Scope string_scope.
Local Open Scope nat_scope.

(** ** Shared data *)

(** [interface InteractiveQuestion] (VideoPlayer.tsx:6, LessonDetailPage.tsx:39). *)
Record InteractiveQuestion : Type := mkQuestion {
  id : string;
  timestamp : Q;
  question : string;
  options : list string;
  correctAnswer : string
}.

Module Js.

(** [String.prototype.includes]. *)
Definition includes (s sub : string) : bool :=
  match index 0 sub s with Some _ => true | None => false end.

(** [Array.prototype.includes] on an array of strings. *)
Definition array_includes (xs : list string) (x : string) : bool :=
  existsb (String.eqb x) xs.

(** [Array.prototype.join]. *)
Fixpoint join (sep : string) (xs : list string) : string :=
  match xs with
  | [] => ""
  | [x] => x
  | x :: rest => x ++ sep ++ join sep rest
  end.

(** A thrown value; only its optional [message] is ever inspected. *)
Record Error : Type := mkError { message : option string }.

(** [error.message?.includes(marker)]: [undefined], hence falsy, when the
    error carries no message. *)
Definition message_includes (e : Error) (marker : string) : bool :=
  match message e with
  | Some m => includes m marker
  | None => false
  end.

Definition newline : string := String (ascii_of_nat 10) "".

End Js.

(** ** The AI request gateway *)

Module Gemini.
Import Js.

Definition RATE_LIMIT_DELAY : nat := 1000.

(** Outcome of one [model.generateContent(..)] / [response.text()] round
    trip.  The remote service is an arbitrary sequence of such outcomes:
    [remote n] is what the [n]-th call issued by a unit of work gets. *)
Inductive Attempt : Type :=
| Responds (text : string)
| Fails (e : Error).

Definition Remote : Type := nat -> Attempt.

(** What a unit of work does that the outside can observe. *)
Inductive Event : Type :=
| EvCall (attempt : nat)
| EvSleep (ms : nat)
| EvConsoleLog
| EvConsoleError.

(** *** [retryWithBackoff] *)

Inductive RetryResult : Type :=
| Return (text : string)
| Throw (e : Error)
| ReturnUndefined.

Definition rateLimited (e : Error) : bool := message_includes e "429".

(** The [for] loop of [retryWithBackoff], [remaining] iterations before
    [i] reaches [maxRetries]. *)
Fixpoint retryLoop (fn : Remote) (maxRetries remaining i : nat)
  : list Event * RetryResult :=
  match remaining with
  | 0 => ([], ReturnUndefined)
  | S remaining' =>
      match fn i with
      | Responds text => ([EvCall i], Return text)
      | Fails error =>
          if rateLimited error && (i <? maxRetries - 1) then
            let delay := 2 ^ i * 1000 in
            let (evs, r) := retryLoop fn maxRetries remaining' (S i) in
            (EvCall i :: EvConsoleLog :: EvSleep delay :: evs, r)
          else ([EvCall i], Throw error)
      end
  end.

Definition retryWithBackoff (fn : Remote) (maxRetries : nat)
  : list Event * RetryResult :=
  retryLoop fn maxRetries maxRetries 0.

Definition defaultMaxRetries : nat := 3.

(** The events of [k] rate-limited attempts [i], [i+1], ..: each call is
    followed by the log line and by a sleep of [2^attempt * 1000] ms. *)
Definition backoff (i k : nat) : list Event :=
  flat_map (fun a => [EvCall a; EvConsoleLog; EvSleep (2 ^ a * 1000)]) (seq i k).

Definition calls (evs : list Event) : list nat :=
  flat_map (fun e => match e with EvCall a => [a] | _ => [] end) evs.

Definition sleeps (evs : list Event) : list nat :=
  flat_map (fun e => match e with EvSleep ms => [ms] | _ => [] end) evs.

(** *** [getOfflineResponse] *)

Inductive ContextTag : Type := chat | question_tag | explanation | image.

Definition getOfflineResponse (type : ContextTag) : string :=
  match type with
  | chat =>
      "Merhaba! Şu anda API kullanım limitimiz dolmuş durumda. Lütfen birkaç dakika bekleyip tekrar deneyin. Bu süre zarfında size yardımcı olabileceğim başka konular hakkında sorular sorabilirsiniz."
  | question_tag =>
      "Bu konu hakkında temel sorular oluşturmak için API'ye ihtiyacım var. Şu anda kullanım limitimiz dolmuş durumda. Lütfen daha sonra tekrar deneyin."
  | explanation =>
      "Bu soru hakkında detaylı açıklama yapmak için API'ye ihtiyacım var. Şu anda kullanım limitimiz dolmuş durumda. Lütfen daha sonra tekrar deneyin."
  | image =>
      "Bu resmi analiz etmek için API'ye ihtiyacım var. Şu anda kullanım limitimiz dolmuş durumda. Lütfen daha sonra tekrar deneyin."
  end.

(** The template literal of the [else] branch of [generateAIExplanation]. *)
Definition fallbackExplanation (userAnswer correctAnswer : string) : string :=
  "Bu soruda " ++ userAnswer ++ " cevabını verdin, ancak doğru cevap "
    ++ correctAnswer ++ ". " ++ newline
    ++ "          Bu tür sorularda dikkat etmen gereken nokta, soruyu dikkatli okumak ve tüm seçenekleri değerlendirmektir. "
    ++ newline
    ++ "          Bir dahaki sefere daha dikkatli ol! 💪".

(** The array literal resolved when [JSON.parse] throws. *)
Definition placeholderQuestions : list InteractiveQuestion :=
  [ mkQuestion "q1" 30 "Bu konu hakkında ne öğrendin?"
      ["A) Temel kavramlar"; "B) Detaylı analiz"; "C) Pratik uygulama"; "D) Hepsi"]
      "D) Hepsi";
    mkQuestion "q2" 120 "Hangi yöntem daha etkili?"
      ["A) Geleneksel yöntem"; "B) Modern yaklaşım"; "C) Hibrit yöntem"; "D) Deneme yanılma"]
      "C) Hibrit yöntem";
    mkQuestion "q3" 300 "Bu bilgiyi nasıl uygularsın?"
      ["A) Ezberleyerek"; "B) Anlayarak"; "C) Pratik yaparak"; "D) B ve C"]
      "D) B ve C" ].

(** *** Queue items

    Every public operation hands [addToQueue] an [async] arrow that settles
    the operation's promise (the "handle") from inside a [try]/[catch].
    [Async X] is the body of such an arrow: it appends to the event trace,
    may settle the handle, and either completes with an [X] or throws. *)

Section Operations.

(** [JSON.parse]: the parsed value, or [None] when it throws. *)
Variable json : Type.
Variable JSON_parse : string -> option json.

Inductive Value : Type :=
| VText (s : string)
| VUndefined
| VJson (j : json)
| VQuestions (qs : list InteractiveQuestion).

Inductive Settled : Type :=
| Resolved (v : Value)
| Rejected (e : Error).

Record ItemState : Type := mkItemState {
  trace : list Event;
  handle : option Settled
}.

Definition Async (X : Type) : Type := ItemState -> ItemState * (X + Error).

Definition ret {X} (x : X) : Async X := fun s => (s, inl x).

Definition bind {X Y} (c : Async X) (k : X -> Async Y) : Async Y :=
  fun s =>
    match c s with
    | (s', inl x) => k x s'
    | (s', inr e) => (s', inr e)
    end.

Definition throw {X} (e : Error) : Async X := fun s => (s, inr e).

(** [try { body } catch (error) { handler }]. *)
Definition tryCatch {X} (body : Async X) (handler : Error -> Async X) : Async X :=
  fun s =>
    match body s with
    | (s', inl x) => (s', inl x)
    | (s', inr e) => handler e s'
    end.

Definition emit (evs : list Event) : Async unit :=
  fun s => (mkItemState (trace s ++ evs) (handle s), inl tt).

(** [resolve(..)] / [reject(..)] of the enclosing [new Promise]: the
    first settlement wins. *)
Definition settle (o : Settled) : Async unit :=
  fun s =>
    match handle s with
    | None => (mkItemState (trace s) (Some o), inl tt)
    | Some _ => (s, inl tt)
    end.

Definition resolve (v : Value) : Async unit := settle (Resolved v).
Definition reject (e : Error) : Async unit := settle (Rejected e).

Notation "x <- c ;; k" := (bind c (fun x => k))
  (at level 61, c at next level, right associativity).
Notation "c ;;; k" := (bind c (fun _ => k))
  (at level 61, right associativity).

(** [await retryWithBackoff(async () => { .. })] with the default
    [maxRetries]; [None] is [undefined]. *)
Definition await_retryWithBackoff (remote : Remote) : Async (option string) :=
  fun s =>
    let (evs, r) := retryWithBackoff remote defaultMaxRetries in
    let s' := mkItemState (trace s ++ evs) (handle s) in
    match r with
    | Return text => (s', inl (Some text))
    | ReturnUndefined => (s', inl None)
    | Throw e => (s', inr e)
    end.

Definition value_of (result : option string) : Value :=
  match result with
  | Some text => VText text
  | None => VUndefined
  end.

(** [error.message?.includes('429') || error.message?.includes('quota')]. *)
Definition quotaClassified (error : Error) : bool :=
  message_includes error "429" || message_includes error "quota".

(** The [SyntaxError] of [JSON.parse]; its handler binds no variable. *)
Definition syntaxError : Error := mkError (Some "SyntaxError").

Definition parse (text : option string) : Async json :=
  match text with
  | Some t =>
      match JSON_parse t with
      | Some j => ret j
      | None => throw syntaxError
      end
  | None => throw syntaxError
  end.

Definition generateText_item (prompt : string) (remote : Remote) : Async unit :=
  tryCatch
    (result <- await_retryWithBackoff remote ;;
     resolve (value_of result))
    (fun error =>
       emit [EvConsoleError] ;;;
       if quotaClassified error
       then resolve (VText (getOfflineResponse chat))
       else reject error).

Definition analyzeImage_item (prompt imageBase64 mimeType : string)
    (remote : Remote) : Async unit :=
  tryCatch
    (result <- await_retryWithBackoff remote ;;
     resolve (value_of result))
    (fun error =>
       emit [EvConsoleError] ;;;
       if quotaClassified error
       then resolve (VText (getOfflineResponse image))
       else reject error).

Definition generateAIExplanation_item (question : string)
    (options : list string) (correctAnswer userAnswer : string)
    (remote : Remote) : Async unit :=
  tryCatch
    (result <- await_retryWithBackoff remote ;;
     resolve (value_of result))
    (fun error =>
       emit [EvConsoleError] ;;;
       if quotaClassified error
       then resolve (VText (getOfflineResponse explanation))
       else resolve (VText (fallbackExplanation userAnswer correctAnswer))).

Definition generateQuestionFromContent_item (content subject : string)
    (remote : Remote) : Async unit :=
  tryCatch
    (result <- await_retryWithBackoff remote ;;
     let text := result in
     tryCatch
       (j <- parse text ;; resolve (VJson j))
       (fun _ => resolve (VQuestions placeholderQuestions)))
    (fun error =>
       emit [EvConsoleError] ;;;
       reject error).

(** The four exported operations, with their arguments. *)
Inductive Operation : Type :=
| GenerateText (prompt : string)
| AnalyzeImage (prompt imageBase64 mimeType : string)
| GenerateAIExplanation (question : string) (options : list string)
    (correctAnswer userAnswer : string)
| GenerateQuestionFromContent (content subject : string).

Definition item_of (op : Operation) (remote : Remote) : Async unit :=
  match op with
  | GenerateText prompt => generateText_item prompt remote
  | AnalyzeImage prompt imageBase64 mimeType =>
      analyzeImage_item prompt imageBase64 mimeType remote
  | GenerateAIExplanation q opts correct user =>
      generateAIExplanation_item q opts correct user remote
  | GenerateQuestionFromContent content subject =>
      generateQuestionFromContent_item content subject remote
  end.

Definition freshItem : ItemState := mkItemState [] None.

(** State of the handle once the queue has run the operation's item:
    [None] would be a promise left pending. *)
Definition outcome (op : Operation) (remote : Remote) : option Settled :=
  handle (fst (item_of op remote freshItem)).

Definition generateText (prompt : string) (remote : Remote) :=
  outcome (GenerateText prompt) remote.
Definition analyzeImage (prompt imageBase64 mimeType : string) (remote : Remote) :=
  outcome (AnalyzeImage prompt imageBase64 mimeType) remote.
Definition generateAIExplanation (question : string) (options : list string)
    (correctAnswer userAnswer : string) (remote : Remote) :=
  outcome (GenerateAIExplanation question options correctAnswer userAnswer) remote.
Definition generateQuestionFromContent (content subject : string) (remote : Remote) :=
  outcome (GenerateQuestionFromContent content subject) remote.

(** *** [requestQueue], [isProcessing], [processQueue], [addToQueue]

    [processQueue] is an [async] function: a call runs synchronously up to
    its first [await] and is resumed later by the event loop.  A suspended
    call is a [Loop]; the gateway keeps every suspended call, so that the
    re-entrancy guard is something to prove rather than an assumption. *)

Record QueueItem : Type := mkQueueItem {
  tag : nat;                 (* names the unit in the log; not in the source *)
  request : Async unit
}.

Inductive Loop : Type :=
| AwaitingRequest (it : QueueItem)     (* at [await request()] *)
| AwaitingDelay.                       (* at [await new Promise(.. setTimeout ..)] *)

Inductive LogEvent : Type :=
| Started (t : nat)
| Finished (t : nat) (h : option Settled) (threw : bool)
| Delayed (ms : nat).

Record Gateway : Type := mkGateway {
  requestQueue : list QueueItem;
  isProcessing : bool;
  loops : list Loop;
  log : list LogEvent
}.

Definition idle : Gateway := mkGateway [] false [] [].

Definition option_list {X} (o : option X) : list X :=
  match o with Some x => [x] | None => [] end.

(** Replace the [k]-th suspended call by its next suspension point, or drop
    it when the call has returned. *)
Definition setLoop (k : nat) (l : option Loop) (ls : list Loop) : list Loop :=
  firstn k ls ++ option_list l ++ skipn (S k) ls.

(** The head of [while (requestQueue.length > 0)], up to the next [await]
    ([Some]) or to the [isProcessing = false] that follows the loop ([None]). *)
Definition whileHead (g : Gateway) : Gateway * option Loop :=
  match requestQueue g with
  | [] => (mkGateway [] false (loops g) (log g), None)
  | request :: rest =>
      (mkGateway rest (isProcessing g) (loops g) (log g ++ [Started (tag request)]),
       Some (AwaitingRequest request))
  end.

Definition processQueue (g : Gateway) : Gateway :=
  if isProcessing g || (length (requestQueue g) =? 0) then g
  else
    let g1 := mkGateway (requestQueue g) true (loops g) (log g) in
    let (g2, l) := whileHead g1 in
    mkGateway (requestQueue g2) (isProcessing g2) (loops g2 ++ option_list l) (log g2).

Definition addToQueue (request : QueueItem) (g : Gateway) : Gateway :=
  processQueue
    (mkGateway (requestQueue g ++ [request]) (isProcessing g) (loops g) (log g)).

(** The event loop resumes the [k]-th suspended [processQueue] call: its
    awaited request has settled, or its timer has fired. *)
Definition resume (k : nat) (g : Gateway) : Gateway :=
  match nth_error (loops g) k with
  | None => g
  | Some (AwaitingRequest it) =>
      let (s, r) := request it freshItem in
      match r with
      | inl _ =>
          mkGateway (requestQueue g) (isProcessing g)
            (setLoop k (Some AwaitingDelay) (loops g))
            (log g ++ [Finished (tag it) (handle s) false])
      | inr _ =>
          (* [catch (error)]: the delay inside [try] is not reached *)
          let g1 := mkGateway (requestQueue g) (isProcessing g) (loops g)
                      (log g ++ [Finished (tag it) (handle s) true]) in
          let (g2, l) := whileHead g1 in
          mkGateway (requestQueue g2) (isProcessing g2) (setLoop k l (loops g2)) (log g2)
      end
  | Some AwaitingDelay =>
      let g1 := mkGateway (requestQueue g) (isProcessing g) (loops g)
                  (log g ++ [Delayed RATE_LIMIT_DELAY]) in
      let (g2, l) := whileHead g1 in
      mkGateway (requestQueue g2) (isProcessing g2) (setLoop k l (loops g2)) (log g2)
  end.

(** What can happen to the gateway: a caller invokes one of the exported
    operations ([addToQueue] itself is not exported), or the event loop
    resumes a suspended drain. *)
Inductive Action : Type :=
| Call (t : nat) (op : Operation) (remote : Remote)
| Resume (k : nat).

Definition step (g : Gateway) (a : Action) : Gateway :=
  match a with
  | Call t op remote => addToQueue (mkQueueItem t (item_of op remote)) g
  | Resume k => resume k g
  end.

Definition run (acts : list Action) (g : Gateway) : Gateway :=
  fold_left step acts g.

(** Tags in submission order, and tags in the order their units were started. *)
Definition submitted (acts : list Action) : list nat :=
  flat_map (fun a => match a with Call t _ _ => [t] | Resume _ => [] end) acts.

Definition started (l : list LogEvent) : list nat :=
  flat_map (fun e => match e with Started t => [t] | _ => [] end) l.

(** A log in which units run one after the other, each followed by the
    fixed delay before the next one starts. *)
Fixpoint paced (l : list LogEvent) : bool :=
  match l with
  | [] => true
  | Started t :: l1 =>
      match l1 with
      | [] => true
      | Finished t' _ _ :: l2 =>
          (t =? t') &&
          match l2 with
          | [] => true
          | Delayed ms :: l3 => (ms =? RATE_LIMIT_DELAY) && paced l3
          | _ => false
          end
      | _ => false
      end
  | _ => false
  end.

(** No awaited unit threw into the drain loop. *)
Definition noneThrew (l : list LogEvent) : bool :=
  forallb (fun e => match e with Finished _ _ threw => negb threw | _ => true end) l.

(** One complete turn of the drain loop for a unit that did not throw. *)
Definition turn (u : nat * option Settled) : list LogEvent :=
  [Started (fst u); Finished (fst u) (snd u) false; Delayed RATE_LIMIT_DELAY].

Definition neverThrows (it : QueueItem) : Prop :=
  snd (request it freshItem) = inl tt.

(** The drain-loop invariant: at most one suspended [processQueue] call,
    [isProcessing] set exactly while there is one, a log made of complete
    turns followed by the turn in progress, and units started in the order
    they were submitted. *)
Definition drainInv (acts : list Action) (g : Gateway) : Prop :=
  Forall neverThrows (requestQueue g)
  /\ (started (log g) ++ map tag (requestQueue g))%list = submitted acts
  /\ exists done : list (nat * option Settled),
       match loops g with
       | [] =>
           isProcessing g = false /\ requestQueue g = []
           /\ log g = flat_map turn done
       | [AwaitingRequest it] =>
           isProcessing g = true /\ neverThrows it
           /\ log g = (flat_map turn done ++ [Started (tag it)])%list
       | [AwaitingDelay] =>
           isProcessing g = true
           /\ exists t h,
                log g = (flat_map turn done ++ [Started t; Finished t h false])%list
       | _ => False
       end.

(** *** The queue on its own

    [addToQueue] takes any [() => Promise<any>]: the drain loop is also
    described for requests that reject, which none of the exported
    operations queues. *)

Inductive QueueAction : Type :=
| Enqueue (request : QueueItem)
| Wake (k : nat).

Definition queueStep (g : Gateway) (a : QueueAction) : Gateway :=
  match a with
  | Enqueue request => addToQueue request g
  | Wake k => resume k g
  end.

Definition queueRun (acts : list QueueAction) (g : Gateway) : Gateway :=
  fold_left queueStep acts g.

(** A call of an exported operation enqueues the arrow of that operation. *)
Definition queueAction (a : Action) : QueueAction :=
  match a with
  | Call t op remote => Enqueue (mkQueueItem t (item_of op remote))
  | Resume k => Wake k
  end.

(** The units handed to [addToQueue], in order. *)
Definition enqueued (acts : list QueueAction) : list QueueItem :=
  flat_map (fun a => match a with Enqueue it => [it] | Wake _ => [] end) acts.

(** One turn of the drain loop for the unit [it]: it is started and
    awaited; the delay follows when it fulfilled, and is skipped when it
    rejected, the [catch] being past it. *)
Definition turnOf (it : QueueItem) : list LogEvent :=
  let (s, r) := request it freshItem in
  match r with
  | inl _ => [Started (tag it); Finished (tag it) (handle s) false;
              Delayed RATE_LIMIT_DELAY]
  | inr _ => [Started (tag it); Finished (tag it) (handle s) true]
  end.

(** What the drain loop owes to the units enqueued by [acts]. *)
Definition agenda (acts : list QueueAction) : list LogEvent :=
  flat_map turnOf (enqueued acts).

(** Resumptions one unit takes: one for the request and one for the timer. *)
Definition wakesOf (it : QueueItem) : nat :=
  match snd (request it freshItem) with
  | inl _ => 2
  | inr _ => 1
  end.

(** Resumptions the drain still needs before it is idle. *)
Definition wakesLeft (g : Gateway) : nat :=
  list_sum (map wakesOf (requestQueue g))
  + match loops g with
    | [AwaitingRequest it] => wakesOf it
    | [AwaitingDelay] => 1
    | _ => 0
    end.

(** The gateway is somewhere along the agenda: the units in [pre] are
    served, the first of [rest] is in flight, the others are queued. *)
Definition queueInv (acts : list QueueAction) (g : Gateway) : Prop :=
  exists pre rest,
    enqueued acts = (pre ++ rest)%list
    /\ match loops g, rest with
       | [], [] =>
           isProcessing g = false /\ requestQueue g = []
           /\ log g = flat_map turnOf pre
       | [AwaitingRequest it], c :: suf =>
           isProcessing g = true /\ it = c /\ requestQueue g = suf
           /\ log g = (flat_map turnOf pre ++ [Started (tag c)])%list
       | [AwaitingDelay], c :: suf =>
           isProcessing g = true /\ requestQueue g = suf
           /\ exists s,
                request c freshItem = (s, inl tt)
                /\ log g = (flat_map turnOf pre
                            ++ [Started (tag c); Finished (tag c) (handle s) false])%list
       | _, _ => False
       end.

(** C2 as the specification words it: whatever is enqueued and however the
    drain is resumed, a unit that has been awaited is followed by the delay
    before the next one is started, whether it succeeded or failed. *)
Definition delayAfterEveryUnit (acts : list QueueAction) : Prop :=
  paced (log (queueRun acts idle)) = true.

(** C9 as the specification words it: a terminal error that is not
    classified as rate-limit/quota rejects the handle with that error. *)
Definition explanationRejectsUnclassified (question : string)
    (options : list string) (correctAnswer userAnswer : string)
    (remote : Remote) : Prop :=
  forall e,
    snd (retryWithBackoff remote defaultMaxRetries) = Throw e ->
    quotaClassified e = false ->
    generateAIExplanation question options correctAnswer userAnswer remote
    = Some (Rejected e).

End Operations.

Arguments VText {json} s.
Arguments VUndefined {json}.
Arguments VJson {json} j.
Arguments VQuestions {json} qs.
Arguments Resolved {json} v.
Arguments Rejected {json} e.
Arguments trace {json} i.
Arguments handle {json} i.
Arguments tag {json} q.
Arguments request {json} q.
Arguments mkQueueItem {json} tag request.
Arguments AwaitingRequest {json} it.
Arguments AwaitingDelay {json}.
Arguments Started {json} t.
Arguments Finished {json} t h threw.
Arguments Delayed {json} ms.
Arguments requestQueue {json} g.
Arguments isProcessing {json} g.
Arguments loops {json} g.
Arguments log {json} g.
Arguments started {json} l.
Arguments paced {json} l.
Arguments noneThrew {json} l.
Arguments turn {json} u.
Arguments neverThrows {json} it.
Arguments drainInv {json} acts g.
Arguments step {json} JSON_parse g a.
Arguments run {json} JSON_parse acts g.
Arguments item_of {json} JSON_parse op remote.
Arguments outcome {json} JSON_parse op remote.
Arguments Enqueue {json} request.
Arguments Wake {json} k.
Arguments queueStep {json} g a.
Arguments queueRun {json} acts g.
Arguments queueAction {json} JSON_parse a.
Arguments enqueued {json} acts.
Arguments turnOf {json} it.
Arguments agenda {json} acts.
Arguments wakesOf {json} it.
Arguments wakesLeft {json} g.
Arguments queueInv {json} acts g.
Arguments delayAfterEveryUnit {json} acts.

(** *** The schedule a sequence of calls asks for *)

Section Schedule.

Variable json : Type.
Variable JSON_parse : string -> option json.

(** The calls of the exported operations among [acts], in order. *)
Definition callsOf (acts : list Action) : list (nat * Operation * Remote) :=
  flat_map (fun a => match a with
                     | Call t op remote => [(t, op, remote)]
                     | Resume _ => []
                     end) acts.

Definition itemOfCall (c : nat * Operation * Remote) : QueueItem json :=
  mkQueueItem (fst (fst c)) (item_of JSON_parse (snd (fst c)) (snd c)).

(** The turn of the drain loop that serves call [c]: its unit is started,
    settles its handle with the outcome of that very operation, and the
    delay elapses. *)
Definition turnOfCall (c : nat * Operation * Remote) : list (LogEvent json) :=
  turn (fst (fst c), outcome JSON_parse (snd (fst c)) (snd c)).

Definition schedule (acts : list Action) : list (LogEvent json) :=
  flat_map turnOfCall (callsOf acts).

(** The gateway is somewhere along the schedule: the calls in [pre] are
    served, the first of [rest] is in flight, the others are queued. *)
Definition scheduleInv (acts : list Action) (g : Gateway json) : Prop :=
  exists pre rest,
    callsOf acts = (pre ++ rest)%list
    /\ match loops g, rest with
       | [], [] =>
           isProcessing g = false /\ requestQueue g = []
           /\ log g = flat_map turnOfCall pre
       | [AwaitingRequest it], c :: suf =>
           isProcessing g = true /\ it = itemOfCall c
           /\ requestQueue g = map itemOfCall suf
           /\ log g = (flat_map turnOfCall pre ++ [Started (fst (fst c))])%list
       | [AwaitingDelay], c :: suf =>
           isProcessing g = true
           /\ requestQueue g = map itemOfCall suf
           /\ log g = (flat_map turnOfCall pre
                       ++ [Started (fst (fst c));
                           Finished (fst (fst c))
                             (outcome JSON_parse (snd (fst c)) (snd c)) false])%list
       | _, _ => False
       end.

(** Resumptions the drain still needs before it is idle. *)
Definition pendingSteps (g : Gateway json) : nat :=
  2 * length (requestQueue g)
  + match loops g with
    | [AwaitingRequest _] => 2
    | [AwaitingDelay] => 1
    | _ => 0
    end.

End Schedule.

Arguments itemOfCall {json} JSON_parse c.
Arguments turnOfCall {json} JSON_parse c.
Arguments schedule {json} JSON_parse acts.
Arguments scheduleInv {json} JSON_parse acts g.
Arguments pendingSteps {json} g.

(** *** Sample remotes *)

Definition tooManyRequests : Error :=
  mkError (Some "[429 Too Many Requests] Resource has been exhausted").

Definition networkDown : Error := mkError (Some "Failed to fetch").

(** Rate-limited twice, then answers. *)
Definition flaky : Remote :=
  fun n => match n with
           | 0 | 1 => Fails tooManyRequests
           | _ => Responds "tamam"
           end.

Definition alwaysRateLimited : Remote := fun _ => Fails tooManyRequests.
Definition unreachable : Remote := fun _ => Fails networkDown.
Definition chatty : Remote := fun _ => Responds "Elbette! Iste sorular:".

Definition noJson : string -> option unit := fun _ => None.

Definition quotaExceeded : Error := mkError (Some "Daily quota exceeded").

(** Fails once with a quota message that carries no status code. *)
Definition overQuota : Remote := fun _ => Fails quotaExceeded.

End Gemini.

(** ** What the two lesson views do to the outside *)

(** Row of [lesson_mistakes] written by [handleAnswerSubmit]. *)
Record MistakeRecord : Type := mkMistake {
  user_id : string;
  lesson_id : option string;
  mistake_question : InteractiveQuestion;
  user_answer : string;
  correct_answer : string;
  ai_explanation : string
}.

Inductive UiEffect : Type :=
| ToastSuccess (msg : string)
| ToastError (msg : string)
| ConsoleError
| RequestExplanation (question : string) (options : list string)
    (correctAnswer userAnswer : string)
| InsertMistake (r : MistakeRecord).

Definition isRequestExplanation (e : UiEffect) : bool :=
  match e with RequestExplanation _ _ _ _ => true | _ => false end.

Definition isInsertMistake (e : UiEffect) : bool :=
  match e with InsertMistake _ => true | _ => false end.

Definition countEffects (p : UiEffect -> bool) (es : list UiEffect) : nat :=
  length (filter p es).

(** [a < b] on numbers. *)
Definition Qltb (a b : Q) : bool := negb (Qle_bool b a).

(** ** JavaScript numbers

    A [number] is an IEEE 754 double.  A finite double is held as the
    rational it denotes; an arithmetic operation computes the exact rational
    result and rounds it to the nearest double, ties to even, as the
    standard prescribes.  The two zeros are one value: nothing below divides
    by a variable or looks at the sign of a zero. *)

Module Double.

Inductive number : Type :=
| Finite (q : Q)
| Infinity (negative : bool)
| NaN.

Definition pow2 (e : Z) : Q := (2 ^ e)%Q.

(** [floor (log2 x)], for [x > 0]. *)
Definition ilog2 (x : Q) : Z :=
  let e0 := (Z.log2 (Qnum x) - Z.log2 (Zpos (Qden x)))%Z in
  if Qle_bool (pow2 e0) x then e0 else (e0 - 1)%Z.

(** Nearest integer, ties to the even one. *)
Definition roundHalfEven (x : Q) : Z :=
  let f := Qfloor x in
  match (x - inject_Z f ?= 1 # 2)%Q with
  | Lt => f
  | Gt => (f + 1)%Z
  | Eq => if Z.even f then f else (f + 1)%Z
  end.

(** The spacing of the doubles around [a > 0]: 53 significant bits, and
    [2^-1074] throughout the subnormal range. *)
Definition quantum (a : Q) : Q := pow2 (Z.max (ilog2 a - 52) (-1074)).

(** The multiple of the quantum nearest to [a > 0]. *)
Definition nearest (a : Q) : Q :=
  (inject_Z (roundHalfEven (a / quantum a)) * quantum a)%Q.

(** The double nearest to [x]: an infinity from [2^1024] on. *)
Definition round (x : Q) : number :=
  let x := Qred x in
  if Qeq_bool x 0 then Finite 0
  else
    let v := nearest (Qabs x) in
    if Qle_bool (pow2 1024) v then Infinity (Qltb x 0)
    else Finite (Qred (if Qltb x 0 then - v else v)).

(** [-a]. *)
Definition neg (a : number) : number :=
  match a with
  | Finite x => Finite (- x)
  | Infinity s => Infinity (negb s)
  | NaN => NaN
  end.

(** [Math.abs]. *)
Definition abs (a : number) : number :=
  match a with
  | Finite x => Finite (Qabs x)
  | Infinity _ => Infinity false
  | NaN => NaN
  end.

(** [a + b]. *)
Definition add (a b : number) : number :=
  match a, b with
  | NaN, _ | _, NaN => NaN
  | Finite x, Finite y => round (x + y)
  | Infinity s, Infinity t => if Bool.eqb s t then Infinity s else NaN
  | Infinity s, Finite _ | Finite _, Infinity s => Infinity s
  end.

(** [a - b]. *)
Definition sub (a b : number) : number := add a (neg b).

(** [a * b]. *)
Definition mul (a b : number) : number :=
  match a, b with
  | NaN, _ | _, NaN => NaN
  | Finite x, Finite y => round (x * y)
  | Infinity s, Infinity t => Infinity (xorb s t)
  | Infinity s, Finite y | Finite y, Infinity s =>
      if Qeq_bool y 0 then NaN else Infinity (xorb s (Qltb y 0))
  end.

(** [a / b]. *)
Definition div (a b : number) : number :=
  match a, b with
  | NaN, _ | _, NaN => NaN
  | Finite x, Finite y =>
      if Qeq_bool y 0
      then (if Qeq_bool x 0 then NaN else Infinity (Qltb x 0))
      else round (x / y)
  | Finite _, Infinity _ => Finite 0
  | Infinity s, Finite y => Infinity (xorb s (Qltb y 0))
  | Infinity _, Infinity _ => NaN
  end.

(** The quotient rounded towards 0. *)
Definition truncate (x : Q) : Z := if Qle_bool 0 x then Qfloor x else Qceiling x.

(** [a % b]: [a] minus [b] times the truncated quotient, which is always a
    double. *)
Definition rem (a b : number) : number :=
  match a, b with
  | NaN, _ | _, NaN => NaN
  | Infinity _, _ => NaN
  | Finite x, Infinity _ => Finite x
  | Finite x, Finite y =>
      if Qeq_bool y 0 then NaN
      else Finite (Qred (x - y * inject_Z (truncate (x / y))))
  end.

(** [Math.floor]. *)
Definition floor (a : number) : number :=
  match a with
  | Finite x => Finite (inject_Z (Qfloor x))
  | _ => a
  end.

(** [a < b]: false as soon as one side is [NaN]. *)
Definition ltb (a b : number) : bool :=
  match a, b with
  | NaN, _ | _, NaN => false
  | Finite x, Finite y => Qltb x y
  | Infinity s, Infinity t => s && negb t
  | Infinity s, Finite _ => s
  | Finite _, Infinity t => negb t
  end.

(** [Math.min]. *)
Definition min (a b : number) : number :=
  match a, b with
  | NaN, _ | _, NaN => NaN
  | _, _ => if ltb b a then b else a
  end.

(** A number used as a condition: 0 and [NaN] are falsy. *)
Definition truthy (a : number) : bool :=
  match a with
  | Finite x => negb (Qeq_bool x 0)
  | Infinity _ => true
  | NaN => false
  end.

(** [a] is the finite number [q]. *)
Definition valueIs (a : number) (q : Q) : Prop :=
  match a with
  | Finite x => (x == q)%Q
  | _ => False
  end.

(** [x] is a double: rounding does not move it. *)
Definition isDouble (x : Q) : Prop := valueIs (round x) x.

(** Half a quantum below 2: what lies from here on is rounded to 2 or more. *)
Definition almostTwo : Q := 2 - (1 # 2 ^ 53).

End Double.

(** ** [VideoPlayer] *)

Module VideoPlayer.
Import Js.

(** [setPlayer] is never called in the component; [player] is kept as a
    field so that the check can be stated for a mounted player. *)
Record State : Type := mkState {
  player : bool;                                (* [player] is not [null] *)
  activeQuestion : option InteractiveQuestion;
  answeredQuestions : list string;
  isPlaying : bool;
  playerRef : option string                     (* [src] of the mounted iframe *)
}.

Section Component.

(** Props, and the embed URL derived from [youtubeLink]. *)
Variable questions : list InteractiveQuestion.
Variable customEmbedUrl : string.

(** [questions.find(q => q.timestamp === currentTime &&
    !answeredQuestions.includes(q.id))] with
    [currentTime = Math.floor(player.getCurrentTime())]. *)
Definition questionToShow (answered : list string) (t : Q)
  : option InteractiveQuestion :=
  let currentTime := inject_Z (Qfloor t) in
  find (fun q => Qeq_bool (timestamp q) currentTime
                 && negb (array_includes answered (id q)))
       questions.

(** Body of the [setInterval] callback; [t] is what
    [player.getCurrentTime()] returns when it fires. *)
Definition intervalCallback (t : Q) (st : State) : State :=
  match questionToShow (answeredQuestions st) t with
  | Some q => mkState (player st) (Some q) (answeredQuestions st) false (playerRef st)
  | None => st
  end.

(** The effect keeps an interval only while [player && isPlaying]; its
    dependency list re-creates the callback on every change it reads. *)
Definition tick (t : Q) (st : State) : State :=
  if player st && isPlaying st then intervalCallback t st else st.

Definition handleAnswer (isCorrect : bool) (st : State) : State * list UiEffect :=
  match activeQuestion st with
  | None => (st, [])
  | Some q =>
      if isCorrect then
        (mkState (player st) None (answeredQuestions st ++ [id q]) true (playerRef st),
         [ToastSuccess "Doğru cevap! +15 XP kazandınız! 🎉"])
      else
        (mkState (player st) None [] true
           (option_map (fun _ => customEmbedUrl) (playerRef st)),
         [ToastError "Yanlış cevap! Video başa sarılıyor."])
  end.

(** [onClose={() => setActiveQuestion(null)}]. *)
Definition onClose (st : State) : State :=
  mkState (player st) None (answeredQuestions st) (isPlaying st) (playerRef st).

Definition togglePlay (st : State) : State :=
  mkState (player st) (activeQuestion st) (answeredQuestions st)
    (negb (isPlaying st)) (playerRef st).

Definition handleSeek (st : State) : State :=
  mkState (player st) (activeQuestion st) (answeredQuestions st) (isPlaying st)
    (option_map (fun _ => customEmbedUrl) (playerRef st)).

Inductive Event : Type :=
| Tick (t : Q)
| Answer (isCorrect : bool)
| Close
| TogglePlay
| Seek.

Definition step (st : State) (e : Event) : State :=
  match e with
  | Tick t => tick t st
  | Answer isCorrect => fst (handleAnswer isCorrect st)
  | Close => onClose st
  | TogglePlay => togglePlay st
  | Seek => handleSeek st
  end.

Definition run (evs : list Event) (st : State) : State := fold_left step evs st.

(** Questions whose modal is rendered: [{activeQuestion && <QuestionModal ../>}]. *)
Definition displayed (st : State) : list InteractiveQuestion :=
  match activeQuestion st with Some q => [q] | None => [] end.

Definition isWrongAnswer (e : Event) : bool :=
  match e with Answer false => true | _ => false end.

(** Invariant: the active question is never one of the answered ones. *)
Definition activeUnanswered (st : State) : Prop :=
  forall q, activeQuestion st = Some q -> ~ In (id q) (answeredQuestions st).

(** Invariant, as long as no wrong answer is submitted: an answered id stays
    answered and its question is not active. *)
Definition settled (x : string) (st : State) : Prop :=
  In x (answeredQuestions st)
  /\ forall q, activeQuestion st = Some q -> id q <> x.

(** C6 as the specification words it: once the active question [q] of [st]
    has been answered correctly, nothing that happens later in the session
    makes it the active question again. *)
Definition staysAnswered (st : State) (q : InteractiveQuestion) : Prop :=
  forall evs : list Event,
    activeQuestion (run evs (fst (handleAnswer true st))) <> Some q.

End Component.

(** *** [formatTime] *)

(** The decimal digits of a whole number. *)
Definition decimal (z : Z) : string := NilZero.string_of_int (Z.to_int z).

(** [padStart(2, '0')]. *)
Definition padStart2 (s : string) : string :=
  match String.length s with
  | 0 => "00"
  | 1 => "0" ++ s
  | _ => s
  end.

Section FormatTime.

(** [Number.prototype.toString], which is also what a template literal
    applies to a number. *)
Variable Number_toString : Double.number -> string.

Definition formatTime (seconds : Double.number) : string :=
  let mins := Double.floor (Double.div seconds (Double.Finite 60)) in
  let secs := Double.floor (Double.rem seconds (Double.Finite 60)) in
  Number_toString mins ++ ":" ++ padStart2 (Number_toString secs).

(** What [toString] is known to print for a whole number that a double
    holds exactly: its decimal digits. *)
Definition printsWholeNumbers : Prop :=
  forall z : Z,
    (Z.abs z < 2 ^ 53)%Z ->
    Number_toString (Double.Finite (inject_Z z)) = decimal z.

End FormatTime.

End VideoPlayer.

(** ** [LessonDetailPage] *)

Module LessonDetailPage.
Import Js.

(** The fields of [Lesson] and of the signed-in user that the page logic reads. *)
Record Lesson : Type := mkLesson {
  interactive_questions : option (list InteractiveQuestion)
}.

Record UserData : Type := mkUserData { userData_id : string }.

Record State : Type := mkState {
  currentQuestion : option InteractiveQuestion;
  showQuestionModal : bool;
  selectedAnswer : string;
  isAnswering : bool;
  showExplanation : bool;
  aiExplanation : string;
  videoProgress : Q;
  isVideoPlaying : bool
}.

(** [setVideoProgress] is never called in the page: the position the check
    samples is an argument of the check below. *)
Definition initial : State := mkState None false "" false false "" 0 false.

(** A string used as a condition. *)
Definition truthy (s : string) : bool := negb (String.eqb s "").

Section Page.

Variable json : Type.
Variable JSON_parse : string -> option json.

(** Route parameter, loaded lesson and auth context of the session. *)
Variable lessonId : option string.
Variable lesson : option Lesson.

Definition TOLERANCE : Q := 2.

(** [Math.abs(q.timestamp - currentTime) < 2], as the page evaluates it:
    the difference is a double. *)
Definition withinTolerance (timestamp currentTime : Q) : bool :=
  Double.ltb
    (Double.abs (Double.sub (Double.Finite timestamp) (Double.Finite currentTime)))
    (Double.Finite TOLERANCE).

(** [lesson.interactive_questions.find(q =>
    Math.abs(q.timestamp - currentTime) < 2)]. *)
Definition findDue (qs : list InteractiveQuestion) (currentTime : Q)
  : option InteractiveQuestion :=
  find (fun q => withinTolerance (timestamp q) currentTime) qs.

(** Body of the [setInterval] callback of [startQuestionCheck].  The callback
    reads [videoProgress] and [showQuestionModal] from the closure that
    created it; they are arguments here. *)
Definition questionCheck (videoProgress : Q) (showQuestionModal : bool)
    (st : State) : State :=
  match lesson with
  | None => st
  | Some l =>
      match interactive_questions l with
      | None => st
      | Some qs =>
          let currentTime := videoProgress in
          match findDue qs currentTime with
          | Some q =>
              if negb showQuestionModal then
                mkState (Some q) true (selectedAnswer st) (isAnswering st)
                  (showExplanation st) (aiExplanation st) (LessonDetailPage.videoProgress st)
                  false
              else st
          | None => st
          end
      end
  end.

(** The question a check would activate, if any. *)
Definition activated (videoProgress : Q) (showQuestionModal : bool)
  : option InteractiveQuestion :=
  match lesson with
  | None => None
  | Some l =>
      match interactive_questions l with
      | None => None
      | Some qs => if negb showQuestionModal then findDue qs videoProgress else None
      end
  end.

(** The effect calls [startQuestionCheck] only for a lesson with at least
    one question. *)
Definition intervalStarted : bool :=
  match lesson with
  | Some l =>
      match interactive_questions l with
      | Some (_ :: _) => true
      | _ => false
      end
  | None => false
  end.

Definition tick (videoProgress : Q) (showQuestionModal : bool) (st : State) : State :=
  if intervalStarted then questionCheck videoProgress showQuestionModal st else st.

Definition text_of (v : Gemini.Value json) : string :=
  match v with Gemini.VText s => s | _ => "" end.

Definition setAnswering (b : bool) (st : State) : State :=
  mkState (currentQuestion st) (showQuestionModal st) (selectedAnswer st) b
    (showExplanation st) (aiExplanation st) (videoProgress st) (isVideoPlaying st).

(** [handleAnswerSubmit]; [remote] is how the AI service answers the
    explanation request, [insertThrows] whether the awaited insert throws. *)
Definition handleAnswerSubmit (userData : option UserData) (remote : Gemini.Remote)
    (insertThrows : bool) (st : State) : State * list UiEffect :=
  match currentQuestion st, userData with
  | Some q, Some u =>
      if truthy (selectedAnswer st) && truthy (userData_id u) then
        let isCorrect := String.eqb (selectedAnswer st) (correctAnswer q) in
        if negb isCorrect then
          let req := RequestExplanation (question q) (options q) (correctAnswer q)
                       (selectedAnswer st) in
          match Gemini.generateAIExplanation json JSON_parse (question q) (options q)
                  (correctAnswer q) (selectedAnswer st) remote with
          | Some (Gemini.Resolved v) =>
              let explanation := text_of v in
              let st' := mkState (currentQuestion st) (showQuestionModal st)
                           (selectedAnswer st) false true explanation
                           (videoProgress st) (isVideoPlaying st) in
              let ins := InsertMistake
                           (mkMistake (userData_id u) lessonId q (selectedAnswer st)
                              (correctAnswer q) explanation) in
              if insertThrows
              then (st', [req; ins; ConsoleError; ToastError "AI açıklaması oluşturulamadı"])
              else (st', [req; ins; ToastError "Yanlış cevap! Açıklamayı okuyun."])
          | Some (Gemini.Rejected _) =>
              (setAnswering false st,
               [req; ConsoleError; ToastError "AI açıklaması oluşturulamadı"])
          | None => (setAnswering true st, [req])
          end
        else (setAnswering false st, [ToastSuccess "Doğru cevap! +15 XP kazandınız!"])
      else (st, [])
  | _, _ => (st, [])
  end.

Definition closeQuestionModal (st : State) : State :=
  mkState None false "" (isAnswering st) false "" (videoProgress st) true.

(** Marker button: [setCurrentQuestion(q); setShowQuestionModal(true)]. *)
Definition selectMarker (q : InteractiveQuestion) (st : State) : State :=
  mkState (Some q) true (selectedAnswer st) (isAnswering st) (showExplanation st)
    (aiExplanation st) (videoProgress st) (isVideoPlaying st).

Definition setSelectedAnswer (option : string) (st : State) : State :=
  mkState (currentQuestion st) (showQuestionModal st) option (isAnswering st)
    (showExplanation st) (aiExplanation st) (videoProgress st) (isVideoPlaying st).

Inductive Event : Type :=
| Tick (videoProgress : Q) (showQuestionModal : bool)
| Marker (q : InteractiveQuestion)
| SelectAnswer (option : string)
| Submit (userData : option UserData) (remote : Gemini.Remote) (insertThrows : bool)
| CloseModal.

Definition step (st : State) (e : Event) : State :=
  match e with
  | Tick vp shown => tick vp shown st
  | Marker q => selectMarker q st
  | SelectAnswer o => setSelectedAnswer o st
  | Submit u remote thr => fst (handleAnswerSubmit u remote thr st)
  | CloseModal => closeQuestionModal st
  end.

Definition run (evs : list Event) (st : State) : State := fold_left step evs st.

(** Questions whose modal is rendered:
    [{showQuestionModal && currentQuestion && (..)}]. *)
Definition displayed (st : State) : list InteractiveQuestion :=
  if showQuestionModal st
  then match currentQuestion st with Some q => [q] | None => [] end
  else [].

(** C7 as the specification words it: every submission of a wrong answer
    issues exactly one explanation request and one mistake record. *)
Definition explanationFlowOnce (userData : option UserData)
    (remote : Gemini.Remote) (insertThrows : bool) (st : State) : Prop :=
  forall q,
    currentQuestion st = Some q ->
    truthy (selectedAnswer st) = true ->
    selectedAnswer st <> correctAnswer q ->
    let es := snd (handleAnswerSubmit userData remote insertThrows st) in
    countEffects isRequestExplanation es = 1
    /\ countEffects isInsertMistake es = 1.

(** The questions of the loaded lesson, for which marker buttons are
    rendered: [lesson.interactive_questions?.map(..)]. *)
Definition lessonQuestions : list InteractiveQuestion :=
  match lesson with
  | Some l =>
      match interactive_questions l with
      | Some qs => qs
      | None => []
      end
  | None => []
  end.

(** Every marker clicked belongs to a button of the lesson. *)
Definition markersFromLesson (evs : list Event) : Prop :=
  forall q, In (Marker q) evs -> In q lessonQuestions.

End Page.

End LessonDetailPage.

(** ** [QuestionSolver], the caller of [analyzeImage] *)

Module QuestionSolver.
Import Js.

(** *** [addXP] *)

(** The fields of the user document that [addXP] reads; [None] is a field
    that is not there. *)
Record UserDoc : Type := mkUserDoc {
  xp : option Double.number;
  level : option Double.number;
  streak : option Double.number
}.

(** [field || fallback] on a number: a missing field, 0 and [NaN] are falsy. *)
Definition orElse (field : option Double.number) (fallback : Double.number)
  : Double.number :=
  match field with
  | Some x => if Double.truthy x then x else fallback
  | None => fallback
  end.

(** What [getDoc] answers. *)
Inductive Snapshot : Type :=
| GetDocThrows
| DocMissing
| DocFound (d : UserDoc).

(** The two success toasts of [addXP] carry the numbers their template
    literals interpolate. *)
Inductive Effect : Type :=
| ToastLoading (msg : string)
| ToastSuccess (msg : string)
| ToastError (msg : string)
| ToastDismiss
| ConsoleError
| UpdateDoc (uid : string) (xp level : Double.number)
| LevelUpToast (totalXP currentLevel newLevel : Double.number)
| AwardToast (totalXP streakBonus : Double.number)
| AnalyzeImageRequest (prompt imageBase64 mimeType : string).

Definition currentXP (d : UserDoc) : Double.number := orElse (xp d) (Double.Finite 0).
Definition currentLevel (d : UserDoc) : Double.number := orElse (level d) (Double.Finite 1).
Definition currentStreak (d : UserDoc) : Double.number := orElse (streak d) (Double.Finite 0).

(** [Math.min(currentStreak * 2, 20)]. *)
Definition streakBonus (d : UserDoc) : Double.number :=
  Double.min (Double.mul (currentStreak d) (Double.Finite 2)) (Double.Finite 20).
Definition totalXP (d : UserDoc) : Double.number :=
  Double.add (Double.Finite 15) (streakBonus d).
Definition newXP (d : UserDoc) : Double.number :=
  Double.add (currentXP d) (totalXP d).

(** [Math.floor(newXP / 200) + 1]. *)
Definition newLevel (d : UserDoc) : Double.number :=
  Double.add (Double.floor (Double.div (newXP d) (Double.Finite 200))) (Double.Finite 1).

(** [newLevel > currentLevel]. *)
Definition levelUp (d : UserDoc) : bool := Double.ltb (currentLevel d) (newLevel d).

(** [x] is the whole number [z], not negative and below [2^52]: what the
    application stores as XP, level and streak. *)
Definition wholeNumber (x : Double.number) (z : Z) : Prop :=
  Double.valueIs x (inject_Z z) /\ (0 <= z < 2 ^ 52)%Z.

(** [Math.min(2 * streak, 20)] and the award on whole numbers. *)
Definition bonusFor (streak : Z) : Z := Z.min (2 * streak) 20.
Definition awardFor (streak : Z) : Z := (15 + bonusFor streak)%Z.

Definition addXP (currentUser : option string) (snapshot : Snapshot)
    (updateThrows : bool) : list Effect :=
  match currentUser with
  | None => []
  | Some uid =>
      match snapshot with
      | GetDocThrows => [ConsoleError]
      | DocMissing => []
      | DocFound d =>
          let update := UpdateDoc uid (newXP d) (newLevel d) in
          if updateThrows then [update; ConsoleError]
          else if levelUp d
               then [update; LevelUpToast (totalXP d) (currentLevel d) (newLevel d)]
               else [update; AwardToast (totalXP d) (streakBonus d)]
      end
  end.

(** *** Image selection *)

Record File : Type := mkFile { file_type : string }.

(** [String.prototype.split] on a one-character separator. *)
Fixpoint splitOn (sep : ascii) (s : string) : list string :=
  match s with
  | EmptyString => [EmptyString]
  | String c rest =>
      if Ascii.eqb c sep then EmptyString :: splitOn sep rest
      else match splitOn sep rest with
           | part :: parts => String c part :: parts
           | [] => [String c EmptyString]
           end
  end.

(** What [analyzeProblem] takes for the answer: the value [JSON.parse]
    returned, whatever it is, or the mock object literal. *)
Inductive Solution (json : Type) : Type :=
| ParsedSolution (j : json)
| MockSolution.

Arguments ParsedSolution {json} j.
Arguments MockSolution {json}.

(** [solution] is [None] when the state holds [null]. *)
Record State (json : Type) : Type := mkState {
  selectedImage : option File;
  imagePreview : string;
  imageBase64 : option string;
  mimeType : option string;
  isAnalyzing : bool;
  solution : option (Solution json)
}.

Arguments mkState {json} _ _ _ _ _ _.
Arguments selectedImage {json} s.
Arguments imagePreview {json} s.
Arguments imageBase64 {json} s.
Arguments mimeType {json} s.
Arguments isAnalyzing {json} s.
Arguments solution {json} s.

Definition initial (json : Type) : State json :=
  mkState None "" None None false None.

(** The synchronous part of [handleImageSelect]. *)
Definition handleImageSelect {json} (file : File) (st : State json)
  : State json * list Effect :=
  if prefix "image/" (file_type file) then
    (mkState (Some file) (imagePreview st) (imageBase64 st) (mimeType st)
       (isAnalyzing st) None, [])
  else (st, [ToastError "Lütfen geçerli bir resim dosyası seçin"]).

(** [reader.onload], with the data URL the reader produced;
    [dataUrl.split(',')[1]] is [undefined] when there is no comma. *)
Definition readerOnload {json} (file : File) (dataUrl : string) (st : State json)
  : State json :=
  mkState (selectedImage st) dataUrl (nth_error (splitOn "," dataUrl) 1)
    (Some (file_type file)) (isAnalyzing st) (solution st).

Definition clearAll {json} (st : State json) : State json :=
  mkState None "" None None (isAnalyzing st) None.

(** *** [analyzeProblem] *)

(** [s] is [p] followed by the result. *)
Fixpoint stripPrefix (p s : string) : option string :=
  match p with
  | EmptyString => Some s
  | String a p' =>
      match s with
      | String b s' => if Ascii.eqb a b then stripPrefix p' s' else None
      | EmptyString => None
      end
  end.

(** The text before and after the first occurrence of [p] in [s]. *)
Fixpoint cutAt (p s : string) {struct s} : option (string * string) :=
  match stripPrefix p s with
  | Some rest => Some (EmptyString, rest)
  | None =>
      match s with
      | EmptyString => None
      | String c s' =>
          match cutAt p s' with
          | Some (before, rest) => Some (String c before, rest)
          | None => None
          end
      end
  end.

Definition fenceOpen : string := "```json" ++ newline.
Definition fenceClose : string := newline ++ "```".

(** Group 1 of the first match of the regular expression of
    [analyzeProblem]: the opening fence with [json] and a line break, the
    shortest text, a line break and the closing fence.  The leftmost match
    starts at the first opening fence and ends at the first closing fence
    after it. *)
Definition extractJsonBlock (responseText : string) : option string :=
  match cutAt fenceOpen responseText with
  | Some (_, rest) =>
      match cutAt fenceClose rest with
      | Some (block, _) => Some block
      | None => None
      end
  | None => None
  end.

Definition truthy (s : string) : bool := negb (String.eqb s "").

Definition truthyField (o : option string) : option string :=
  match o with
  | Some s => if truthy s then Some s else None
  | None => None
  end.

Definition emptyResponse : Error := mkError (Some "API'den boş yanıt alındı.").

Section Solver.

Variable json : Type.
Variable JSON_parse : string -> option json.

(** The [SyntaxError] that [JSON.parse] throws on a text it rejects. *)
Variable syntaxErrorOf : string -> Error.

(** The prompt literal sent with the image. *)
Variable prompt : string.

(** Whether a parsed value is [null], which [JSON.parse] returns for the
    text [null]. *)
Variable isNull : json -> bool.

(** The text [analyzeImage] resolved with; anything else is [undefined]. *)
Definition responseTextOf (v : Gemini.Value json) : option string :=
  match v with
  | Gemini.VText s => if truthy s then Some s else None
  | _ => None
  end.

(** The [try] block of [analyzeProblem] from [JSON.parse] on: the parsed
    answer, the parsed fenced block, or the mock answer. *)
Definition parseResponse (responseText : string) : Solution json + Error :=
  match JSON_parse responseText with
  | Some j => inl (ParsedSolution j)
  | None =>
      match extractJsonBlock responseText with
      | Some block =>
          if truthy block then
            match JSON_parse block with
            | Some j => inl (ParsedSolution j)
            | None => inr (syntaxErrorOf block)
            end
          else inl MockSolution
      | None => inl MockSolution
      end
  end.

(** The message of the error toast in [catch]. *)
Definition errorToast (error : Error) : string :=
  if Gemini.quotaClassified error
  then "API kullanım limiti aşıldı. Lütfen birkaç dakika bekleyip tekrar deneyin."
  else match message error with
       | Some m => if truthy m then m else "Soru çözülürken bir hata oluştu."
       | None => "Soru çözülürken bir hata oluştu."
       end.

Definition solvedToast : Effect := ToastSuccess "Soru başarıyla çözüldü!".



(** [setSolution(parsedResponse)]: the state holds the parsed value itself,
    [null] included. *)
Definition stored (parsedResponse : Solution json) : option (Solution json) :=
  match parsedResponse with
  | ParsedSolution j => if isNull j then None else Some (ParsedSolution j)
  | MockSolution => Some MockSolution
  end.

Definition analyzeProblem (currentUser : option string) (snapshot : Snapshot)
    (updateThrows : bool) (remote : Gemini.Remote) (st : State json)
  : State json * list Effect :=
  match truthyField (imageBase64 st), truthyField (mimeType st) with
  | Some image, Some mime =>
      let before := [ToastLoading "Soru analiz ediliyor...";
                     AnalyzeImageRequest prompt image mime] in
      let finish (s : option (Solution json)) : State json :=
        mkState (selectedImage st) (imagePreview st) (imageBase64 st) (mimeType st)
          false s in
      let failed (error : Error) :=
        (finish None, before ++ [ToastError (errorToast error); ToastDismiss])%list in
      match Gemini.analyzeImage json JSON_parse prompt image mime remote with
      | None =>
          (mkState (selectedImage st) (imagePreview st) (imageBase64 st) (mimeType st)
             true None, before)
      | Some (Gemini.Rejected error) => failed error
      | Some (Gemini.Resolved v) =>
          match responseTextOf v with
          | None => failed emptyResponse
          | Some responseText =>
              match parseResponse responseText with
              | inr error => failed error
              | inl parsedResponse =>
                  (finish (stored parsedResponse),
                   before ++ [solvedToast]
                     ++ addXP currentUser snapshot updateThrows
                     ++ [ToastDismiss])%list
              end
          end
      end
  | _, _ => (st, [ToastError "Önce bir soru resmi yükleyin"])
  end.

End Solver.

(** *** Sample data *)

Definition seasoned : UserDoc :=
  mkUserDoc (Some (Double.Finite 390)) (Some (Double.Finite 2)) (Some (Double.Finite 12)).

Definition pngFile : File := mkFile "image/png".
Definition pngDataUrl : string := "data:image/png;base64,aGVsbG8=".

Definition withImage : State unit :=
  mkState (Some pngFile) pngDataUrl (Some "aGVsbG8=") (Some "image/png") false None.

Definition noSyntaxError : string -> Error := fun _ => mkError (Some "SyntaxError").

Definition neverNull : unit -> bool := fun _ => false.

Definition samplePrompt : string := "Analyze the following image and solve the problem.".

(** No character of [s] is [c]. *)
Definition without (c : ascii) (s : string) : bool :=
  forallb (fun a => negb (Ascii.eqb a c)) (list_ascii_of_string s).

Definition backtick : ascii := "`"%char.
Definition comma : ascii := ","%char.

(** Accepts exactly one text. *)
Definition parsesOnly (good : string) : string -> option unit :=
  fun s => if String.eqb s good then Some tt else None.

End QuestionSolver.

(** ** Statements shared by the two schedulers *)

(** [x] is the first element of [l], in list order, that satisfies [P]. *)
Definition firstMatch {A : Type} (P : A -> Prop) (l : list A) (x : A) : Prop :=
  exists pre post,
    l = (pre ++ x :: post)%list /\ P x /\ forall y, In y pre -> ~ P y.

(** A whole number of seconds below [2^52]: differences of such numbers are
    doubles. *)
Definition wholeSeconds (x : Q) : Prop :=
  exists z : Z, (x == inject_Z z)%Q /\ (Z.abs z < 2 ^ 52)%Z.

(** C1 as the specification words it, for a check that activates
    [activates] when it samples position [P]: a question of the lesson
    becomes active exactly when it lies within 2 seconds of [P], no question
    is active and it has not been answered. *)
Definition activationAsSpecified (activates : option InteractiveQuestion)
    (qs : list InteractiveQuestion) (P : Q) (noneActive : bool)
    (answered : list string) : Prop :=
  forall Q0,
    In Q0 qs ->
    (activates = Some Q0
     <-> (Qabs (P - timestamp Q0) < 2)%Q /\ noneActive = true
         /\ ~ In (id Q0) answered).

(** ** Sample lesson *)

Definition qA : InteractiveQuestion := mkQuestion "a" 30 "2 + 2 = ?" ["3"; "4"] "4".
Definition qB : InteractiveQuestion := mkQuestion "b" 31 "3 + 3 = ?" ["6"; "9"] "6".
Definition qC : InteractiveQuestion := mkQuestion "c" 120 "5 - 2 = ?" ["3"; "7"] "3".

Definition sampleLesson : option LessonDetailPage.Lesson :=
  Some (LessonDetailPage.mkLesson (Some [qA; qB; qC])).

(** A lesson that opens with two questions, at 0 s and at 1 s. *)
Definition qIntro : InteractiveQuestion := mkQuestion "intro" 0 "1 + 1 = ?" ["2"; "3"] "2".
Definition qWarmup : InteractiveQuestion := mkQuestion "warmup" 1 "2 + 1 = ?" ["3"; "4"] "3".

Definition openingLesson : option LessonDetailPage.Lesson :=
  Some (LessonDetailPage.mkLesson (Some [qIntro; qWarmup])).

Definition sampleUser : option LessonDetailPage.UserData :=
  Some (LessonDetailPage.mkUserData "u1").

(** [qA] is on screen and the learner has picked the wrong option. *)
Definition wrongPick : LessonDetailPage.State :=
  LessonDetailPage.mkState (Some qA) true "3" false false "" 0 false.

Definition sampleEmbedUrl : string := "https://www.youtube.com/embed/dQw4w9WgXcQ".

(** A [toString] that is right on whole numbers. *)
Definition wholeToString (x : Double.number) : string :=
  match x with
  | Double.Finite q => VideoPlayer.decimal (Qfloor q)
  | Double.Infinity false => "Infinity"
  | Double.Infinity true => "-Infinity"
  | Double.NaN => "NaN"
  end.

(** A playing video, nothing answered yet. *)
Definition playing : VideoPlayer.State :=
  VideoPlayer.mkState true None [] true (Some sampleEmbedUrl).

(** The check has just put [qA] on screen. *)
Definition showingA : VideoPlayer.State :=
  VideoPlayer.mkState true (Some qA) [] false (Some sampleEmbedUrl).

(** A session on the page: the check fires near 30 s, then a marker is used. *)
Definition pageSession : list LessonDetailPage.Event :=
  [LessonDetailPage.Tick 30 false; LessonDetailPage.CloseModal;
   LessonDetailPage.Marker qC; LessonDetailPage.SelectAnswer "7"].

(** [qA] answered earlier, [qC] on screen. *)
Definition showingC : VideoPlayer.State :=
  VideoPlayer.mkState true (Some qC) ["a"] false (Some sampleEmbedUrl).

(** * Properties of double arithmetic *)

Module DoubleFacts.
Import Double.
Local Open Scope Q_scope.

(** ** Powers of two *)

Lemma Qltb_spec (a b : Q) : Qltb a b = true <-> (a < b)%Q.
Proof.
  unfold Qltb. rewrite negb_true_iff. split.
  - intros H. apply Qnot_le_lt. intros Hle.
    apply Qle_bool_iff in Hle. congruence.
  - intros Hlt. destruct (Qle_bool b a) eqn:E; [|reflexivity].
    apply Qle_bool_iff in E. exfalso. exact (Qlt_not_le _ _ Hlt E).
Qed.

Lemma round_morph (x y : Q) : (x == y)%Q -> round x = round y.
Proof. intros H. unfold round. rewrite (Qred_complete x y H). reflexivity. Qed.

Lemma pow2_pos (e : Z) : (0 < pow2 e)%Q.
Proof. apply Qpower_0_lt. reflexivity. Qed.

Lemma pow2_add (a b : Z) : (pow2 (a + b) == pow2 a * pow2 b)%Q.
Proof. apply Qpower_plus. intros H. discriminate H. Qed.

Lemma pow2_opp (a : Z) : (pow2 (- a) == / pow2 a)%Q.
Proof. apply Qpower_opp. Qed.

Lemma pow2_Z (a : Z) : (0 <= a)%Z -> (pow2 a == inject_Z (2 ^ a))%Q.
Proof. intros H. unfold pow2. rewrite Zpower_Qpower by exact H. reflexivity. Qed.

Lemma pow2_le (a b : Z) : (a <= b)%Z -> (pow2 a <= pow2 b)%Q.
Proof. intros H. apply Qpower_le_compat_l; [exact H|]. discriminate. Qed.

Lemma pow2_lt_inv (a b : Z) : (pow2 a < pow2 b)%Q -> (a < b)%Z.
Proof. intros H. apply (Qpower_lt_compat_l_inv 2); [exact H|reflexivity]. Qed.

Lemma pow2_inv_mul (a : Z) : (pow2 a * pow2 (- a) == 1)%Q.
Proof.
  rewrite <- pow2_add. replace (a + - a)%Z with 0%Z by lia. reflexivity.
Qed.

Lemma ilog2_spec (x : Q) :
  (0 < x)%Q -> (pow2 (ilog2 x) <= x < pow2 (ilog2 x + 1))%Q.
Proof.
  intros Hx. destruct x as [n d].
  assert (Hn : (0 < n)%Z).
  { unfold Qlt in Hx. cbn in Hx. lia. }
  pose proof (Z.log2_spec n Hn) as [Hn1 Hn2].
  pose proof (Z.log2_spec (Zpos d) (Pos2Z.is_pos d)) as [Hd1 Hd2].
  pose proof (Z.log2_nonneg n) as Ha. pose proof (Z.log2_nonneg (Zpos d)) as Hb.
  set (a := Z.log2 n) in *. set (b := Z.log2 (Zpos d)) in *.
  assert (HxD : (n # d) * inject_Z (Zpos d) == inject_Z n).
  { unfold Qeq, Qmult, inject_Z. cbn. rewrite Pos.mul_1_r. ring. }
  assert (HD : 0 < inject_Z (Zpos d)) by reflexivity.
  assert (HN1 : pow2 a <= inject_Z n).
  { rewrite pow2_Z by exact Ha. rewrite <- Zle_Qle. exact Hn1. }
  assert (HN2 : inject_Z n < pow2 (a + 1)).
  { rewrite pow2_Z by lia. rewrite <- Zlt_Qlt. exact Hn2. }
  assert (HD1 : pow2 b <= inject_Z (Zpos d)).
  { rewrite pow2_Z by exact Hb. rewrite <- Zle_Qle. exact Hd1. }
  assert (HD2 : inject_Z (Zpos d) < pow2 (b + 1)).
  { rewrite pow2_Z by lia. rewrite <- Zlt_Qlt. exact Hd2. }
  assert (Hup : pow2 (a - b + 1) * pow2 b == pow2 (a + 1)).
  { rewrite <- pow2_add. replace (a - b + 1 + b)%Z with (a + 1)%Z by lia. reflexivity. }
  assert (Hlo : pow2 (a - b - 1) * pow2 (b + 1) == pow2 a).
  { rewrite <- pow2_add. replace (a - b - 1 + (b + 1))%Z with a by lia. reflexivity. }
  pose proof (pow2_pos (a - b + 1)) as HT. pose proof (pow2_pos (a - b - 1)) as HL.
  pose proof (pow2_pos b) as HB. pose proof (pow2_pos (b + 1)) as HB1.
  assert (Hlt : (n # d) < pow2 (a - b + 1)).
  { set (x := n # d) in *. set (D := inject_Z (Zpos d)) in *. set (N := inject_Z n) in *.
    set (T := pow2 (a - b + 1)) in *. set (B := pow2 b) in *.
    set (A1 := pow2 (a + 1)) in *.
    clearbody x D N T B A1. nra. }
  assert (Hgt : pow2 (a - b - 1) < (n # d)).
  { set (x := n # d) in *. set (D := inject_Z (Zpos d)) in *. set (N := inject_Z n) in *.
    set (L := pow2 (a - b - 1)) in *. set (B1 := pow2 (b + 1)) in *.
    set (A0 := pow2 a) in *.
    clearbody x D N L B1 A0. nra. }
  unfold ilog2. cbn [Qnum Qden]. fold a b.
  destruct (Qle_bool (pow2 (a - b)) (n # d)) eqn:E.
  - apply Qle_bool_iff in E. split; [exact E|exact Hlt].
  - split.
    + apply Qlt_le_weak. exact Hgt.
    + replace (a - b - 1 + 1)%Z with (a - b)%Z by lia.
      apply Qnot_le_lt. intros H. apply Qle_bool_iff in H. congruence.
Qed.

Lemma roundHalfEven_cases (x : Q) :
  (roundHalfEven x = Qfloor x /\ x - inject_Z (Qfloor x) <= 1 # 2)
  \/ (roundHalfEven x = (Qfloor x + 1)%Z /\ 1 # 2 <= x - inject_Z (Qfloor x)).
Proof.
  unfold roundHalfEven.
  destruct (x - inject_Z (Qfloor x) ?= 1 # 2) eqn:E.
  - apply Qeq_alt in E.
    destruct (Z.even (Qfloor x)); [left|right]; (split; [reflexivity|]);
      rewrite E; apply Qle_refl.
  - apply Qlt_alt in E. left. split; [reflexivity|apply Qlt_le_weak, E].
  - apply Qgt_alt in E. right. split; [reflexivity|apply Qlt_le_weak, E].
Qed.

Lemma roundHalfEven_lower (x : Q) (A : Z) :
  inject_Z A <= x -> (A <= roundHalfEven x)%Z.
Proof.
  intros H. apply Qfloor_resp_le in H. rewrite Qfloor_Z in H.
  destruct (roundHalfEven_cases x) as [[-> _]|[-> _]]; lia.
Qed.

Lemma roundHalfEven_upper (x : Q) (B : Z) :
  x < inject_Z B - (1 # 2) -> (roundHalfEven x < B)%Z.
Proof.
  intros H. pose proof (Qfloor_le x) as Hf.
  destruct (roundHalfEven_cases x) as [[-> _]|[-> Hr]]; rewrite Zlt_Qlt.
  - set (F := inject_Z (Qfloor x)) in *. set (b := inject_Z B) in *.
    clearbody F b. lra.
  - rewrite inject_Z_plus. change (inject_Z 1) with 1.
    set (F := inject_Z (Qfloor x)) in *. set (b := inject_Z B) in *.
    clearbody F b. lra.
Qed.

Lemma roundHalfEven_whole (x : Q) (z : Z) : x == inject_Z z -> roundHalfEven x = z.
Proof.
  intros H. apply Z.le_antisymm.
  - apply Z.lt_succ_r. apply roundHalfEven_upper.
    unfold Z.succ. rewrite inject_Z_plus. change (inject_Z 1) with 1.
    set (b := inject_Z z) in *. clearbody b. lra.
  - apply roundHalfEven_lower. rewrite H. apply Qle_refl.
Qed.

(** The quantum of a number below [2^E] is at most [2^(E-53)]. *)
Lemma quantum_spec (a : Q) :
  0 < a ->
  exists ex : Z,
    quantum a = pow2 ex
    /\ (-1074 <= ex)%Z
    /\ forall E : Z, (-1021 <= E)%Z -> a < pow2 E -> (ex <= E - 53)%Z.
Proof.
  intros Ha. exists (Z.max (ilog2 a - 52) (-1074)).
  split; [reflexivity|]. split; [lia|].
  intros E HE Hlt.
  destruct (ilog2_spec a Ha) as [Hlo _].
  assert (ilog2 a < E)%Z.
  { apply pow2_lt_inv. apply (Qle_lt_trans _ a); assumption. }
  lia.
Qed.

(** A number that is a multiple of its quantum is not moved. *)
Lemma nearest_exact (a : Q) (m : Z) :
  a / quantum a == inject_Z m -> nearest a == a.
Proof.
  intros H. unfold nearest. rewrite (roundHalfEven_whole _ _ H), <- H.
  field. intros H0. pose proof (pow2_pos (Z.max (ilog2 a - 52) (-1074))) as Hp.
  unfold quantum in H0. rewrite H0 in Hp. discriminate Hp.
Qed.

(** A number at a distance of more than half its quantum below the next
    whole number is rounded to something with the same floor. *)
Lemma nearest_floor (a delta : Q) (k E : Z) :
  0 < a -> (-1021 <= E <= 52)%Z -> a < pow2 E ->
  inject_Z k <= a -> a <= inject_Z k + 1 - delta ->
  pow2 (E - 54) < delta ->
  inject_Z k <= nearest a < inject_Z k + 1.
Proof.
  intros Ha HE HaE Hlo Hhi Hdelta.
  destruct (quantum_spec a Ha) as (ex & Hq & Hex & Hbound).
  specialize (Hbound E ltac:(lia) HaE).
  unfold nearest. rewrite Hq.
  set (P := (2 ^ (- ex))%Z).
  assert (HP : pow2 (- ex) == inject_Z P) by (apply pow2_Z; lia).
  assert (Hinv : pow2 ex * inject_Z P == 1) by (rewrite <- HP; apply pow2_inv_mul).
  pose proof (pow2_pos ex) as Hs.
  assert (HPpos : 0 < inject_Z P) by (rewrite <- HP; apply pow2_pos).
  assert (Hscaled : a / pow2 ex == a * inject_Z P).
  { rewrite <- HP, pow2_opp. reflexivity. }
  assert (Hhalf : pow2 ex <= 2 * pow2 (E - 54)).
  { change 2 with (pow2 1) at 1. rewrite <- pow2_add. apply pow2_le. lia. }
  assert (HN1 : (k * P <= roundHalfEven (a / pow2 ex))%Z).
  { apply roundHalfEven_lower. rewrite Hscaled, inject_Z_mult.
    set (K := inject_Z k) in *. set (p := inject_Z P) in *. clearbody K p. nra. }
  assert (HN2 : (roundHalfEven (a / pow2 ex) < (k + 1) * P)%Z).
  { apply roundHalfEven_upper. rewrite Hscaled, inject_Z_mult, inject_Z_plus.
    change (inject_Z 1) with 1.
    set (K := inject_Z k) in *. set (p := inject_Z P) in *.
    set (s := pow2 ex) in *. set (h := pow2 (E - 54)) in *.
    clearbody K p s h.
    assert (Hdp : 1 # 2 < delta * p) by nra.
    nra. }
  set (N := roundHalfEven (a / pow2 ex)) in *. clearbody N.
  assert (HN2' : (N <= (k + 1) * P - 1)%Z) by lia.
  rewrite Zle_Qle in HN1, HN2'.
  rewrite inject_Z_mult in HN1.
  unfold Z.sub in HN2'. rewrite inject_Z_plus, inject_Z_mult, inject_Z_plus in HN2'.
  change (inject_Z 1) with 1 in HN2'. change (inject_Z (- (1))) with (- (1)) in HN2'.
  set (K := inject_Z k) in *. set (p := inject_Z P) in *.
  set (s := pow2 ex) in *. set (n := inject_Z N) in *.
  clearbody K p s n. split; nra.
Qed.

Lemma Qred_inject_Z (z : Z) : Qred (inject_Z z) = inject_Z z.
Proof.
  unfold Qred, inject_Z.
  pose proof (Z.ggcd_gcd z 1) as Hg.
  pose proof (Z.ggcd_correct_divisors z 1) as Hd.
  destruct (Z.ggcd z 1) as [g [aa bb]]. cbn [fst snd] in *.
  rewrite Z.gcd_1_r in Hg. subst g. destruct Hd as [H1 H2].
  rewrite Z.mul_1_l in H1, H2. subst aa bb. reflexivity.
Qed.

Lemma pow2_53_lt_1024 : pow2 53 < pow2 1024.
Proof. apply Qpower_lt_compat_l; [lia|reflexivity]. Qed.

(** Below [2^53] every whole number is a double. *)
Lemma round_whole (x : Q) (z : Z) :
  x == inject_Z z -> (Z.abs z < 2 ^ 53)%Z -> round x = Finite (inject_Z z).
Proof.
  intros Hx Hz. rewrite (round_morph x (inject_Z z) Hx).
  unfold round. rewrite Qred_inject_Z.
  destruct (Qeq_bool (inject_Z z) 0) eqn:E0.
  - apply Qeq_bool_iff in E0. unfold Qeq in E0. cbn in E0.
    rewrite Z.mul_1_r in E0. subst z. reflexivity.
  - assert (Hz0 : z <> 0%Z).
    { intros ->. discriminate E0. }
    change (Qabs (inject_Z z)) with (inject_Z (Z.abs z)).
    set (a := inject_Z (Z.abs z)).
    assert (Ha1 : 1 <= a).
    { unfold a. change 1 with (inject_Z 1). rewrite <- Zle_Qle. lia. }
    assert (Ha : 0 < a) by lra.
    assert (Ha53 : a < pow2 53).
    { unfold a. rewrite pow2_Z by lia. rewrite <- Zlt_Qlt. exact Hz. }
    destruct (ilog2_spec a Ha) as [Hlo Hhi].
    assert (He0 : (0 <= ilog2 a)%Z).
    { assert (H : (0 < ilog2 a + 1)%Z); [|lia].
      apply pow2_lt_inv. apply (Qle_lt_trans _ a); [exact Ha1|exact Hhi]. }
    assert (He1 : (ilog2 a <= 52)%Z).
    { assert (H : (ilog2 a < 53)%Z); [|lia].
      apply pow2_lt_inv. apply (Qle_lt_trans _ a); [exact Hlo|exact Ha53]. }
    assert (Hq : quantum a = pow2 (ilog2 a - 52)).
    { unfold quantum. f_equal. lia. }
    assert (Hnear : nearest a == a).
    { apply (nearest_exact a (Z.abs z * 2 ^ (52 - ilog2 a))).
      rewrite Hq, inject_Z_mult, <- pow2_Z by lia.
      replace (52 - ilog2 a)%Z with (- (ilog2 a - 52))%Z by lia.
      rewrite pow2_opp. reflexivity. }
    assert (Hfin : Qle_bool (pow2 1024) (nearest a) = false).
    { destruct (Qle_bool (pow2 1024) (nearest a)) eqn:E; [|reflexivity].
      apply Qle_bool_iff in E. rewrite Hnear in E.
      pose proof pow2_53_lt_1024. lra. }
    rewrite Hfin. f_equal.
    transitivity (Qred (inject_Z z)); [|apply Qred_inject_Z].
    apply Qred_complete.
    destruct (Qltb (inject_Z z) 0) eqn:Es; rewrite Hnear; unfold a.
    + apply Qltb_spec in Es. change 0 with (inject_Z 0) in Es.
      rewrite <- Zlt_Qlt in Es. rewrite Z.abs_neq by lia.
      rewrite inject_Z_opp. ring.
    + assert (Hnn : (0 <= z)%Z).
      { destruct (Z.ltb_spec z 0) as [Hneg|Hpos]; [|exact Hpos].
        exfalso. assert (Hlt : Qltb (inject_Z z) 0 = true).
        { apply Qltb_spec. change 0 with (inject_Z 0). rewrite <- Zlt_Qlt. exact Hneg. }
        congruence. }
      rewrite Z.abs_eq by exact Hnn. reflexivity.
Qed.

(** The floor of a rounded quotient of whole numbers is the whole quotient,
    as long as half a quantum of the quotient is less than [1/c]. *)
Lemma floor_div_whole (x y : Q) (n c E : Z) :
  x == inject_Z n -> y == inject_Z c ->
  (0 <= n)%Z -> (0 < c)%Z -> (0 <= E <= 52)%Z ->
  (n < c * 2 ^ E)%Z -> (c * 2 ^ E < 2 ^ 54)%Z ->
  floor (div (Finite x) (Finite y)) = Finite (inject_Z (n / c)).
Proof.
  intros Hx Hy Hn Hc HE HnE HcE.
  assert (HcQ : 0 < inject_Z c).
  { change 0 with (inject_Z 0). rewrite <- Zlt_Qlt. exact Hc. }
  cbn [div].
  assert (Hy0 : Qeq_bool y 0 = false).
  { destruct (Qeq_bool y 0) eqn:E0; [|reflexivity].
    apply Qeq_bool_iff in E0. rewrite Hy in E0. rewrite E0 in HcQ. discriminate HcQ. }
  rewrite Hy0.
  assert (Hxy : x / y == inject_Z n / inject_Z c).
  { rewrite Hx, Hy. reflexivity. }
  rewrite (round_morph _ _ Hxy).
  set (k := (n / c)%Z).
  pose proof (Z.div_mod n c ltac:(lia)) as Hdm.
  pose proof (Z.mod_pos_bound n c Hc) as Hmod.
  fold k in Hdm. set (r := (n mod c)%Z) in *.
  assert (HnQ : inject_Z n == inject_Z c * inject_Z k + inject_Z r).
  { rewrite Hdm, inject_Z_plus, inject_Z_mult. reflexivity. }
  assert (Hr0 : 0 <= inject_Z r).
  { change 0 with (inject_Z 0). rewrite <- Zle_Qle. lia. }
  assert (Hr1 : inject_Z r <= inject_Z c - 1).
  { assert (H : inject_Z (r + 1) <= inject_Z c) by (rewrite <- Zle_Qle; lia).
    rewrite inject_Z_plus in H. change (inject_Z 1) with 1 in H.
    set (R := inject_Z r) in *. set (C := inject_Z c) in *. clearbody R C. lra. }
  set (q := inject_Z n / inject_Z c).
  assert (Hq : q * inject_Z c == inject_Z n).
  { unfold q. field. intros H0. rewrite H0 in HcQ. discriminate HcQ. }
  assert (Hqlo : inject_Z k <= q).
  { set (C := inject_Z c) in *. set (K := inject_Z k) in *. set (R := inject_Z r) in *.
    set (N := inject_Z n) in *. clearbody C K R N q. nra. }
  assert (Hqhi : q <= inject_Z k + 1 - / inject_Z c).
  { assert (Hinv : / inject_Z c * inject_Z c == 1).
    { field. intros H0. rewrite H0 in HcQ. discriminate HcQ. }
    assert (Hipos : 0 < / inject_Z c) by (apply Qinv_lt_0_compat, HcQ).
    set (C := inject_Z c) in *. set (K := inject_Z k) in *. set (R := inject_Z r) in *.
    set (N := inject_Z n) in *. set (I := / C) in *. clearbody C K R N q I. nra. }
  unfold round.
  destruct (Z.eq_dec n 0) as [Hn0|Hn0].
  - assert (Hq0 : Qred q = 0).
    { change 0 with (Qred 0). apply Qred_complete. unfold q. rewrite Hn0. reflexivity. }
    rewrite Hq0. cbn [Qeq_bool]. unfold k. rewrite Hn0. reflexivity.
  - assert (Hqpos : 0 < q).
    { assert (HnQ0 : 0 < inject_Z n).
      { change 0 with (inject_Z 0). rewrite <- Zlt_Qlt. lia. }
      set (C := inject_Z c) in *. set (N := inject_Z n) in *. clearbody C N q. nra. }
    pose proof (Qred_correct q) as Hred.
    set (q' := Qred q) in *.
    assert (Hq'0 : Qeq_bool q' 0 = false).
    { destruct (Qeq_bool q' 0) eqn:E0; [|reflexivity].
      apply Qeq_bool_iff in E0. rewrite E0 in Hred. rewrite <- Hred in Hqpos.
      discriminate Hqpos. }
    rewrite Hq'0.
    assert (Habs : Qabs q' == q).
    { rewrite Qabs_pos; [exact Hred|]. rewrite Hred. apply Qlt_le_weak, Hqpos. }
    assert (Hneg : Qltb q' 0 = false).
    { destruct (Qltb q' 0) eqn:Es; [|reflexivity].
      apply Qltb_spec in Es. rewrite Hred in Es. lra. }
    rewrite Hneg.
    set (a := Qabs q') in *.
    assert (HaE : a < pow2 E).
    { rewrite Habs. rewrite pow2_Z by lia.
      assert (HnE' : inject_Z n < inject_Z c * inject_Z (2 ^ E)).
      { rewrite <- inject_Z_mult, <- Zlt_Qlt. exact HnE. }
      set (C := inject_Z c) in *. set (N := inject_Z n) in *.
      set (T := inject_Z (2 ^ E)) in *. clearbody C N T q. nra. }
    assert (Hdelta : pow2 (E - 54) < / inject_Z c).
    { assert (Hinv : / inject_Z c * inject_Z c == 1).
      { field. intros H0. rewrite H0 in HcQ. discriminate HcQ. }
      assert (Hp : pow2 (E - 54) * pow2 54 == pow2 E).
      { rewrite <- pow2_add. replace (E - 54 + 54)%Z with E by lia. reflexivity. }
      assert (HcE' : inject_Z c * pow2 E < pow2 54).
      { rewrite !pow2_Z by lia. rewrite <- inject_Z_mult, <- Zlt_Qlt. exact HcE. }
      pose proof (pow2_pos (E - 54)) as Hp1. pose proof (pow2_pos 54) as Hp2.
      pose proof (pow2_pos E) as Hp3.
      assert (Hipos : 0 < / inject_Z c) by (apply Qinv_lt_0_compat, HcQ).
      set (C := inject_Z c) in *. set (I := / C) in *.
      set (u := pow2 (E - 54)) in *. set (v := pow2 54) in *. set (w := pow2 E) in *.
      clearbody C I u v w.
      assert (H1 : C * u * v < v) by nra.
      assert (H2 : C * u < 1) by nra.
      nra. }
    destruct (nearest_floor a (/ inject_Z c) k E) as [Hlo Hhi].
    + rewrite Habs. exact Hqpos.
    + lia.
    + exact HaE.
    + rewrite Habs. exact Hqlo.
    + rewrite Habs. exact Hqhi.
    + exact Hdelta.
    + assert (Hfin : Qle_bool (pow2 1024) (nearest a) = false).
      { destruct (Qle_bool (pow2 1024) (nearest a)) eqn:Eo; [|reflexivity].
        apply Qle_bool_iff in Eo.
        assert (Hk : inject_Z k + 1 <= pow2 53).
        { rewrite pow2_Z by lia. change 1 with (inject_Z 1).
          rewrite <- inject_Z_plus, <- Zle_Qle.
          assert (k < 2 ^ E)%Z by (apply Z.div_lt_upper_bound; lia).
          assert (2 ^ E <= 2 ^ 52)%Z by (apply Z.pow_le_mono_r; lia).
          change (2 ^ 53)%Z with (2 * 2 ^ 52)%Z. lia. }
        pose proof pow2_53_lt_1024. lra. }
      rewrite Hfin. cbn [floor]. f_equal. f_equal.
      apply Z.le_antisymm.
      * apply Z.lt_succ_r. unfold Z.succ. rewrite Zlt_Qlt, inject_Z_plus.
        change (inject_Z 1) with 1.
        apply (Qle_lt_trans _ (Qred (nearest a))); [apply Qfloor_le|].
        rewrite Qred_correct. exact Hhi.
      * rewrite <- (Qfloor_Z k). apply Qfloor_resp_le.
        rewrite Qred_correct. exact Hlo.
Qed.

Lemma Qfloor_unique (x : Q) (k : Z) :
  (inject_Z k <= x)%Q -> (x < inject_Z k + 1)%Q -> Qfloor x = k.
Proof.
  intros Hlo Hhi.
  pose proof (Qfloor_le x) as Hf1. pose proof (Qlt_floor x) as Hf2.
  rewrite inject_Z_plus in Hf2. change (inject_Z 1) with 1%Q in Hf2.
  apply Z.le_antisymm.
  - apply Z.lt_succ_r. unfold Z.succ. rewrite Zlt_Qlt, inject_Z_plus.
    change (inject_Z 1) with 1%Q.
    set (F := inject_Z (Qfloor x)) in *. set (K := inject_Z k) in *.
    clearbody F K. lra.
  - apply Z.lt_succ_r. unfold Z.succ. rewrite Zlt_Qlt, inject_Z_plus.
    change (inject_Z 1) with 1%Q.
    set (F := inject_Z (Qfloor x)) in *. set (K := inject_Z k) in *.
    clearbody F K. lra.
Qed.

(** The rounding of a positive number, once its nearest multiple of the
    quantum is known to lie in [[k, k+1)] below [2^53]. *)
Lemma floor_round_between (q : Q) (k : Z) :
  0 < q ->
  inject_Z k <= nearest (Qabs (Qred q)) < inject_Z k + 1 ->
  (k < 2 ^ 53)%Z ->
  floor (round q) = Finite (inject_Z k).
Proof.
  intros Hq [Hlo Hhi] Hk.
  pose proof (Qred_correct q) as Hred.
  unfold round. set (q' := Qred q) in *.
  assert (Hq'0 : Qeq_bool q' 0 = false).
  { destruct (Qeq_bool q' 0) eqn:E0; [|reflexivity].
    apply Qeq_bool_iff in E0. rewrite E0 in Hred. rewrite <- Hred in Hq.
    discriminate Hq. }
  assert (Hneg : Qltb q' 0 = false).
  { destruct (Qltb q' 0) eqn:Es; [|reflexivity].
    apply Qltb_spec in Es. rewrite Hred in Es. lra. }
  rewrite Hq'0, Hneg.
  assert (Hfin : Qle_bool (pow2 1024) (nearest (Qabs q')) = false).
  { destruct (Qle_bool (pow2 1024) (nearest (Qabs q'))) eqn:Eo; [|reflexivity].
    apply Qle_bool_iff in Eo.
    assert (Hk' : inject_Z k + 1 <= pow2 53).
    { rewrite pow2_Z by lia. change 1 with (inject_Z 1).
      rewrite <- inject_Z_plus, <- Zle_Qle. lia. }
    pose proof pow2_53_lt_1024. lra. }
  rewrite Hfin. cbn [floor]. f_equal. f_equal.
  apply Qfloor_unique; rewrite Qred_correct; assumption.
Qed.

(** A double is a multiple of its quantum. *)
Lemma isDouble_multiple (x : Q) :
  isDouble x -> 0 < x ->
  exists N : Z, x == inject_Z N * quantum (Qabs (Qred x)).
Proof.
  unfold isDouble, round. intros H Hx.
  pose proof (Qred_correct x) as Hred. set (x' := Qred x) in *.
  assert (Hx'0 : Qeq_bool x' 0 = false).
  { destruct (Qeq_bool x' 0) eqn:E0; [|reflexivity].
    apply Qeq_bool_iff in E0. rewrite E0 in Hred. rewrite <- Hred in Hx.
    discriminate Hx. }
  assert (Hneg : Qltb x' 0 = false).
  { destruct (Qltb x' 0) eqn:Es; [|reflexivity].
    apply Qltb_spec in Es. rewrite Hred in Es. lra. }
  rewrite Hx'0, Hneg in H.
  destruct (Qle_bool (pow2 1024) (nearest (Qabs x'))); [destruct H|].
  cbn [valueIs] in H. rewrite Qred_correct in H.
  eexists. symmetry. exact H.
Qed.

Lemma floor_div_double (x y : Q) (c : Z) :
  isDouble x -> y == inject_Z c ->
  (2 <= c < 2 ^ 10)%Z -> 0 <= x -> x < pow2 53 ->
  floor (div (Finite x) (Finite y)) = Finite (inject_Z (Qfloor x / c)).
Proof.
  intros Hdbl Hy Hc Hx0 Hx53.
  assert (HcQ : 2 <= inject_Z c).
  { change 2 with (inject_Z 2). rewrite <- Zle_Qle. lia. }
  cbn [div].
  assert (Hy0 : Qeq_bool y 0 = false).
  { destruct (Qeq_bool y 0) eqn:E0; [|reflexivity].
    apply Qeq_bool_iff in E0. rewrite Hy in E0. rewrite E0 in HcQ. lra. }
  rewrite Hy0.
  assert (Hxy : x / y == x / inject_Z c) by (rewrite Hy; reflexivity).
  rewrite (round_morph _ _ Hxy).
  set (f := Qfloor x).
  pose proof (Qfloor_le x) as Hf1. pose proof (Qlt_floor x) as Hf2.
  rewrite inject_Z_plus in Hf2. change (inject_Z 1) with 1 in Hf2. fold f in Hf1, Hf2.
  assert (Hf0 : (0 <= f)%Z).
  { unfold f. change 0%Z with (Qfloor 0). apply Qfloor_resp_le, Hx0. }
  assert (Hf53 : (f < 2 ^ 53)%Z).
  { rewrite Zlt_Qlt, <- pow2_Z by lia. apply (Qle_lt_trans _ x); assumption. }
  set (k := (f / c)%Z).
  pose proof (Z.div_mod f c ltac:(lia)) as Hdm.
  pose proof (Z.mod_pos_bound f c ltac:(lia)) as Hmod.
  fold k in Hdm. set (r := (f mod c)%Z) in *.
  assert (Hk0 : (0 <= k)%Z) by (apply Z.div_pos; lia).
  assert (Hk53 : (k < 2 ^ 53)%Z).
  { assert (k <= f)%Z; [|lia]. apply Z.div_le_upper_bound; nia. }
  assert (HfQ : inject_Z f == inject_Z c * inject_Z k + inject_Z r).
  { rewrite Hdm, inject_Z_plus, inject_Z_mult. reflexivity. }
  assert (Hr0 : 0 <= inject_Z r).
  { change 0 with (inject_Z 0). rewrite <- Zle_Qle. lia. }
  assert (Hr1 : inject_Z r + 1 <= inject_Z c).
  { change 1 with (inject_Z 1). rewrite <- inject_Z_plus, <- Zle_Qle. lia. }
  set (q := x / inject_Z c).
  assert (Hq : q * inject_Z c == x).
  { unfold q. field. intros H0. rewrite H0 in HcQ. lra. }
  destruct (Qeq_dec x 0) as [Hz|Hnz].
  - assert (Hq0 : Qred q = 0).
    { change 0 with (Qred 0). apply Qred_complete. unfold q. rewrite Hz. reflexivity. }
    unfold round. rewrite Hq0. cbn [Qeq_bool floor].
    assert (Hk : k = 0%Z).
    { unfold k, f. rewrite Hz. reflexivity. }
    rewrite Hk. reflexivity.
  - assert (Hxpos : 0 < x).
    { destruct (Qlt_le_dec 0 x) as [H|H]; [exact H|].
      exfalso. apply Hnz. apply Qle_antisym; assumption. }
    assert (Hqpos : 0 < q).
    { set (C := inject_Z c) in *. clearbody C q. nra. }
    pose proof (Qred_correct q) as Hredq.
    assert (Ha : Qabs (Qred q) == q).
    { rewrite Qabs_pos; [exact Hredq|]. rewrite Hredq. apply Qlt_le_weak, Hqpos. }
    apply floor_round_between; [exact Hqpos| |exact Hk53].
    set (a := Qabs (Qred q)) in *.
    destruct (Qlt_le_dec x 1) as [Hsmall|Hbig].
    + (* below one second the quotient is below one half *)
      assert (Hk : k = 0%Z).
      { unfold k. replace f with 0%Z; [reflexivity|].
        symmetry. apply Qfloor_unique; [exact Hx0|]. change (inject_Z 0) with 0. lra. }
      rewrite Hk. change (inject_Z 0) with 0.
      apply (nearest_floor a (1 # 2) 0 0).
      * rewrite Ha. exact Hqpos.
      * lia.
      * rewrite Ha. change (pow2 0) with 1.
        set (C := inject_Z c) in *. clearbody C q. nra.
      * rewrite Ha. change (inject_Z 0) with 0. apply Qlt_le_weak, Hqpos.
      * rewrite Ha. change (inject_Z 0) with 0.
        set (C := inject_Z c) in *. clearbody C q. nra.
      * reflexivity.
    + (* from one second on, the gap to the next multiple of [c] is at least
         one quantum of [x] *)
      destruct (isDouble_multiple x Hdbl Hxpos) as (N & HN).
      pose proof (Qred_correct x) as Hredx.
      assert (Hax : Qabs (Qred x) == x).
      { rewrite Qabs_pos; [exact Hredx|]. rewrite Hredx. exact Hx0. }
      set (ax := Qabs (Qred x)) in *.
      assert (Haxpos : 0 < ax) by (rewrite Hax; exact Hxpos).
      destruct (ilog2_spec ax Haxpos) as [Hlo Hhi].
      set (e := ilog2 ax) in *.
      assert (He0 : (0 <= e)%Z).
      { assert (H : (0 < e + 1)%Z); [|lia]. apply pow2_lt_inv.
        change (pow2 0) with 1. apply (Qle_lt_trans _ ax); [rewrite Hax; exact Hbig|exact Hhi]. }
      assert (He1 : (e <= 52)%Z).
      { assert (H : (e < 53)%Z); [|lia]. apply pow2_lt_inv.
        apply (Qle_lt_trans _ ax); [exact Hlo|rewrite Hax; exact Hx53]. }
      assert (Hqx : quantum ax = pow2 (e - 52)).
      { unfold quantum. fold e. f_equal. lia. }
      rewrite Hqx in HN.
      pose proof (Z.log2_spec c ltac:(lia)) as [Hj1 Hj2].
      pose proof (Z.log2_nonneg c) as Hj0.
      set (j := Z.log2 c) in *.
      assert (Hj : (1 <= j <= 9)%Z).
      { split.
        - assert (H : (0 < j)%Z); [|lia].
          destruct (Z.eq_dec j 0) as [E|E]; [|lia]. rewrite E in Hj2. cbn in Hj2. lia.
        - assert (H : (j < 10)%Z); [|lia].
          apply (Z.pow_lt_mono_r_iff 2); [lia|lia|]. lia. }
      assert (HcLo : pow2 j <= inject_Z c).
      { rewrite pow2_Z by lia. rewrite <- Zle_Qle. exact Hj1. }
      assert (HcHi : inject_Z c < pow2 (j + 1)).
      { rewrite pow2_Z by lia. rewrite <- Zlt_Qlt. exact Hj2. }
      (* the gap *)
      set (P := (2 ^ (52 - e))%Z).
      assert (HP : pow2 (52 - e) == inject_Z P) by (apply pow2_Z; lia).
      assert (Hinv : pow2 (e - 52) * inject_Z P == 1).
      { rewrite <- HP. replace (52 - e)%Z with (- (e - 52))%Z by lia.
        apply pow2_inv_mul. }
      pose proof (pow2_pos (e - 52)) as Hs.
      assert (HPpos : 0 < inject_Z P) by (rewrite <- HP; apply pow2_pos).
      assert (HxP : x * inject_Z P == inject_Z N).
      { rewrite HN.
        set (s := pow2 (e - 52)) in *. set (p := inject_Z P) in *.
        set (n := inject_Z N) in *. clearbody s p n.
        transitivity (n * (s * p)); [ring|]. rewrite Hinv. ring. }
      assert (Hgap : (N + 1 <= c * (k + 1) * P)%Z).
      { assert (H : (N < c * (k + 1) * P)%Z); [|lia].
        rewrite Zlt_Qlt, <- HxP, !inject_Z_mult, inject_Z_plus.
        change (inject_Z 1) with 1.
        set (C := inject_Z c) in *. set (K := inject_Z k) in *.
        set (R := inject_Z r) in *. set (F := inject_Z f) in *.
        set (p := inject_Z P) in *. clearbody C K R F p.
        assert (x < C * (K + 1)) by lra. nra. }
      rewrite Zle_Qle, inject_Z_plus, !inject_Z_mult, inject_Z_plus in Hgap.
      change (inject_Z 1) with 1 in Hgap. rewrite <- HxP in Hgap.
      set (delta := (inject_Z k + 1) - q).
      apply (nearest_floor a delta k (e + 1 - j)).
      * rewrite Ha. exact Hqpos.
      * lia.
      * rewrite Ha.
        assert (Hp : pow2 (e + 1 - j) * pow2 j == pow2 (e + 1)).
        { rewrite <- pow2_add. replace (e + 1 - j + j)%Z with (e + 1)%Z by lia. reflexivity. }
        pose proof (pow2_pos (e + 1 - j)) as Hp1. pose proof (pow2_pos j) as Hp2.
        rewrite Hax in Hhi.
        set (C := inject_Z c) in *. set (u := pow2 (e + 1 - j)) in *.
        set (v := pow2 j) in *. set (w := pow2 (e + 1)) in *.
        clearbody C u v w q. nra.
      * rewrite Ha.
        set (C := inject_Z c) in *. set (K := inject_Z k) in *.
        set (R := inject_Z r) in *. set (F := inject_Z f) in *.
        clearbody C K R F q. nra.
      * rewrite Ha. unfold delta. lra.
      * unfold delta.
        assert (Hp : pow2 (e + 1 - j - 54) * pow2 (j + 1) == pow2 (e - 52)).
        { rewrite <- pow2_add. replace (e + 1 - j - 54 + (j + 1))%Z with (e - 52)%Z by lia.
          reflexivity. }
        pose proof (pow2_pos (e + 1 - j - 54)) as Hp1. pose proof (pow2_pos (j + 1)) as Hp2.
        set (C := inject_Z c) in *. set (K := inject_Z k) in *.
        set (p := inject_Z P) in *. set (s := pow2 (e - 52)) in *.
        set (u := pow2 (e + 1 - j - 54)) in *. set (v := pow2 (j + 1)) in *.
        clearbody C K p s u v q.
        assert (Hg : s <= C * (K + 1) - x).
        { assert (H1 : s * p <= (C * (K + 1) - x) * p) by lra. nra. }
        assert (HC : C * (K + 1 - q) == C * (K + 1) - x) by lra.
        assert (H2 : u * C < u * v) by nra.
        assert (H3 : u * C < C * (K + 1 - q)) by lra.
        nra.
Qed.

(** A tie between an odd and an even integer goes to the even one. *)
Lemma roundHalfEven_half_up (x : Q) (B : Z) :
  Z.even B = true -> inject_Z B - (1 # 2) <= x -> (B <= roundHalfEven x)%Z.
Proof.
  intros Heven Hx.
  destruct (Qlt_le_dec x (inject_Z B)) as [Hlt|Hge];
    [|apply roundHalfEven_lower, Hge].
  assert (Hf : Qfloor x = (B - 1)%Z).
  { apply Qfloor_unique.
    - unfold Z.sub. rewrite inject_Z_plus. change (inject_Z (- (1))) with (- (1)).
      set (b := inject_Z B) in *. clearbody b. lra.
    - unfold Z.sub. rewrite inject_Z_plus. change (inject_Z (- (1))) with (- (1)).
      set (b := inject_Z B) in *. clearbody b. lra. }
  unfold roundHalfEven. rewrite Hf.
  assert (Hodd : Z.even (B - 1) = false).
  { rewrite Z.even_sub, Heven. reflexivity. }
  rewrite Hodd.
  destruct (x - inject_Z (B - 1) ?= 1 # 2) eqn:E; try lia.
  apply Qlt_alt in E. exfalso.
  unfold Z.sub in E. rewrite inject_Z_plus in E.
  change (inject_Z (- (1))) with (- (1)) in E.
  set (b := inject_Z B) in *. clearbody b. lra.
Qed.

(** Rounding does not go below the power of two under a normal number. *)
Lemma nearest_lower (a : Q) :
  0 < a -> (-1074 <= ilog2 a)%Z -> pow2 (ilog2 a) <= nearest a.
Proof.
  intros Ha He. destruct (ilog2_spec a Ha) as [Hlo _].
  unfold nearest, quantum.
  set (e := ilog2 a) in *. set (ex := Z.max (e - 52) (-1074)).
  assert (Hd : (0 <= e - ex)%Z) by lia.
  pose proof (pow2_pos ex) as Hs.
  assert (Hp : pow2 (e - ex) * pow2 ex == pow2 e).
  { rewrite <- pow2_add. replace (e - ex + ex)%Z with e by lia. reflexivity. }
  assert (HA : (2 ^ (e - ex) <= roundHalfEven (a / pow2 ex))%Z).
  { apply roundHalfEven_lower. rewrite <- pow2_Z by exact Hd.
    apply Qle_shift_div_l; [exact Hs|]. rewrite Hp. exact Hlo. }
  rewrite Zle_Qle, <- pow2_Z in HA by exact Hd.
  set (n := inject_Z (roundHalfEven (a / pow2 ex))) in *.
  set (u := pow2 (e - ex)) in *. set (s := pow2 ex) in *. set (w := pow2 e) in *.
  clearbody n u s w. nra.
Qed.

Lemma nearest_nonneg (a : Q) : 0 < a -> 0 <= nearest a.
Proof.
  intros Ha. unfold nearest. apply Qmult_le_0_compat.
  - change 0 with (inject_Z 0). rewrite <- Zle_Qle.
    apply roundHalfEven_lower. change (inject_Z 0) with 0.
    apply Qle_shift_div_l; [apply pow2_pos|]. lra.
  - apply Qlt_le_weak, pow2_pos.
Qed.

(** Numbers up to half a quantum below 2 are rounded below 2 .. *)
Lemma nearest_below_two (a : Q) : 0 < a -> a < almostTwo -> nearest a < 2.
Proof.
  intros Ha Hlt. unfold almostTwo in Hlt.
  assert (Heps : 0 < 1 # 2 ^ 53) by reflexivity.
  destruct (quantum_spec a Ha) as (ex & Hq & Hex & Hbound).
  assert (Ha2 : a < pow2 1).
  { change (pow2 1) with 2. set (eps := 1 # 2 ^ 53) in *. clearbody eps. lra. }
  specialize (Hbound 1%Z ltac:(lia) Ha2).
  unfold nearest. rewrite Hq.
  set (P := (2 ^ (- ex))%Z).
  assert (HP : pow2 (- ex) == inject_Z P) by (apply pow2_Z; lia).
  assert (Hinv : pow2 ex * inject_Z P == 1) by (rewrite <- HP; apply pow2_inv_mul).
  pose proof (pow2_pos ex) as Hs.
  assert (HPpos : 0 < inject_Z P) by (rewrite <- HP; apply pow2_pos).
  assert (Hscaled : a / pow2 ex == a * inject_Z P).
  { rewrite <- HP, pow2_opp. reflexivity. }
  assert (HP52 : inject_Z (2 ^ 52) <= inject_Z P).
  { rewrite <- Zle_Qle. apply Z.pow_le_mono_r; lia. }
  assert (HN : (roundHalfEven (a / pow2 ex) < 2 * P)%Z).
  { apply roundHalfEven_upper. rewrite Hscaled, inject_Z_mult.
    change (inject_Z 2) with 2.
    assert (H52 : (1 # 2 ^ 53) * inject_Z (2 ^ 52) == 1 # 2) by reflexivity.
    set (p := inject_Z P) in *. set (t := inject_Z (2 ^ 52)) in *.
    set (eps := 1 # 2 ^ 53) in *. clearbody p t eps. nra. }
  assert (HN' : (roundHalfEven (a / pow2 ex) <= 2 * P - 1)%Z) by lia.
  rewrite Zle_Qle in HN'. unfold Z.sub in HN'.
  rewrite inject_Z_plus, inject_Z_mult in HN'.
  change (inject_Z 2) with 2 in HN'. change (inject_Z (- (1))) with (- (1)) in HN'.
  set (n := inject_Z (roundHalfEven (a / pow2 ex))) in *.
  set (p := inject_Z P) in *. set (s := pow2 ex) in *. clearbody n p s. nra.
Qed.

(** .. and numbers from there on are rounded to 2 or more. *)
Lemma nearest_from_two (a : Q) : almostTwo <= a -> 2 <= nearest a.
Proof.
  intros Hge. unfold almostTwo in Hge.
  assert (Heps : (1 # 2 ^ 53) <= 1) by (cbv; intros H; discriminate H).
  assert (Ha1 : 1 <= a).
  { set (eps := 1 # 2 ^ 53) in *. clearbody eps. lra. }
  assert (Ha : 0 < a) by lra.
  destruct (ilog2_spec a Ha) as [Hlo Hhi].
  assert (He0 : (0 <= ilog2 a)%Z).
  { assert (H : (0 < ilog2 a + 1)%Z); [|lia]. apply pow2_lt_inv.
    change (pow2 0) with 1. apply (Qle_lt_trans _ a); assumption. }
  destruct (Qlt_le_dec a 2) as [Hlt|Hbig].
  - assert (He : ilog2 a = 0%Z).
    { assert (H : (ilog2 a < 1)%Z); [|lia]. apply pow2_lt_inv.
      change (pow2 1) with 2. apply (Qle_lt_trans _ a); assumption. }
    unfold nearest, quantum. rewrite He. change (Z.max (0 - 52) (-1074)) with (-52)%Z.
    assert (HN : (2 ^ 53 <= roundHalfEven (a / pow2 (-52)))%Z).
    { apply roundHalfEven_half_up; [reflexivity|].
      assert (Hs : a / pow2 (-52) == a * inject_Z (2 ^ 52)).
      { change (pow2 (-52)) with (/ inject_Z (2 ^ 52)). field. discriminate. }
      rewrite Hs.
      assert (H53 : inject_Z (2 ^ 53) == 2 * inject_Z (2 ^ 52)) by reflexivity.
      assert (H52 : (1 # 2 ^ 53) * inject_Z (2 ^ 52) == 1 # 2) by reflexivity.
      assert (Hpos : 0 < inject_Z (2 ^ 52)) by reflexivity.
      set (t := inject_Z (2 ^ 52)) in *. set (u := inject_Z (2 ^ 53)) in *.
      set (eps := 1 # 2 ^ 53) in *. clearbody t u eps. nra. }
    rewrite Zle_Qle in HN.
    assert (H2 : inject_Z (2 ^ 53) * pow2 (-52) == 2) by reflexivity.
    assert (Hs : 0 < pow2 (-52)) by apply pow2_pos.
    set (n := inject_Z (roundHalfEven (a / pow2 (-52)))) in *.
    set (u := inject_Z (2 ^ 53)) in *. set (s := pow2 (-52)) in *.
    clearbody n u s. nra.
  - assert (He : (1 <= ilog2 a)%Z).
    { assert (H : (1 < ilog2 a + 1)%Z); [|lia]. apply pow2_lt_inv.
      change (pow2 1) with 2. apply (Qle_lt_trans _ a); assumption. }
    apply (Qle_trans _ (pow2 (ilog2 a))); [|apply nearest_lower; [exact Ha|lia]].
    change 2 with (pow2 1). apply pow2_le. exact He.
Qed.

(** The magnitude of a rounded difference is below 2 exactly when the
    difference is less than 2 by more than half a quantum. *)
Lemma sub_below_two (x y : Q) :
  ltb (abs (sub (Finite x) (Finite y))) (Finite 2) = true
  <-> Qabs (x - y) < almostTwo.
Proof.
  unfold sub. cbn [neg add].
  change (x + - y) with (x - y). set (d := x - y).
  pose proof (Qred_correct d) as Hred.
  assert (Habs : Qabs (Qred d) == Qabs d) by (rewrite Hred; reflexivity).
  unfold round. set (d' := Qred d) in *.
  destruct (Qeq_bool d' 0) eqn:E0.
  - apply Qeq_bool_iff in E0. cbn [abs ltb]. rewrite Qltb_spec.
    rewrite <- Habs, E0. split; intros _; reflexivity.
  - assert (Hpos : 0 < Qabs d').
    { destruct (Qlt_le_dec 0 (Qabs d')) as [H|H]; [exact H|].
      exfalso. pose proof (Qabs_nonneg d') as Hnn.
      assert (Hz : Qabs d' == 0) by (apply Qle_antisym; assumption).
      assert (Hd0 : d' == 0).
      { revert Hz. apply Qabs_case; intros ? Hz; lra. }
      apply Qeq_bool_iff in Hd0. congruence. }
    set (a := Qabs d') in *. rewrite <- Habs.
    pose proof (nearest_nonneg a Hpos) as Hv0.
    destruct (Qlt_le_dec a almostTwo) as [Hlt|Hge].
    + pose proof (nearest_below_two a Hpos Hlt) as Hn.
      assert (Hfin : Qle_bool (pow2 1024) (nearest a) = false).
      { destruct (Qle_bool (pow2 1024) (nearest a)) eqn:Eo; [|reflexivity].
        apply Qle_bool_iff in Eo.
        assert (2 < pow2 1024).
        { change 2 with (pow2 1). apply Qpower_lt_compat_l; [lia|reflexivity]. }
        lra. }
      rewrite Hfin. cbn [abs ltb]. rewrite Qltb_spec.
      split; [intros _; exact Hlt|intros _].
      destruct (Qltb d' 0); rewrite Qred_correct.
      * rewrite Qabs_opp, Qabs_pos by exact Hv0. exact Hn.
      * rewrite Qabs_pos by exact Hv0. exact Hn.
    + pose proof (nearest_from_two a Hge) as Hn.
      split; [|intros H; exfalso; exact (Qlt_not_le _ _ H Hge)].
      destruct (Qle_bool (pow2 1024) (nearest a)); cbn [abs ltb]; [discriminate|].
      rewrite Qltb_spec. intros H. exfalso.
      destruct (Qltb d' 0); rewrite Qred_correct in H.
      * rewrite Qabs_opp, Qabs_pos in H by exact Hv0. lra.
      * rewrite Qabs_pos in H by exact Hv0. lra.
Qed.

Lemma add_whole (a b : number) (m n : Z) :
  valueIs a (inject_Z m) -> valueIs b (inject_Z n) ->
  (Z.abs (m + n) < 2 ^ 53)%Z ->
  add a b = Finite (inject_Z (m + n)).
Proof.
  destruct a as [x| |]; [|intros []|intros []].
  destruct b as [y| |]; [|intros _ []|intros _ []].
  cbn [valueIs add]. intros Hx Hy Hb. apply round_whole; [|exact Hb].
  rewrite Hx, Hy, inject_Z_plus. reflexivity.
Qed.

Lemma mul_whole (a b : number) (m n : Z) :
  valueIs a (inject_Z m) -> valueIs b (inject_Z n) ->
  (Z.abs (m * n) < 2 ^ 53)%Z ->
  mul a b = Finite (inject_Z (m * n)).
Proof.
  destruct a as [x| |]; [|intros []|intros []].
  destruct b as [y| |]; [|intros _ []|intros _ []].
  cbn [valueIs mul]. intros Hx Hy Hb. apply round_whole; [|exact Hb].
  rewrite Hx, Hy, inject_Z_mult. reflexivity.
Qed.

Lemma sub_whole (a b : number) (m n : Z) :
  valueIs a (inject_Z m) -> valueIs b (inject_Z n) ->
  (Z.abs (m - n) < 2 ^ 53)%Z ->
  sub a b = Finite (inject_Z (m - n)).
Proof.
  intros Ha Hb Hbound. unfold sub. apply (add_whole a (neg b) m (- n)).
  - exact Ha.
  - destruct b as [y| |]; [|destruct Hb|destruct Hb].
    cbn [valueIs neg] in *. rewrite Hb, inject_Z_opp. reflexivity.
  - exact Hbound.
Qed.

Lemma ltb_whole (m n : Z) :
  ltb (Finite (inject_Z m)) (Finite (inject_Z n)) = (m <? n)%Z.
Proof.
  cbn [ltb]. destruct (Z.ltb_spec m n) as [H|H].
  - apply Qltb_spec. rewrite <- Zlt_Qlt. exact H.
  - destruct (Qltb (inject_Z m) (inject_Z n)) eqn:E; [|reflexivity].
    apply Qltb_spec in E. rewrite <- Zlt_Qlt in E. lia.
Qed.

Lemma min_whole (m n : Z) :
  min (Finite (inject_Z m)) (Finite (inject_Z n)) = Finite (inject_Z (Z.min m n)).
Proof.
  unfold min. rewrite ltb_whole.
  destruct (Z.ltb_spec n m) as [H|H]; f_equal; f_equal; lia.
Qed.

End DoubleFacts.

(** * Properties of the gateway *)

Module GeminiFacts.
Import Js Gemini.
Local Open Scope list_scope.

(** ** The retry wrapper *)

Lemma retryLoop_backoff (fn : Remote) (m : nat) :
  forall k rem i,
    (forall j, i <= j < i + k -> exists e, fn j = Fails e /\ rateLimited e = true) ->
    i + k < m ->
    retryLoop fn m (k + rem) i =
      (backoff i k ++ fst (retryLoop fn m rem (i + k)),
       snd (retryLoop fn m rem (i + k))).
Proof.
  induction k as [|k IH]; intros rem i Hfail Hlt.
  - rewrite Nat.add_0_r. cbn [Nat.add backoff seq flat_map app].
    now destruct (retryLoop fn m rem i).
  - cbn [Nat.add retryLoop].
    destruct (Hfail i ltac:(lia)) as (e & -> & ->).
    assert (Hi : (i <? m - 1) = true) by (apply Nat.ltb_lt; lia).
    rewrite Hi. cbn [andb].
    rewrite (IH rem (S i)).
    + replace (S i + k) with (i + S k) by lia. reflexivity.
    + intros j Hj. apply Hfail. lia.
    + lia.
Qed.

Lemma retryLoop_calls_bound (fn : Remote) (m : nat) :
  forall rem i, length (calls (fst (retryLoop fn m rem i))) <= rem.
Proof.
  induction rem as [|rem IH]; intros i; cbn [retryLoop].
  - cbn. lia.
  - destruct (fn i) as [text|e]; [cbn; lia|].
    destruct (rateLimited e && (i <? m - 1)); [|cbn; lia].
    specialize (IH (S i)). destruct (retryLoop fn m rem (S i)) as [evs r].
    cbn in *. lia.
Qed.

Lemma sleeps_backoff (i k : nat) :
  sleeps (backoff i k) = map (fun a => 2 ^ a * 1000) (seq i k).
Proof.
  unfold backoff. revert i.
  induction k as [|k IH]; intros i; [reflexivity|].
  cbn [seq flat_map map]. unfold sleeps in *.
  rewrite flat_map_app, IH. reflexivity.
Qed.

(** With the default [maxRetries] the loop never falls through. *)
Lemma retryWithBackoff_defined (fn : Remote) :
  snd (retryWithBackoff fn defaultMaxRetries) <> ReturnUndefined.
Proof.
  unfold retryWithBackoff, defaultMaxRetries. cbn [retryLoop].
  destruct (fn 0) as [t0|e0]; [cbn; discriminate|].
  destruct (rateLimited e0 && (0 <? 3 - 1)); [|cbn; discriminate].
  destruct (fn 1) as [t1|e1]; [cbn; discriminate|].
  destruct (rateLimited e1 && (1 <? 3 - 1)); [|cbn; discriminate].
  destruct (fn 2) as [t2|e2]; [cbn; discriminate|].
  rewrite andb_false_r. cbn. discriminate.
Qed.

(** C3. A unit whose first [k] attempts fail with a rate-limit error (an error
    whose message contains 429) is called again after sleeping
    [2^attempt * 1000] ms each time; attempt [k] decides: a response is
    returned as the result, an error that is not rate-limited is thrown at
    once, and so is any error of the third attempt.  Never more than three
    calls are made, and the sleeps before the third attempt are 1000 ms and
    2000 ms. *)
Theorem retryWithBackoff_backoff (fn : Remote) (k : nat) :
  k < defaultMaxRetries ->
  (forall j, j < k -> exists e, fn j = Fails e /\ rateLimited e = true) ->
  (forall text, fn k = Responds text ->
     retryWithBackoff fn defaultMaxRetries = (backoff 0 k ++ [EvCall k], Return text))
  /\ (forall e, fn k = Fails e -> rateLimited e = false ->
        retryWithBackoff fn defaultMaxRetries = (backoff 0 k ++ [EvCall k], Throw e))
  /\ (forall e, fn k = Fails e -> k = defaultMaxRetries - 1 ->
        retryWithBackoff fn defaultMaxRetries = (backoff 0 k ++ [EvCall k], Throw e))
  /\ sleeps (backoff 0 k) = map (fun a => 2 ^ a * 1000) (seq 0 k)
  /\ sleeps (backoff 0 (defaultMaxRetries - 1)) = [1000; 2000]
  /\ length (calls (fst (retryWithBackoff fn defaultMaxRetries))) <= 3.
Proof.
  intros Hk Hfail.
  assert (Hpre : retryWithBackoff fn defaultMaxRetries =
                 (backoff 0 k ++ fst (retryLoop fn defaultMaxRetries (defaultMaxRetries - k) k),
                  snd (retryLoop fn defaultMaxRetries (defaultMaxRetries - k) k))).
  { unfold retryWithBackoff.
    replace defaultMaxRetries with (k + (defaultMaxRetries - k)) at 2 by lia.
    rewrite (retryLoop_backoff fn defaultMaxRetries k (defaultMaxRetries - k) 0).
    - reflexivity.
    - intros j Hj. apply Hfail. lia.
    - lia. }
  destruct (defaultMaxRetries - k) as [|rem] eqn:Hrem; [lia|].
  split; [|split; [|split; [|split; [|split]]]].
  - intros text Hr. rewrite Hpre. cbn [retryLoop]. rewrite Hr. reflexivity.
  - intros e He Hnot. rewrite Hpre. cbn [retryLoop]. rewrite He, Hnot. reflexivity.
  - intros e He Hlast. rewrite Hpre. cbn [retryLoop]. rewrite He.
    assert (Hi : (k <? defaultMaxRetries - 1) = false) by (apply Nat.ltb_ge; lia).
    rewrite Hi, andb_false_r. reflexivity.
  - apply sleeps_backoff.
  - reflexivity.
  - apply (retryLoop_calls_bound fn defaultMaxRetries defaultMaxRetries 0).
Qed.

Lemma retryWithBackoff_backoff_witness :
  2 < defaultMaxRetries
  /\ (forall j, j < 2 -> exists e, flaky j = Fails e /\ rateLimited e = true)
  /\ retryWithBackoff flaky defaultMaxRetries =
       ([EvCall 0; EvConsoleLog; EvSleep 1000;
         EvCall 1; EvConsoleLog; EvSleep 2000; EvCall 2], Return "tamam").
Proof.
  assert (H1 : 2 < defaultMaxRetries) by (unfold defaultMaxRetries; lia).
  assert (H2 : forall j, j < 2 -> exists e, flaky j = Fails e /\ rateLimited e = true).
  { intros j Hj. exists tooManyRequests.
    destruct j as [|[|j]]; [split; reflexivity | split; reflexivity | lia]. }
  split; [exact H1|]. split; [exact H2|].
  exact (proj1 (retryWithBackoff_backoff flaky 2 H1 H2) "tamam" eq_refl).
Defined.

(** ** The four operations *)

Section OperationFacts.

Variable json : Type.
Variable JSON_parse : string -> option json.

Ltac run_item :=
  unfold Gemini.generateText, Gemini.analyzeImage, Gemini.generateAIExplanation,
    Gemini.generateQuestionFromContent, outcome, item_of, generateText_item,
    analyzeImage_item, generateAIExplanation_item,
    generateQuestionFromContent_item, tryCatch, bind, await_retryWithBackoff.

(** The arrow queued by an operation never throws: whatever happens inside
    is caught and turned into a settlement of the handle. *)
Lemma item_of_fulfils (op : Operation) (remote : Remote) (s : ItemState json) :
  snd (item_of JSON_parse op remote s) = inl tt.
Proof.
  destruct op; run_item;
    destruct (retryWithBackoff remote defaultMaxRetries) as [evs [text|e|]];
    cbn [fst snd];
    unfold resolve, reject, settle, emit, parse, ret, throw, tryCatch, bind, value_of;
    cbn [trace handle];
    repeat match goal with
           | |- context [if ?b then _ else _] => destruct b
           | |- context [match JSON_parse ?t with _ => _ end] => destruct (JSON_parse t)
           | |- context [match handle ?x with _ => _ end] => destruct (handle x)
           end; reflexivity.
Qed.

(** ... and it always settles the handle. *)
Lemma outcome_settled (op : Operation) (remote : Remote) :
  outcome JSON_parse op remote <> None.
Proof.
  destruct op; run_item;
    destruct (retryWithBackoff remote defaultMaxRetries) as [evs [text|e|]];
    cbn;
    repeat match goal with
           | |- context [if ?b then _ else _] => destruct b
           | |- context [match JSON_parse ?t with _ => _ end] => destruct (JSON_parse t)
           end; cbn; discriminate.
Qed.

(** Free-text chat and image analysis: a terminal error classified as
    rate-limit/quota resolves the handle with the offline text of the
    operation's tag; any other terminal error rejects it. *)
Lemma generateText_outcome (prompt : string) (remote : Remote) :
  generateText json JSON_parse prompt remote =
    Some match snd (retryWithBackoff remote defaultMaxRetries) with
         | Return text => Resolved (VText text)
         | ReturnUndefined => Resolved VUndefined
         | Throw e =>
             if quotaClassified e then Resolved (VText (getOfflineResponse chat))
             else Rejected e
         end.
Proof.
  run_item.
  destruct (retryWithBackoff remote defaultMaxRetries) as [evs [text|e|]]; cbn;
    try reflexivity.
  destruct (quotaClassified e); reflexivity.
Qed.

Lemma analyzeImage_outcome (prompt imageBase64 mimeType : string) (remote : Remote) :
  analyzeImage json JSON_parse prompt imageBase64 mimeType remote =
    Some match snd (retryWithBackoff remote defaultMaxRetries) with
         | Return text => Resolved (VText text)
         | ReturnUndefined => Resolved VUndefined
         | Throw e =>
             if quotaClassified e then Resolved (VText (getOfflineResponse image))
             else Rejected e
         end.
Proof.
  run_item.
  destruct (retryWithBackoff remote defaultMaxRetries) as [evs [text|e|]]; cbn;
    try reflexivity.
  destruct (quotaClassified e); reflexivity.
Qed.

Lemma generateAIExplanation_outcome (question : string) (options : list string)
    (correctAnswer userAnswer : string) (remote : Remote) :
  generateAIExplanation json JSON_parse question options correctAnswer userAnswer remote =
    Some match snd (retryWithBackoff remote defaultMaxRetries) with
         | Return text => Resolved (VText text)
         | ReturnUndefined => Resolved VUndefined
         | Throw e =>
             if quotaClassified e
             then Resolved (VText (getOfflineResponse explanation))
             else Resolved (VText (fallbackExplanation userAnswer correctAnswer))
         end.
Proof.
  run_item.
  destruct (retryWithBackoff remote defaultMaxRetries) as [evs [text|e|]]; cbn;
    try reflexivity.
  destruct (quotaClassified e); reflexivity.
Qed.

Lemma generateQuestionFromContent_outcome (content subject : string) (remote : Remote) :
  generateQuestionFromContent json JSON_parse content subject remote =
    Some match snd (retryWithBackoff remote defaultMaxRetries) with
         | Return text =>
             match JSON_parse text with
             | Some j => Resolved (VJson j)
             | None => Resolved (VQuestions placeholderQuestions)
             end
         | ReturnUndefined => Resolved (VQuestions placeholderQuestions)
         | Throw e => Rejected e
         end.
Proof.
  run_item.
  destruct (retryWithBackoff remote defaultMaxRetries) as [evs [text|e|]]; cbn;
    try reflexivity.
  destruct (JSON_parse text); reflexivity.
Qed.

(** C8. When the model's text cannot be parsed, quiz generation resolves
    with the three placeholder questions, whose timestamps are 30, 120 and
    300 seconds. *)
Theorem unparsable_quiz_yields_placeholder (content subject : string)
    (remote : Remote) (text : string) :
  snd (retryWithBackoff remote defaultMaxRetries) = Return text ->
  JSON_parse text = None ->
  generateQuestionFromContent json JSON_parse content subject remote
    = Some (Resolved (VQuestions placeholderQuestions))
  /\ map timestamp placeholderQuestions = [30; 120; 300]%Q
  /\ length placeholderQuestions = 3.
Proof.
  intros Hret Hparse.
  rewrite generateQuestionFromContent_outcome, Hret, Hparse.
  repeat split.
Qed.

Lemma generateAIExplanation_text (question : string) (options : list string)
    (correctAnswer userAnswer : string) (remote : Remote) :
  exists text,
    generateAIExplanation json JSON_parse question options correctAnswer
      userAnswer remote = Some (Resolved (VText text)).
Proof.
  rewrite generateAIExplanation_outcome.
  pose proof (retryWithBackoff_defined remote) as Hdef.
  destruct (snd (retryWithBackoff remote defaultMaxRetries)) as [t|e|];
    [eexists; reflexivity| |contradiction].
  destruct (quotaClassified e); eexists; reflexivity.
Qed.

(** C9 (amended). The explanation handle always resolves with a text and
    never rejects: the model's text when a call succeeds, the offline
    explanation message when the terminal error is classified as
    rate-limit/quota, and otherwise the canned fallback, which quotes the
    learner's answer and the correct answer. *)
Theorem generateAIExplanation_always_resolves (question : string)
    (options : list string) (correctAnswer userAnswer : string) (remote : Remote) :
  (exists text,
     generateAIExplanation json JSON_parse question options correctAnswer
       userAnswer remote = Some (Resolved (VText text))
     /\ match snd (retryWithBackoff remote defaultMaxRetries) with
        | Return t => text = t
        | Throw e =>
            text = if quotaClassified e
                   then getOfflineResponse explanation
                   else fallbackExplanation userAnswer correctAnswer
        | ReturnUndefined => False
        end)
  /\ (forall e,
        generateAIExplanation json JSON_parse question options correctAnswer
          userAnswer remote <> Some (Rejected e))
  /\ (exists a b c,
        fallbackExplanation userAnswer correctAnswer
        = (a ++ userAnswer ++ b ++ correctAnswer ++ c)%string).
Proof.
  rewrite generateAIExplanation_outcome.
  pose proof (retryWithBackoff_defined remote) as Hdef.
  destruct (snd (retryWithBackoff remote defaultMaxRetries)) as [t|e|];
    [| |contradiction].
  - split; [exists t; split; reflexivity|]. split; [discriminate|].
    unfold fallbackExplanation. do 3 eexists. reflexivity.
  - split.
    + destruct (quotaClassified e); eexists; split; reflexivity.
    + split; [destruct (quotaClassified e); discriminate|].
      unfold fallbackExplanation. do 3 eexists. reflexivity.
Qed.

End OperationFacts.

Lemma unparsable_quiz_yields_placeholder_witness :
  snd (retryWithBackoff chatty defaultMaxRetries) = Return "Elbette! Iste sorular:"
  /\ noJson "Elbette! Iste sorular:" = None
  /\ generateQuestionFromContent unit noJson "Hucre bolunmesi" "Biyoloji" chatty
     = Some (Resolved (VQuestions placeholderQuestions)).
Proof.
  split; [reflexivity|]. split; [reflexivity|].
  exact (proj1 (unparsable_quiz_yields_placeholder unit noJson
                  "Hucre bolunmesi" "Biyoloji" chatty "Elbette! Iste sorular:"
                  eq_refl eq_refl)).
Defined.

(** A terminal error that carries neither marker does not reject the
    explanation handle: it resolves with the canned fallback. *)
Lemma explanation_unclassified_error_resolves :
  ~ explanationRejectsUnclassified unit noJson "2 + 2 = ?" ["3"; "4"] "4" "3" unreachable.
Proof.
  intros H. specialize (H networkDown eq_refl eq_refl).
  rewrite generateAIExplanation_outcome in H. cbn in H. discriminate H.
Qed.

(** The four offline texts are pairwise different. *)
Lemma getOfflineResponse_injective (a b : ContextTag) :
  getOfflineResponse a = getOfflineResponse b -> a = b.
Proof.
  destruct a, b; intros H; try reflexivity; cbn in H; discriminate H.
Qed.

(** C4 (evaluation at the failing input). With a remote that answers every
    call with a 429 error, chat, image analysis and explanation resolve with
    their offline texts, while quiz generation rejects with the error: its
    handler never consults [getOfflineResponse], whose [question] text is
    used nowhere. *)
Theorem quiz_generation_rejects_when_rate_limited :
  snd (retryWithBackoff alwaysRateLimited defaultMaxRetries) = Throw tooManyRequests
  /\ quotaClassified tooManyRequests = true
  /\ generateText unit noJson "Merhaba" alwaysRateLimited
     = Some (Resolved (VText (getOfflineResponse chat)))
  /\ analyzeImage unit noJson "Coz" "aGVsbG8=" "image/png" alwaysRateLimited
     = Some (Resolved (VText (getOfflineResponse image)))
  /\ generateAIExplanation unit noJson "2 + 2 = ?" ["3"; "4"] "4" "3" alwaysRateLimited
     = Some (Resolved (VText (getOfflineResponse explanation)))
  /\ generateQuestionFromContent unit noJson "Hucre bolunmesi" "Biyoloji"
       alwaysRateLimited
     = Some (Rejected tooManyRequests).
Proof.
  rewrite generateText_outcome, analyzeImage_outcome,
    generateAIExplanation_outcome, generateQuestionFromContent_outcome.
  assert (H : snd (retryWithBackoff alwaysRateLimited defaultMaxRetries)
              = Throw tooManyRequests) by reflexivity.
  rewrite H.
  assert (Hq : quotaClassified tooManyRequests = true) by reflexivity.
  rewrite Hq. repeat split.
Qed.

(** ** The drain loop *)

Section DrainFacts.

Variable json : Type.
Variable JSON_parse : string -> option json.

Lemma started_app (l1 l2 : list (LogEvent json)) :
  started (l1 ++ l2) = started l1 ++ started l2.
Proof. apply flat_map_app. Qed.

Lemma started_Started (l : list (LogEvent json)) t :
  started (l ++ [Started t]) = started l ++ [t].
Proof. rewrite started_app. reflexivity. Qed.

Lemma started_Finished (l : list (LogEvent json)) t h threw :
  started (l ++ [Finished t h threw]) = started l.
Proof. rewrite started_app. cbn. apply app_nil_r. Qed.

Lemma started_Delayed (l : list (LogEvent json)) ms :
  started (l ++ [Delayed ms]) = started l.
Proof. rewrite started_app. cbn. apply app_nil_r. Qed.

Lemma submitted_app (a1 a2 : list Action) :
  submitted (a1 ++ a2) = submitted a1 ++ submitted a2.
Proof. apply flat_map_app. Qed.

Lemma paced_turns (done : list (nat * option (Settled json))) (rest : list (LogEvent json)) :
  paced (flat_map turn done ++ rest) = paced rest.
Proof.
  induction done as [|u done IH]; [reflexivity|].
  cbn [flat_map turn app paced]. rewrite !Nat.eqb_refl. exact IH.
Qed.

Lemma noneThrew_app (l1 l2 : list (LogEvent json)) :
  noneThrew (l1 ++ l2) = noneThrew l1 && noneThrew l2.
Proof. apply forallb_app. Qed.

Lemma noneThrew_turns (done : list (nat * option (Settled json))) :
  noneThrew (flat_map turn done) = true.
Proof.
  induction done as [|u done IH]; [reflexivity|].
  cbn [flat_map]. rewrite noneThrew_app, IH. reflexivity.
Qed.

Lemma drainInv_idle : drainInv [] (idle json).
Proof.
  unfold drainInv, idle. cbn. split; [constructor|]. split; [reflexivity|].
  exists []. repeat split.
Qed.

(** A call of an exported operation keeps the invariant: it starts the
    drain when the gateway is idle and only appends to the queue otherwise. *)
Lemma drainInv_call acts g t op remote :
  drainInv acts g ->
  drainInv (acts ++ [Call t op remote])
    (step JSON_parse g (Call t op remote)).
Proof.
  intros (Hq & Hfifo & done & Hshape).
  assert (Hit : neverThrows (mkQueueItem t (item_of JSON_parse op remote)))
    by apply item_of_fulfils.
  destruct g as [q p ls lg]. cbn [requestQueue isProcessing loops log] in *.
  unfold drainInv, step, addToQueue, processQueue.
  cbn [requestQueue isProcessing loops log].
  rewrite submitted_app. cbn [submitted flat_map app].
  destruct ls as [|l [|l' ls]]; [| |destruct l; contradiction].
  - destruct Hshape as (-> & -> & ->).
    cbn [app length Nat.eqb orb whileHead requestQueue isProcessing loops log
         option_list map tag].
    rewrite app_nil_r in Hfifo.
    split; [constructor|]. split.
    + rewrite started_app, app_nil_r, Hfifo. reflexivity.
    + exists done. repeat split. exact Hit.
  - assert (Hp : p = true) by (destruct l; tauto). subst p.
    cbn [orb requestQueue isProcessing loops log].
    split; [apply Forall_app; split; [exact Hq|constructor; [exact Hit|constructor]]|].
    split.
    + rewrite map_app, app_assoc, Hfifo. reflexivity.
    + exists done. exact Hshape.
Qed.

(** Resuming the drain keeps the invariant: a settled unit arms the timer,
    a fired timer pops the next unit or ends the drain. *)
Lemma drainInv_resume acts g k :
  drainInv acts g ->
  drainInv (acts ++ [Resume k]) (step JSON_parse g (Resume k)).
Proof.
  intros (Hq & Hfifo & done & Hshape).
  destruct g as [q p ls lg]. cbn [requestQueue isProcessing loops log] in *.
  unfold drainInv, step, resume.
  cbn [requestQueue isProcessing loops log].
  rewrite submitted_app. cbn [submitted flat_map]. rewrite app_nil_r.
  destruct ls as [|l [|l' ls]]; [| |destruct l; contradiction].
  - destruct k; cbn [nth_error requestQueue isProcessing loops log];
      (split; [exact Hq|split; [exact Hfifo|exists done; exact Hshape]]).
  - destruct k as [|k].
    2:{ destruct k; cbn [nth_error requestQueue isProcessing loops log];
          (split; [exact Hq|split; [exact Hfifo|exists done; exact Hshape]]). }
    cbn [nth_error]. destruct l as [it|].
    + destruct Hshape as (-> & Hit & ->).
      unfold neverThrows in Hit.
      destruct (request it (freshItem json)) as [s r]. cbn [snd] in Hit. subst r.
      cbn [requestQueue isProcessing loops log setLoop firstn skipn option_list app].
      split; [exact Hq|]. split.
      * rewrite started_Finished. exact Hfifo.
      * exists done. split; [reflexivity|]. exists (tag it), (handle s).
        rewrite <- app_assoc. reflexivity.
    + destruct Hshape as (-> & t & h & ->).
      unfold whileHead. cbn [requestQueue isProcessing loops log].
      assert (Hturn : (flat_map turn done ++ [Started t; Finished t h false])
                        ++ [Delayed RATE_LIMIT_DELAY]
                      = flat_map turn (done ++ [(t, h)])).
      { rewrite flat_map_app. cbn [flat_map turn fst snd app].
        rewrite <- app_assoc. reflexivity. }
      rewrite Hturn.
      assert (Hst : started (flat_map turn (done ++ [(t, h)]))
                    = started (flat_map turn done
                                     ++ [Started t; Finished t h false])).
      { rewrite <- Hturn. apply started_Delayed. }
      destruct q as [|it rest];
        cbn [requestQueue isProcessing loops log setLoop firstn skipn option_list app].
      * split; [constructor|]. split; [rewrite Hst; exact Hfifo|].
        exists (done ++ [(t, h)]). repeat split.
      * inversion Hq as [|? ? Hit Hrest]; subst.
        split; [exact Hrest|]. split.
        -- rewrite started_Started, Hst. cbn [map] in Hfifo.
           rewrite <- app_assoc. exact Hfifo.
        -- exists (done ++ [(t, h)]). repeat split. exact Hit.
Qed.

Lemma drainInv_run :
  forall acts acts0 g,
    drainInv acts0 g ->
    drainInv (acts0 ++ acts) (run JSON_parse acts g).
Proof.
  induction acts as [|a acts IH]; intros acts0 g Hinv.
  - rewrite app_nil_r. exact Hinv.
  - cbn [run fold_left].
    replace (acts0 ++ a :: acts) with ((acts0 ++ [a]) ++ acts)
      by (rewrite <- app_assoc; reflexivity).
    apply IH. destruct a as [t op remote|k].
    + apply drainInv_call, Hinv.
    + apply drainInv_resume, Hinv.
Qed.

(** Whatever operations are called and however the event loop interleaves
    them with the drain, units are started in the order they were
    submitted, at most one [processQueue] call is ever suspended, the log is
    a sequence of turns "start, settle, wait 1000 ms" (so no unit starts
    before the previous one has settled and the delay has elapsed), and no
    unit throws into the loop, whether its handle resolved or rejected; the
    queue is empty whenever no drain is active. *)
Lemma drain_fifo_paced (acts : list Action) :
  let g := run JSON_parse acts (idle json) in
  started (log g) ++ map tag (requestQueue g) = submitted acts
  /\ length (loops g) <= 1
  /\ paced (log g) = true
  /\ noneThrew (log g) = true
  /\ isProcessing g || (length (requestQueue g) =? 0) = true.
Proof.
  intros g.
  destruct (drainInv_run acts [] (idle json) drainInv_idle)
    as (Hq & Hfifo & done & Hshape).
  fold g in Hq, Hfifo, Hshape. cbn [app] in Hfifo.
  split; [exact Hfifo|].
  destruct (loops g) as [|l [|l' ls]]; [| |destruct l; contradiction].
  - destruct Hshape as (Hp & Hempty & Hlog). rewrite Hlog, Hempty.
    split; [cbn; lia|]. split.
    + rewrite <- (app_nil_r (flat_map _ _)). apply paced_turns.
    + split; [apply noneThrew_turns|]. apply orb_true_r.
  - split; [cbn; lia|]. destruct l as [it|].
    + destruct Hshape as (Hp & _ & Hlog). rewrite Hlog, Hp. split.
      * rewrite paced_turns. reflexivity.
      * split; [|reflexivity].
        rewrite noneThrew_app, noneThrew_turns. reflexivity.
    + destruct Hshape as (Hp & t & h & Hlog). rewrite Hlog, Hp. split.
      * rewrite paced_turns. cbn [paced]. rewrite Nat.eqb_refl. reflexivity.
      * split; [|reflexivity].
        rewrite noneThrew_app, noneThrew_turns. reflexivity.
Qed.

End DrainFacts.

(** Three units submitted at once, the second of which rejects its handle:
    each is followed by the delay. *)
Example drain_three_units :
  log (run noJson
         [Call 1 (GenerateText "Merhaba") chatty;
          Call 2 (GenerateText "Merhaba") unreachable;
          Call 3 (GenerateText "Merhaba") alwaysRateLimited;
          Resume 0; Resume 0; Resume 0; Resume 0; Resume 0; Resume 0]
         (idle unit))
  = [Started 1; Finished 1 (Some (Resolved (VText "Elbette! Iste sorular:"))) false;
     Delayed 1000;
     Started 2; Finished 2 (Some (Rejected networkDown)) false;
     Delayed 1000;
     Started 3; Finished 3 (Some (Resolved (VText (getOfflineResponse chat)))) false;
     Delayed 1000].
Proof. reflexivity. Qed.

(** ** The queue on its own *)

Section QueueFacts.

Variable json : Type.
Variable JSON_parse : string -> option json.

Lemma enqueued_app (a1 a2 : list (QueueAction json)) :
  enqueued (a1 ++ a2) = enqueued a1 ++ enqueued a2.
Proof. apply flat_map_app. Qed.

Lemma enqueued_wakes (n k : nat) : enqueued (repeat (@Wake json k) n) = [].
Proof. induction n as [|n IH]; [reflexivity|exact IH]. Qed.

(** The arrows of the exported operations are requests that fulfil: their
    turn always ends with the delay. *)
Lemma turnOf_operation (t : nat) (op : Operation) (remote : Remote) :
  turnOf (mkQueueItem t (item_of JSON_parse op remote))
  = [Started t; Finished t (outcome JSON_parse op remote) false;
     Delayed RATE_LIMIT_DELAY].
Proof.
  unfold turnOf, outcome. cbn [request tag].
  pose proof (item_of_fulfils json JSON_parse op remote (freshItem json)) as H.
  destruct (item_of JSON_parse op remote (freshItem json)) as [s r].
  cbn [fst snd] in *. subst r. reflexivity.
Qed.

Lemma turnOf_fulfilled (c : QueueItem json) (s : ItemState json) :
  request c (freshItem json) = (s, inl tt) ->
  turnOf c = [Started (tag c); Finished (tag c) (handle s) false;
              Delayed RATE_LIMIT_DELAY].
Proof. intros H. unfold turnOf. rewrite H. reflexivity. Qed.

Lemma turnOf_rejected (c : QueueItem json) (s : ItemState json) (e : Error) :
  request c (freshItem json) = (s, inr e) ->
  turnOf c = [Started (tag c); Finished (tag c) (handle s) true].
Proof. intros H. unfold turnOf. rewrite H. reflexivity. Qed.

Lemma turns_done (pre : list (QueueItem json)) (c : QueueItem json) :
  flat_map turnOf (pre ++ [c]) = flat_map turnOf pre ++ turnOf c.
Proof. rewrite flat_map_app. cbn [flat_map]. rewrite app_nil_r. reflexivity. Qed.

Lemma wakesOf_bounds (c : QueueItem json) : 1 <= wakesOf c <= 2.
Proof. unfold wakesOf. destruct (snd (request c (freshItem json))); lia. Qed.

Lemma wakes_cons (c : QueueItem json) (q : list (QueueItem json)) :
  list_sum (map wakesOf (c :: q)) = wakesOf c + list_sum (map wakesOf q).
Proof. reflexivity. Qed.

Lemma wakes_bound (q : list (QueueItem json)) :
  list_sum (map wakesOf q) <= 2 * length q.
Proof.
  induction q as [|c q IH]; [cbn; lia|].
  rewrite wakes_cons. cbn [length]. pose proof (wakesOf_bounds c). lia.
Qed.

Lemma queueInv_idle : queueInv [] (idle json).
Proof. exists [], []. cbn. repeat split. Qed.

Lemma queueInv_enqueue (acts : list (QueueAction json)) (g : Gateway json)
    (it : QueueItem json) :
  queueInv acts g ->
  queueInv (acts ++ [Enqueue it]) (queueStep g (Enqueue it)).
Proof.
  intros (pre & rest & Hcalls & Hshape).
  destruct g as [q p ls lg]. cbn [requestQueue isProcessing loops log] in *.
  unfold queueInv, queueStep, addToQueue, processQueue.
  cbn [requestQueue isProcessing loops log].
  rewrite enqueued_app, Hcalls. cbn [enqueued flat_map app].
  destruct ls as [|l [|l' ls]].
  - destruct rest as [|c rest]; [|contradiction].
    destruct Hshape as (-> & -> & ->).
    exists pre, [it].
    cbn [app length Nat.eqb orb whileHead requestQueue isProcessing loops log
         option_list].
    split; [rewrite app_nil_r; reflexivity|]. repeat split.
  - destruct l as [c0|]; (destruct rest as [|c suf]; [contradiction|]).
    + destruct Hshape as (-> & -> & -> & ->).
      exists pre, (c :: suf ++ [it]).
      cbn [orb requestQueue isProcessing loops log].
      split; [rewrite <- app_assoc; reflexivity|]. repeat split.
    + destruct Hshape as (-> & -> & s & Hreq & ->).
      exists pre, (c :: suf ++ [it]).
      cbn [orb requestQueue isProcessing loops log].
      split; [rewrite <- app_assoc; reflexivity|].
      split; [reflexivity|]. split; [reflexivity|].
      exists s. split; [exact Hreq|reflexivity].
  - destruct l; contradiction.
Qed.

(** A resumption keeps the gateway on the agenda and, unless the drain is
    idle, takes one of the resumptions still needed. *)
Lemma queueInv_wake (acts : list (QueueAction json)) (g : Gateway json) (k : nat) :
  queueInv acts g ->
  queueInv (acts ++ [Wake k]) (queueStep g (Wake k))
  /\ (k = 0 -> wakesLeft (queueStep g (Wake k)) = wakesLeft g - 1).
Proof.
  intros (pre & rest & Hcalls & Hshape).
  destruct g as [q p ls lg]. cbn [requestQueue isProcessing loops log] in *.
  unfold queueInv, queueStep, resume, wakesLeft.
  cbn [requestQueue isProcessing loops log].
  rewrite enqueued_app, Hcalls. cbn [enqueued flat_map]. rewrite app_nil_r.
  destruct ls as [|l [|l' ls]]; [| |destruct l; contradiction].
  - destruct k; cbn [nth_error requestQueue isProcessing loops log].
    + split; [exists pre, rest; split; [reflexivity|exact Hshape]|].
      destruct rest; [|contradiction]. destruct Hshape as (_ & -> & _). reflexivity.
    + split; [exists pre, rest; split; [reflexivity|exact Hshape]|]. discriminate.
  - destruct k as [|k].
    2:{ destruct k; cbn [nth_error requestQueue isProcessing loops log];
          (split; [exists pre, rest; split; [reflexivity|exact Hshape]|discriminate]). }
    cbn [nth_error]. destruct l as [it|]; (destruct rest as [|c suf]; [contradiction|]).
    + destruct Hshape as (-> & -> & -> & ->).
      assert (Hw : wakesOf c = match snd (request c (freshItem json)) with
                               | inl _ => 2
                               | inr _ => 1
                               end) by reflexivity.
      destruct (request c (freshItem json)) as [s [[]|e]] eqn:Hreq; cbn [snd] in Hw.
      * cbn [requestQueue isProcessing loops log setLoop firstn skipn option_list app].
        split; [|intros _; lia].
        exists pre, (c :: suf). split; [reflexivity|].
        split; [reflexivity|]. split; [reflexivity|].
        exists s. split; [exact Hreq|]. rewrite <- app_assoc. reflexivity.
      * unfold whileHead. cbn [requestQueue isProcessing loops log].
        rewrite <- app_assoc. cbn [app].
        rewrite <- (turnOf_rejected c s e Hreq), <- turns_done.
        destruct suf as [|c1 suf];
          rewrite ?wakes_cons;
          cbn [requestQueue isProcessing loops log setLoop firstn skipn
               option_list app].
        -- split; [|intros _; cbn [map list_sum fold_right]; lia].
           exists (pre ++ [c]), []. split; [rewrite <- app_assoc; reflexivity|].
           repeat split.
        -- split; [|intros _; lia].
           exists (pre ++ [c]), (c1 :: suf).
           split; [rewrite <- app_assoc; reflexivity|]. repeat split.
    + destruct Hshape as (-> & -> & s & Hreq & ->).
      unfold whileHead. cbn [requestQueue isProcessing loops log].
      rewrite <- app_assoc. cbn [app].
      rewrite <- (turnOf_fulfilled c s Hreq), <- turns_done.
      destruct suf as [|c1 suf];
        rewrite ?wakes_cons;
        cbn [requestQueue isProcessing loops log setLoop firstn skipn
             option_list app].
      * split; [|intros _; reflexivity].
        exists (pre ++ [c]), []. split; [rewrite <- app_assoc; reflexivity|].
        repeat split.
      * split; [|intros _; lia].
        exists (pre ++ [c]), (c1 :: suf).
        split; [rewrite <- app_assoc; reflexivity|]. repeat split.
Qed.

Lemma queueInv_run :
  forall (acts acts0 : list (QueueAction json)) (g : Gateway json),
    queueInv acts0 g ->
    queueInv (acts0 ++ acts) (queueRun acts g).
Proof.
  induction acts as [|a acts IH]; intros acts0 g Hinv.
  - rewrite app_nil_r. exact Hinv.
  - cbn [queueRun fold_left].
    replace (acts0 ++ a :: acts) with ((acts0 ++ [a]) ++ acts)
      by (rewrite <- app_assoc; reflexivity).
    apply IH. destruct a as [it|k].
    + apply queueInv_enqueue, Hinv.
    + apply queueInv_wake, Hinv.
Qed.

Lemma queue_drains :
  forall (n : nat) (acts : list (QueueAction json)) (g : Gateway json),
    queueInv acts g ->
    wakesLeft g = n ->
    wakesLeft (queueRun (repeat (Wake 0) n) g) = 0.
Proof.
  induction n as [|n IH]; intros acts g Hinv Hn; [exact Hn|].
  cbn [repeat queueRun fold_left].
  destruct (queueInv_wake acts g 0 Hinv) as [Hinv' Hdec].
  apply (IH _ _ Hinv'). rewrite (Hdec eq_refl). lia.
Qed.

(** Turns in which nothing threw are paced. *)
Lemma paced_turnsOf (pre : list (QueueItem json)) (rest : list (LogEvent json)) :
  noneThrew (flat_map turnOf pre ++ rest) = true ->
  paced (flat_map turnOf pre ++ rest) = paced rest.
Proof.
  induction pre as [|c pre IH]; [reflexivity|].
  cbn [flat_map]. rewrite <- app_assoc. unfold turnOf at 1 3.
  destruct (request c (freshItem json)) as [s [u|e]].
  - cbn [app noneThrew forallb negb andb paced]. rewrite !Nat.eqb_refl. exact IH.
  - cbn [app noneThrew forallb negb andb]. discriminate.
Qed.

(** The calls of the exported operations are runs of the queue. *)
Lemma run_queueRun (acts : list Action) (g : Gateway json) :
  run JSON_parse acts g = queueRun (map (queueAction JSON_parse) acts) g.
Proof.
  unfold run, queueRun. revert g.
  induction acts as [|a acts IH]; intros g; [reflexivity|].
  cbn [map fold_left]. rewrite <- IH. destruct a; reflexivity.
Qed.

(** C2 (amended). Whatever requests are handed to [addToQueue] and however
    the event loop interleaves them with the drain:
    - at every moment the log is a prefix of the agenda, in which the units
      appear one after the other in the order they were enqueued, each
      started and awaited, and followed by the 1000 ms delay when it
      fulfilled, but not when it rejected;
    - at most one [processQueue] call is suspended;
    - as long as no awaited unit has rejected, the log is paced;
    - every unit is served: resuming the drain as often as resumptions are
      left, at most two per unit, leaves the whole agenda in the log, the
      queue empty and the drain ended;
    - a unit queued by one of the four exported operations always fulfils,
      so that its turn ends with the delay whether the operation's promise
      resolved or rejected, and every log made by calls of those operations
      is paced. *)
Theorem drain_serves_in_order (acts : list (QueueAction json)) :
  let g := queueRun acts (idle json) in
  let n := wakesLeft g in
  let g' := queueRun (acts ++ repeat (Wake 0) n) (idle json) in
  (exists rest, log g ++ rest = agenda acts)
  /\ length (loops g) <= 1
  /\ (noneThrew (log g) = true -> paced (log g) = true)
  /\ (log g' = agenda acts /\ requestQueue g' = [] /\ loops g' = []
      /\ isProcessing g' = false)
  /\ n <= 2 * length (enqueued acts)
  /\ (forall t op remote,
        turnOf (mkQueueItem t (item_of JSON_parse op remote))
        = [Started t; Finished t (outcome JSON_parse op remote) false;
           Delayed RATE_LIMIT_DELAY])
  /\ (forall calls : list Action,
        paced (log (run JSON_parse calls (idle json))) = true).
Proof.
  intros g n g'.
  pose proof (queueInv_run acts [] (idle json) queueInv_idle) as Hinv0.
  cbn [app] in Hinv0. fold g in Hinv0.
  assert (Hnow : (exists rest, log g ++ rest = agenda acts)
                 /\ length (loops g) <= 1
                 /\ (noneThrew (log g) = true -> paced (log g) = true)
                 /\ n <= 2 * length (enqueued acts)).
  { destruct Hinv0 as (pre & rest & Hcalls & Hshape).
    unfold n, wakesLeft, agenda. rewrite Hcalls, flat_map_app, length_app.
    destruct (loops g) as [|l [|l' ls]]; [| |destruct l; contradiction].
    - destruct rest; [|contradiction]. destruct Hshape as (_ & -> & ->).
      split; [exists []; reflexivity|]. split; [cbn; lia|]. split; [|cbn; lia].
      intros Hn. rewrite <- (app_nil_r (flat_map turnOf pre)) in *.
      rewrite (paced_turnsOf pre [] Hn). reflexivity.
    - destruct l as [it|]; (destruct rest as [|c suf]; [contradiction|]).
      + destruct Hshape as (_ & -> & -> & ->).
        split.
        { cbn [flat_map].
          destruct (request c (freshItem json)) as [s [[]|e]] eqn:Hreq;
            [rewrite (turnOf_fulfilled c s Hreq)|rewrite (turnOf_rejected c s e Hreq)];
            eexists; rewrite <- app_assoc; cbn [app]; reflexivity. }
        split; [cbn; lia|]. split.
        * intros Hn. rewrite (paced_turnsOf pre _ Hn). reflexivity.
        * pose proof (wakes_bound suf). pose proof (wakesOf_bounds c).
          cbn [length]. lia.
      + destruct Hshape as (_ & -> & s & Hreq & ->).
        split.
        { cbn [flat_map]. rewrite (turnOf_fulfilled c s Hreq).
          eexists. rewrite <- !app_assoc. cbn [app]. reflexivity. }
        split; [cbn; lia|]. split.
        * intros Hn. rewrite (paced_turnsOf pre _ Hn).
          cbn [paced]. rewrite Nat.eqb_refl. reflexivity.
        * pose proof (wakes_bound suf). cbn [length]. lia. }
  destruct Hnow as (Hprefix & Hone & Hpaced & Hbound).
  split; [exact Hprefix|]. split; [exact Hone|]. split; [exact Hpaced|].
  split; [|split; [exact Hbound|split; [apply turnOf_operation|]]].
  - pose proof (queue_drains n acts g Hinv0 eq_refl) as Hzero.
    pose proof (queueInv_run (repeat (Wake 0) n) acts g Hinv0) as Hinv.
    assert (Hg : g' = queueRun (repeat (Wake 0) n) g).
    { unfold g', g, queueRun. apply fold_left_app. }
    rewrite <- Hg in Hzero, Hinv.
    destruct Hinv as (pre & rest & Hcalls & Hshape).
    rewrite enqueued_app, enqueued_wakes, app_nil_r in Hcalls.
    unfold wakesLeft in Hzero.
    destruct (loops g') as [|l [|l' ls]]; [| |destruct l; contradiction].
    + destruct rest; [|contradiction]. destruct Hshape as (Hp & Hq & Hlog).
      rewrite app_nil_r in Hcalls. unfold agenda. rewrite Hcalls.
      split; [exact Hlog|]. split; [exact Hq|]. split; [reflexivity|exact Hp].
    + destruct l as [it|]; [|lia]. pose proof (wakesOf_bounds it). lia.
  - intros calls.
    exact (proj1 (proj2 (proj2 (drain_fifo_paced json JSON_parse calls)))).
Qed.

End QueueFacts.

(** A request that rejects lands in [catch], past the delay, and the next
    unit is started at once: the log is not paced, and the delay does not
    follow every unit. *)
Lemma rejected_unit_skips_delay :
  let boom := mkQueueItem 1 (throw unit networkDown) in
  let next := mkQueueItem 2 (item_of noJson (GenerateText "Merhaba") chatty) in
  log (queueRun [Enqueue boom; Enqueue next; Wake 0] (idle unit))
  = [Started 1; Finished 1 None true; Started 2]
  /\ ~ delayAfterEveryUnit [Enqueue boom; Enqueue next; Wake 0].
Proof.
  split; [reflexivity|]. unfold delayAfterEveryUnit. vm_compute. discriminate.
Qed.

(** [processQueue] itself waits only after a request that fulfils: a request
    that throws lands in [catch], past the delay, and the next unit starts
    at once.  No item built by the exported operations does so
    ([item_of_fulfils]). *)
Remark throwing_request_skips_delay :
  let next := mkQueueItem 2 (item_of noJson (GenerateText "Merhaba") chatty) in
  let g := mkGateway unit [next] true
             [AwaitingRequest (mkQueueItem 1 (throw unit networkDown))]
             [Started 1] in
  log (resume unit 0 g) = [Started 1; Finished 1 None true; Started 2].
Proof. reflexivity. Qed.

End GeminiFacts.

(** * Properties of the question schedulers *)

Module SchedulerFacts.
Import Js.
Local Open Scope list_scope.

(** ** Auxiliary facts *)

Lemma Qltb_lt (a b : Q) : Qltb a b = true <-> (a < b)%Q.
Proof.
  unfold Qltb. rewrite negb_true_iff. split.
  - intros H. apply Qnot_le_lt. intros Hle.
    apply Qle_bool_iff in Hle. congruence.
  - intros Hlt. destruct (Qle_bool b a) eqn:E; [|reflexivity].
    apply Qle_bool_iff in E. exfalso. exact (Qlt_not_le _ _ Hlt E).
Qed.

Lemma array_includes_In (xs : list string) (x : string) :
  array_includes xs x = true <-> In x xs.
Proof.
  unfold array_includes. rewrite existsb_exists. split.
  - intros (y & Hin & Heq). apply String.eqb_eq in Heq. now subst.
  - intros Hin. exists x. split; [exact Hin|apply String.eqb_refl].
Qed.

Lemma array_includes_not_In (xs : list string) (x : string) :
  array_includes xs x = false <-> ~ In x xs.
Proof.
  rewrite <- array_includes_In. destruct (array_includes xs x); split;
    intros H; try reflexivity; try discriminate; try (intros H'; discriminate).
  exfalso. apply H. reflexivity.
Qed.

Section FirstMatch.

Context {A : Type}.

(** [Array.prototype.find] returns the first element, in list order, on
    which the callback is truthy. *)
Lemma find_firstMatch (f : A -> bool) (l : list A) (x : A) :
  find f l = Some x <-> firstMatch (fun y => f y = true) l x.
Proof.
  induction l as [|a l IH]; cbn [find].
  - split; [discriminate|]. intros (pre & post & H & _).
    destruct pre; discriminate H.
  - destruct (f a) eqn:Ea.
    + split.
      * intros [= ->]. exists [], l. repeat split; [exact Ea|intros y []].
      * intros (pre & post & Hl & Hx & Hpre). destruct pre as [|b pre].
        -- cbn in Hl. congruence.
        -- cbn in Hl. injection Hl as <- _. exfalso.
           apply (Hpre a); [left; reflexivity|exact Ea].
    + rewrite IH. split.
      * intros (pre & post & -> & Hx & Hpre). exists (a :: pre), post.
        repeat split; [exact Hx|].
        intros y [<-|Hin]; [congruence|apply Hpre, Hin].
      * intros (pre & post & Hl & Hx & Hpre). destruct pre as [|b pre].
        -- cbn in Hl. injection Hl as -> _. congruence.
        -- cbn in Hl. injection Hl as <- ->. exists pre, post.
           repeat split; [exact Hx|]. intros y Hin. apply Hpre. right. exact Hin.
Qed.

Lemma find_pointwise (f g : A -> bool) (l : list A) :
  (forall x, f x = g x) -> find f l = find g l.
Proof.
  intros Hfg. induction l as [|a l IH]; [reflexivity|].
  cbn [find]. rewrite Hfg, IH. reflexivity.
Qed.

Lemma firstMatch_ext (P P' : A -> Prop) (l : list A) (x : A) :
  (forall y, P y <-> P' y) -> firstMatch P l x <-> firstMatch P' l x.
Proof.
  intros Hext. unfold firstMatch. split;
    intros (pre & post & Hl & Hx & Hpre); exists pre, post;
    (split; [exact Hl|split; [apply Hext, Hx|]]);
    intros y Hin Hy; apply (Hpre y Hin), Hext, Hy.
Qed.

End FirstMatch.

(** ** Activation rule *)

Lemma firstMatch_ext_in {A : Type} (P P' : A -> Prop) (l : list A) (x : A) :
  (forall y, In y l -> (P y <-> P' y)) -> firstMatch P l x <-> firstMatch P' l x.
Proof.
  intros Hext. unfold firstMatch. split;
    intros (pre & post & Hl & Hx & Hpre); exists pre, post;
    (split; [exact Hl|]);
    assert (Hin : forall y, In y (pre ++ [x]) -> In y l)
      by (intros y Hy; rewrite Hl; apply in_app_iff;
          apply in_app_iff in Hy as [Hy|[<-|[]]];
          [left; exact Hy|right; left; reflexivity]);
    (split; [apply Hext; [apply Hin, in_app_iff; right; left; reflexivity|exact Hx]|]);
    intros y Hy HPy; apply (Hpre y Hy);
    apply Hext; [apply Hin, in_app_iff; left; exact Hy| |
                 apply Hin, in_app_iff; left; exact Hy|]; exact HPy.
Qed.

Lemma findDue_firstMatch (qs : list InteractiveQuestion) (P : Q)
    (Q0 : InteractiveQuestion) :
  LessonDetailPage.findDue qs P = Some Q0
  <-> firstMatch (fun q => LessonDetailPage.withinTolerance (timestamp q) P = true)
        qs Q0.
Proof. unfold LessonDetailPage.findDue. apply find_firstMatch. Qed.

(** The page's test holds exactly when the real difference is less than 2
    by more than half a quantum. *)
Lemma withinTolerance_real (ts P : Q) :
  LessonDetailPage.withinTolerance ts P = true
  <-> (Qabs (ts - P) < Double.almostTwo)%Q.
Proof. apply DoubleFacts.sub_below_two. Qed.

(** On whole seconds the difference is computed exactly. *)
Lemma withinTolerance_whole (ts P : Q) :
  wholeSeconds ts -> wholeSeconds P ->
  LessonDetailPage.withinTolerance ts P = true <-> (Qabs (ts - P) < 2)%Q.
Proof.
  intros (a & Ha & Hab) (b & Hb & Hbb).
  unfold LessonDetailPage.withinTolerance.
  rewrite (DoubleFacts.sub_whole (Double.Finite ts) (Double.Finite P) a b Ha Hb)
    by (change (2 ^ 53)%Z with (2 ^ 52 + 2 ^ 52)%Z; lia).
  cbn [Double.abs Double.ltb]. rewrite Qltb_lt.
  assert (Hd : (ts - P == inject_Z (a - b))%Q).
  { rewrite Ha, Hb. unfold Z.sub. rewrite inject_Z_plus, inject_Z_opp. reflexivity. }
  rewrite Hd. reflexivity.
Qed.

Lemma questionToShow_firstMatch (qs : list InteractiveQuestion)
    (answered : list string) (t : Q) (Q0 : InteractiveQuestion) :
  VideoPlayer.questionToShow qs answered t = Some Q0
  <-> firstMatch (fun q => (timestamp q == inject_Z (Qfloor t))%Q
                           /\ ~ In (id q) answered) qs Q0.
Proof.
  unfold VideoPlayer.questionToShow. rewrite find_firstMatch.
  apply firstMatch_ext. intros q.
  rewrite andb_true_iff, negb_true_iff, Qeq_bool_iff, array_includes_not_In.
  reflexivity.
Qed.

(** C1 (amended). The check of [LessonDetailPage] activates [Q0] exactly
    when it sees no modal shown and [Q0] is the first question, in list
    order, on which the page's test [Math.abs(q.timestamp - P) < 2] holds,
    the difference being the double the page computes.  The test holds
    exactly when the timestamp is less than [2 - 2^-53] seconds from the
    sampled position; for timestamps and positions that are whole seconds,
    exactly when it is less than 2 seconds from it.  The check then shows
    the modal and pauses.  No answered set is consulted.  The check of
    [VideoPlayer] activates [Q0] exactly when [Q0] is the first question, in
    list order, whose timestamp equals the floor of the sampled position
    and whose id is not in the answered list; it then pauses. *)
Theorem activation_first_match :
  (forall qs P shown Q0,
     LessonDetailPage.activated (Some (LessonDetailPage.mkLesson (Some qs))) P shown
       = Some Q0
     <-> shown = false
         /\ firstMatch
              (fun q => LessonDetailPage.withinTolerance (timestamp q) P = true) qs Q0)
  /\ (forall qs P shown Q0,
        LessonDetailPage.activated (Some (LessonDetailPage.mkLesson (Some qs))) P shown
          = Some Q0
        <-> shown = false
            /\ firstMatch
                 (fun q => (Qabs (timestamp q - P) < Double.almostTwo)%Q) qs Q0)
  /\ (forall qs P shown Q0,
        wholeSeconds P ->
        Forall (fun q => wholeSeconds (timestamp q)) qs ->
        (LessonDetailPage.activated (Some (LessonDetailPage.mkLesson (Some qs))) P shown
           = Some Q0
         <-> shown = false
             /\ firstMatch (fun q => (Qabs (timestamp q - P) < 2)%Q) qs Q0))
  /\ (forall qs P shown st,
        LessonDetailPage.questionCheck
          (Some (LessonDetailPage.mkLesson (Some qs))) P shown st
        = match LessonDetailPage.activated
                  (Some (LessonDetailPage.mkLesson (Some qs))) P shown with
          | Some q =>
              LessonDetailPage.mkState (Some q) true
                (LessonDetailPage.selectedAnswer st) (LessonDetailPage.isAnswering st)
                (LessonDetailPage.showExplanation st) (LessonDetailPage.aiExplanation st)
                (LessonDetailPage.videoProgress st) false
          | None => st
          end)
  /\ (forall qs answered t Q0,
        VideoPlayer.questionToShow qs answered t = Some Q0
        <-> firstMatch (fun q => (timestamp q == inject_Z (Qfloor t))%Q
                                 /\ ~ In (id q) answered) qs Q0)
  /\ (forall qs t st,
        VideoPlayer.intervalCallback qs t st
        = match VideoPlayer.questionToShow qs (VideoPlayer.answeredQuestions st) t with
          | Some q =>
              VideoPlayer.mkState (VideoPlayer.player st) (Some q)
                (VideoPlayer.answeredQuestions st) false (VideoPlayer.playerRef st)
          | None => st
          end).
Proof.
  assert (Hpage : forall qs P shown Q0,
            LessonDetailPage.activated
              (Some (LessonDetailPage.mkLesson (Some qs))) P shown = Some Q0
            <-> shown = false
                /\ firstMatch
                     (fun q => LessonDetailPage.withinTolerance (timestamp q) P = true)
                     qs Q0).
  { intros qs P shown Q0. unfold LessonDetailPage.activated.
    cbn [LessonDetailPage.interactive_questions].
    destruct shown; cbn [negb].
    - split; [discriminate|]. intros [H _]. discriminate H.
    - rewrite findDue_firstMatch. tauto. }
  split; [exact Hpage|]. split; [|split; [|split; [|split]]].
  - intros qs P shown Q0. rewrite Hpage.
    rewrite (firstMatch_ext
               (fun q => LessonDetailPage.withinTolerance (timestamp q) P = true)
               (fun q => (Qabs (timestamp q - P) < Double.almostTwo)%Q) qs Q0);
      [reflexivity|].
    intros q. apply withinTolerance_real.
  - intros qs P shown Q0 HP Hqs. rewrite Hpage.
    rewrite (firstMatch_ext_in
               (fun q => LessonDetailPage.withinTolerance (timestamp q) P = true)
               (fun q => (Qabs (timestamp q - P) < 2)%Q) qs Q0); [reflexivity|].
    intros q Hin. apply withinTolerance_whole; [|exact HP].
    rewrite Forall_forall in Hqs. apply (Hqs q Hin).
  - intros qs P shown st.
    unfold LessonDetailPage.questionCheck, LessonDetailPage.activated.
    cbn [LessonDetailPage.interactive_questions].
    destruct (LessonDetailPage.findDue qs P), shown; reflexivity.
  - exact questionToShow_firstMatch.
  - intros qs t st. reflexivity.
Qed.

Lemma wholeSeconds_inject_Z (z : Z) : (Z.abs z < 2 ^ 52)%Z -> wholeSeconds (inject_Z z).
Proof. intros H. exists z. split; [reflexivity|exact H]. Qed.

Lemma activation_first_match_witness :
  wholeSeconds 0
  /\ Forall (fun q => wholeSeconds (timestamp q)) [qIntro; qWarmup]
  /\ LessonDetailPage.activated openingLesson 0 false = Some qIntro.
Proof.
  assert (H0 : wholeSeconds 0) by (apply (wholeSeconds_inject_Z 0); reflexivity).
  assert (Hqs : Forall (fun q => wholeSeconds (timestamp q)) [qIntro; qWarmup]).
  { repeat constructor.
    - exact H0.
    - apply (wholeSeconds_inject_Z 1). reflexivity. }
  split; [exact H0|]. split; [exact Hqs|].
  apply (proj1 (proj2 (proj2 activation_first_match))
           [qIntro; qWarmup] 0%Q false qIntro H0 Hqs).
  split; [reflexivity|].
  exists [], [qWarmup]. split; [reflexivity|]. split; [reflexivity|intros y []].
Defined.

(** The shipped page samples position 0.  With a lesson that opens with
    questions at 0 s and 1 s, the first of which has already been answered,
    the specified rule would activate the second; the check activates the
    first. *)
Lemma activation_not_as_specified :
  ~ activationAsSpecified (LessonDetailPage.activated openingLesson 0 false)
      [qIntro; qWarmup] 0 true ["intro"].
Proof.
  intros H.
  assert (HB : LessonDetailPage.activated openingLesson 0 false = Some qWarmup).
  { apply (H qWarmup); [right; left; reflexivity|].
    split; [reflexivity|]. split; [reflexivity|].
    intros [Hin|[]]. discriminate Hin. }
  vm_compute in HB. discriminate HB.
Qed.

(** The same at a position further into the lesson. *)
Example activation_not_as_specified_at_30 :
  ~ activationAsSpecified (LessonDetailPage.activated sampleLesson 30 false)
      [qA; qB; qC] 30 true ["a"].
Proof.
  intros H.
  assert (HB : LessonDetailPage.activated sampleLesson 30 false = Some qB).
  { apply (H qB); [right; left; reflexivity|].
    split; [reflexivity|]. split; [reflexivity|].
    intros [Hin|[]]. discriminate Hin. }
  vm_compute in HB. discriminate HB.
Qed.

(** A difference that is not a double is rounded before it is compared: a
    question at 2.5 s is not due at the position just above 0.5 s, although
    it is less than 2 s away: it is not less than [2 - 2^-53] s away. *)
Example withinTolerance_rounds :
  let P := (4503599627370497 # 9007199254740992)%Q in
  (Qabs ((5 # 2) - P) < 2)%Q
  /\ LessonDetailPage.withinTolerance (5 # 2) P = false.
Proof. split; [reflexivity|vm_compute; reflexivity]. Qed.

(** The tolerance is strict: a question at 30 s is due at 29, 30 and 31 s
    (and between), not at 28 or 32 s. *)
Example findDue_tolerance :
  map (LessonDetailPage.findDue [qA]) [28; 29; 30; 31; (63 # 2); 32]%Q
  = [None; Some qA; Some qA; Some qA; Some qA; None].
Proof. reflexivity. Qed.

(** [VideoPlayer] compares the floor of the position with the timestamp. *)
Example questionToShow_exact :
  map (VideoPlayer.questionToShow [qA] []) [29; 30; (61 # 2); 31]%Q
  = [None; Some qA; Some qA; None].
Proof. reflexivity. Qed.

(** ** One question at a time *)

(** The check of [LessonDetailPage] leaves everything as it is when it sees
    the modal shown. *)
Lemma questionCheck_guarded (lesson : option LessonDetailPage.Lesson) (P : Q)
    (st : LessonDetailPage.State) :
  LessonDetailPage.questionCheck lesson P true st = st.
Proof.
  unfold LessonDetailPage.questionCheck.
  destruct lesson as [[[qs|]]|]; cbn [LessonDetailPage.interactive_questions];
    try reflexivity.
  destruct (LessonDetailPage.findDue qs P); reflexivity.
Qed.

(** C5. After any sequence of position samples, marker selections, answer
    selections, submissions and closes, each view renders the modal of at
    most one question; and a check of the page that sees the modal shown
    changes nothing. *)
Theorem at_most_one_displayed :
  (forall (json : Type) (JSON_parse : string -> option json)
          (lessonId : option string) (lesson : option LessonDetailPage.Lesson)
          (evs : list (LessonDetailPage.Event)) (st : LessonDetailPage.State),
     length (LessonDetailPage.displayed
               (LessonDetailPage.run json JSON_parse lessonId lesson evs st)) <= 1)
  /\ (forall (questions : list InteractiveQuestion) (customEmbedUrl : string)
             (evs : list VideoPlayer.Event) (st : VideoPlayer.State),
        length (VideoPlayer.displayed
                  (VideoPlayer.run questions customEmbedUrl evs st)) <= 1)
  /\ (forall (lesson : option LessonDetailPage.Lesson) (P : Q)
             (st : LessonDetailPage.State),
        LessonDetailPage.questionCheck lesson P true st = st).
Proof.
  split; [|split].
  - intros. unfold LessonDetailPage.displayed.
    destruct (LessonDetailPage.showQuestionModal _); [|cbn; lia].
    destruct (LessonDetailPage.currentQuestion _); cbn; lia.
  - intros. unfold VideoPlayer.displayed.
    destruct (VideoPlayer.activeQuestion _); cbn; lia.
  - exact questionCheck_guarded.
Qed.


(** ** Answers in [VideoPlayer] *)

Section VideoPlayerFacts.

Variable questions : list InteractiveQuestion.
Variable customEmbedUrl : string.

(** A question picked by the check is not in the answered list. *)
Lemma questionToShow_unanswered (answered : list string) (t : Q)
    (q : InteractiveQuestion) :
  VideoPlayer.questionToShow questions answered t = Some q ->
  ~ In (id q) answered.
Proof.
  unfold VideoPlayer.questionToShow. intros H. apply find_some in H as [_ H].
  apply andb_true_iff in H as [_ H]. apply negb_true_iff in H.
  apply array_includes_not_In, H.
Qed.

Lemma activeUnanswered_step (st : VideoPlayer.State) (e : VideoPlayer.Event) :
  VideoPlayer.activeUnanswered st -> VideoPlayer.activeUnanswered (VideoPlayer.step questions customEmbedUrl st e).
Proof.
  unfold VideoPlayer.activeUnanswered. intros Hinv q.
  destruct st as [pl act ans playing ref].
  destruct e as [t|[|]| | |]; cbn [VideoPlayer.step];
    unfold VideoPlayer.tick, VideoPlayer.intervalCallback, VideoPlayer.handleAnswer,
      VideoPlayer.onClose, VideoPlayer.togglePlay, VideoPlayer.handleSeek;
    cbn [VideoPlayer.player VideoPlayer.activeQuestion VideoPlayer.answeredQuestions
         VideoPlayer.isPlaying VideoPlayer.playerRef] in *.
  - destruct (pl && playing); [|apply Hinv].
    destruct (VideoPlayer.questionToShow questions ans t) as [q'|] eqn:E;
      cbn [VideoPlayer.activeQuestion VideoPlayer.answeredQuestions]; [|apply Hinv].
    intros [= <-]. eapply questionToShow_unanswered, E.
  - destruct act; cbn [fst VideoPlayer.activeQuestion VideoPlayer.answeredQuestions];
      [discriminate|apply Hinv].
  - destruct act; cbn [fst VideoPlayer.activeQuestion VideoPlayer.answeredQuestions];
      [discriminate|apply Hinv].
  - discriminate.
  - apply Hinv.
  - apply Hinv.
Qed.

Lemma activeUnanswered_run (evs : list VideoPlayer.Event) :
  forall st, VideoPlayer.activeUnanswered st -> VideoPlayer.activeUnanswered (VideoPlayer.run questions customEmbedUrl evs st).
Proof.
  induction evs as [|e evs IH]; intros st Hinv; [exact Hinv|].
  apply IH, activeUnanswered_step, Hinv.
Qed.

Lemma settled_step (x : string) (st : VideoPlayer.State) (e : VideoPlayer.Event) :
  VideoPlayer.isWrongAnswer e = false ->
  VideoPlayer.settled x st -> VideoPlayer.settled x (VideoPlayer.step questions customEmbedUrl st e).
Proof.
  unfold VideoPlayer.settled. intros Hok [Hin Hact].
  destruct st as [pl act ans playing ref].
  destruct e as [t|[|]| | |]; try discriminate Hok; cbn [VideoPlayer.step];
    unfold VideoPlayer.tick, VideoPlayer.intervalCallback, VideoPlayer.handleAnswer,
      VideoPlayer.onClose, VideoPlayer.togglePlay, VideoPlayer.handleSeek;
    cbn [VideoPlayer.player VideoPlayer.activeQuestion VideoPlayer.answeredQuestions
         VideoPlayer.isPlaying VideoPlayer.playerRef] in *.
  - destruct (pl && playing); [|split; assumption].
    destruct (VideoPlayer.questionToShow questions ans t) as [q'|] eqn:E;
      cbn [VideoPlayer.activeQuestion VideoPlayer.answeredQuestions];
      [|split; assumption].
    split; [exact Hin|]. intros q [= <-] Heq.
    apply (questionToShow_unanswered _ _ _ E). rewrite Heq. exact Hin.
  - destruct act; cbn [fst VideoPlayer.activeQuestion VideoPlayer.answeredQuestions];
      [|split; assumption].
    split; [apply in_or_app; left; exact Hin|discriminate].
  - split; [exact Hin|discriminate].
  - split; assumption.
  - split; assumption.
Qed.

Lemma settled_run (x : string) (evs : list VideoPlayer.Event) :
  forall st,
    forallb (fun e => negb (VideoPlayer.isWrongAnswer e)) evs = true ->
    VideoPlayer.settled x st -> VideoPlayer.settled x (VideoPlayer.run questions customEmbedUrl evs st).
Proof.
  induction evs as [|e evs IH]; intros st Hok Hs; [exact Hs|].
  cbn [forallb] in Hok. apply andb_true_iff in Hok as [He Hok].
  apply negb_true_iff in He.
  apply IH; [exact Hok|]. apply settled_step; assumption.
Qed.

(** C6 (amended). In [VideoPlayer], at any point of a session that started
    with no question on screen, a correct answer to the active question
    appends its id to the answered list, where it then occurs exactly once,
    closes the modal and resumes playback; as long as no wrong answer is
    submitted afterwards, the id stays in the list and neither the check
    nor anything else makes the question active again, wherever the
    position goes. *)
Theorem correct_answer_recorded (st0 : VideoPlayer.State)
    (evs0 evs : list VideoPlayer.Event) (q : InteractiveQuestion) :
  VideoPlayer.activeQuestion st0 = None ->
  VideoPlayer.activeQuestion (VideoPlayer.run questions customEmbedUrl evs0 st0)
    = Some q ->
  forallb (fun e => negb (VideoPlayer.isWrongAnswer e)) evs = true ->
  let st := VideoPlayer.run questions customEmbedUrl evs0 st0 in
  let st1 := fst (VideoPlayer.handleAnswer customEmbedUrl true st) in
  let st2 := VideoPlayer.run questions customEmbedUrl evs st1 in
  VideoPlayer.answeredQuestions st1 = VideoPlayer.answeredQuestions st ++ [id q]
  /\ count_occ string_dec (VideoPlayer.answeredQuestions st1) (id q) = 1
  /\ VideoPlayer.activeQuestion st1 = None
  /\ VideoPlayer.isPlaying st1 = true
  /\ In (id q) (VideoPlayer.answeredQuestions st2)
  /\ VideoPlayer.activeQuestion st2 <> Some q
  /\ (forall t,
        VideoPlayer.questionToShow questions (VideoPlayer.answeredQuestions st2) t
        <> Some q).
Proof.
  intros Hnone Hact Hok st st1 st2. fold st in Hact.
  assert (Hnew : ~ In (id q) (VideoPlayer.answeredQuestions st)).
  { apply (activeUnanswered_run evs0 st0); [|exact Hact].
    intros q' Hq'. congruence. }
  assert (H1 : st1 = VideoPlayer.mkState (VideoPlayer.player st) None
                       (VideoPlayer.answeredQuestions st ++ [id q]) true
                       (VideoPlayer.playerRef st)).
  { unfold st1, VideoPlayer.handleAnswer. rewrite Hact. reflexivity. }
  assert (Hs : VideoPlayer.settled (id q) st2).
  { apply settled_run; [exact Hok|]. rewrite H1. split.
    - cbn. apply in_or_app. right. left. reflexivity.
    - cbn. discriminate. }
  rewrite H1. cbn [VideoPlayer.answeredQuestions VideoPlayer.activeQuestion
                   VideoPlayer.isPlaying].
  split; [reflexivity|]. split.
  { rewrite count_occ_app. apply (count_occ_not_In string_dec) in Hnew.
    rewrite Hnew. cbn. destruct (string_dec (id q) (id q)); [reflexivity|congruence]. }
  split; [reflexivity|]. split; [reflexivity|].
  split; [exact (proj1 Hs)|]. split.
  - intros Hq. exact (proj2 Hs q Hq eq_refl).
  - intros t Hq. apply (questionToShow_unanswered _ _ _ Hq). exact (proj1 Hs).
Qed.

(** C10. A wrong answer to the active question empties the answered list,
    points the mounted iframe at the embed URL again, closes the modal and
    resumes playback; afterwards no question is excluded by the check,
    which picks the first question at the sampled second. *)
Theorem wrong_answer_resets (st : VideoPlayer.State) (q : InteractiveQuestion) :
  VideoPlayer.activeQuestion st = Some q ->
  let st' := fst (VideoPlayer.handleAnswer customEmbedUrl false st) in
  VideoPlayer.answeredQuestions st' = []
  /\ VideoPlayer.playerRef st'
     = option_map (fun _ => customEmbedUrl) (VideoPlayer.playerRef st)
  /\ VideoPlayer.activeQuestion st' = None
  /\ VideoPlayer.isPlaying st' = true
  /\ forallb (fun q' => negb (array_includes (VideoPlayer.answeredQuestions st') (id q')))
       questions = true
  /\ (forall t,
        VideoPlayer.questionToShow questions (VideoPlayer.answeredQuestions st') t
        = find (fun q' => Qeq_bool (timestamp q') (inject_Z (Qfloor t))) questions).
Proof.
  intros Hact st'.
  assert (H1 : st' = VideoPlayer.mkState (VideoPlayer.player st) None [] true
                       (option_map (fun _ => customEmbedUrl) (VideoPlayer.playerRef st))).
  { unfold st', VideoPlayer.handleAnswer. rewrite Hact. reflexivity. }
  rewrite H1. cbn [VideoPlayer.answeredQuestions VideoPlayer.activeQuestion
                   VideoPlayer.isPlaying VideoPlayer.playerRef].
  split; [reflexivity|]. split; [reflexivity|]. split; [reflexivity|].
  split; [reflexivity|]. split.
  - apply forallb_forall. intros q' _. reflexivity.
  - intros t. unfold VideoPlayer.questionToShow.
    apply find_pointwise. intros q'. cbn. apply andb_true_r.
Qed.

End VideoPlayerFacts.

Lemma correct_answer_recorded_witness :
  VideoPlayer.activeQuestion playing = None
  /\ VideoPlayer.run [qA; qC] sampleEmbedUrl [VideoPlayer.Tick 30] playing = showingA
  /\ VideoPlayer.activeQuestion showingA = Some qA
  /\ VideoPlayer.answeredQuestions
       (fst (VideoPlayer.handleAnswer sampleEmbedUrl true showingA)) = ["a"]
  /\ VideoPlayer.activeQuestion
       (VideoPlayer.run [qA; qC] sampleEmbedUrl
          [VideoPlayer.Seek; VideoPlayer.Tick 28; VideoPlayer.Tick 29;
           VideoPlayer.Tick 30; VideoPlayer.Tick 31; VideoPlayer.Tick 32]
          (fst (VideoPlayer.handleAnswer sampleEmbedUrl true showingA)))
     <> Some qA.
Proof.
  assert (H0 : VideoPlayer.activeQuestion playing = None) by reflexivity.
  assert (H1 : VideoPlayer.activeQuestion
                 (VideoPlayer.run [qA; qC] sampleEmbedUrl [VideoPlayer.Tick 30] playing)
               = Some qA) by reflexivity.
  pose proof (correct_answer_recorded [qA; qC] sampleEmbedUrl playing
                [VideoPlayer.Tick 30]
                [VideoPlayer.Seek; VideoPlayer.Tick 28; VideoPlayer.Tick 29;
                 VideoPlayer.Tick 30; VideoPlayer.Tick 31; VideoPlayer.Tick 32]
                qA H0 H1 eq_refl) as (Ha & _ & _ & _ & _ & Hb & _).
  split; [exact H0|]. split; [reflexivity|]. split; [exact H1|].
  split; [exact Ha|exact Hb].
Defined.

(** After the correct answer to [qA], a wrong answer to [qC] empties the
    answered list, and the next pass over second 30 activates [qA] again. *)
Lemma answered_question_retriggers :
  ~ VideoPlayer.staysAnswered [qA; qB; qC] sampleEmbedUrl showingA qA.
Proof.
  intros H.
  apply (H [VideoPlayer.Tick 120; VideoPlayer.Answer false; VideoPlayer.Tick 30]).
  reflexivity.
Qed.

Lemma wrong_answer_resets_witness :
  VideoPlayer.activeQuestion showingC = Some qC
  /\ VideoPlayer.answeredQuestions showingC = ["a"]
  /\ VideoPlayer.answeredQuestions
       (fst (VideoPlayer.handleAnswer sampleEmbedUrl false showingC)) = []
  /\ VideoPlayer.questionToShow [qA; qC]
       (VideoPlayer.answeredQuestions
          (fst (VideoPlayer.handleAnswer sampleEmbedUrl false showingC))) 30
     = Some qA.
Proof.
  assert (H1 : VideoPlayer.activeQuestion showingC = Some qC) by reflexivity.
  pose proof (wrong_answer_resets [qA; qC] sampleEmbedUrl showingC qC H1)
    as (Ha & _ & _ & _ & _ & Hb).
  split; [exact H1|]. split; [reflexivity|]. split; [exact Ha|].
  rewrite Hb. reflexivity.
Defined.

(** ** Answers in [LessonDetailPage] *)

Section PageFacts.

Variable json : Type.
Variable JSON_parse : string -> option json.
Variable lessonId : option string.

(** C7 (amended). A wrong answer submitted by a signed-in user (an option is
    selected, a question is current, the user id is known) requests exactly
    one explanation and then inserts exactly one mistake record carrying
    the text the explanation handle resolved with; without user data the
    submission is ignored.  [VideoPlayer] runs no explanation flow, and its
    wrong answer adds nothing to the answered list. *)
Theorem wrong_answer_explained_once (u : LessonDetailPage.UserData)
    (remote : Gemini.Remote) (insertThrows : bool)
    (st : LessonDetailPage.State) (q : InteractiveQuestion) :
  LessonDetailPage.currentQuestion st = Some q ->
  LessonDetailPage.truthy (LessonDetailPage.selectedAnswer st) = true ->
  LessonDetailPage.truthy (LessonDetailPage.userData_id u) = true ->
  LessonDetailPage.selectedAnswer st <> correctAnswer q ->
  let es := snd (LessonDetailPage.handleAnswerSubmit json JSON_parse lessonId
                   (Some u) remote insertThrows st) in
  countEffects isRequestExplanation es = 1
  /\ countEffects isInsertMistake es = 1
  /\ (exists text rest,
        Gemini.generateAIExplanation json JSON_parse (question q) (options q)
          (correctAnswer q) (LessonDetailPage.selectedAnswer st) remote
        = Some (Gemini.Resolved (Gemini.VText text))
        /\ es = RequestExplanation (question q) (options q) (correctAnswer q)
                  (LessonDetailPage.selectedAnswer st)
                :: InsertMistake
                     (mkMistake (LessonDetailPage.userData_id u) lessonId q
                        (LessonDetailPage.selectedAnswer st) (correctAnswer q) text)
                :: rest)
  /\ LessonDetailPage.handleAnswerSubmit json JSON_parse lessonId None remote
       insertThrows st = (st, [])
  /\ (forall url b vst,
        countEffects isRequestExplanation (snd (VideoPlayer.handleAnswer url b vst)) = 0)
  /\ (forall url vst,
        incl (VideoPlayer.answeredQuestions (fst (VideoPlayer.handleAnswer url false vst)))
             (VideoPlayer.answeredQuestions vst)).
Proof.
  intros Hq Hsel Hu Hwrong es.
  destruct (GeminiFacts.generateAIExplanation_text json JSON_parse (question q)
              (options q) (correctAnswer q) (LessonDetailPage.selectedAnswer st) remote)
    as [text Htext].
  assert (Hneq : String.eqb (LessonDetailPage.selectedAnswer st) (correctAnswer q) = false)
    by (apply String.eqb_neq, Hwrong).
  assert (Hes : es = RequestExplanation (question q) (options q) (correctAnswer q)
                       (LessonDetailPage.selectedAnswer st)
                     :: InsertMistake
                          (mkMistake (LessonDetailPage.userData_id u) lessonId q
                             (LessonDetailPage.selectedAnswer st) (correctAnswer q) text)
                     :: (if insertThrows
                         then [ConsoleError; ToastError "AI açıklaması oluşturulamadı"]
                         else [ToastError "Yanlış cevap! Açıklamayı okuyun."])).
  { unfold es, LessonDetailPage.handleAnswerSubmit.
    rewrite Hq, Hsel, Hu, Hneq, Htext. cbn [andb negb LessonDetailPage.text_of].
    destruct insertThrows; reflexivity. }
  split; [rewrite Hes; destruct insertThrows; reflexivity|].
  split; [rewrite Hes; destruct insertThrows; reflexivity|].
  split; [exists text; eexists; split; [exact Htext|exact Hes]|].
  split.
  { unfold LessonDetailPage.handleAnswerSubmit.
    destruct (LessonDetailPage.currentQuestion st); reflexivity. }
  split.
  - intros url b vst. unfold VideoPlayer.handleAnswer.
    destruct (VideoPlayer.activeQuestion vst); [destruct b|]; reflexivity.
  - intros url vst. unfold VideoPlayer.handleAnswer.
    destruct (VideoPlayer.activeQuestion vst); cbn [fst VideoPlayer.answeredQuestions].
    + intros x [].
    + apply incl_refl.
Qed.

(** A correct answer on the page only reports success: the modal stays as
    it is, and nothing records the question as answered. *)
Lemma correct_answer_on_page (u : LessonDetailPage.UserData)
    (remote : Gemini.Remote) (insertThrows : bool)
    (st : LessonDetailPage.State) (q : InteractiveQuestion) :
  LessonDetailPage.currentQuestion st = Some q ->
  LessonDetailPage.truthy (LessonDetailPage.selectedAnswer st) = true ->
  LessonDetailPage.truthy (LessonDetailPage.userData_id u) = true ->
  LessonDetailPage.selectedAnswer st = correctAnswer q ->
  LessonDetailPage.handleAnswerSubmit json JSON_parse lessonId (Some u) remote
    insertThrows st
  = (LessonDetailPage.setAnswering false st,
     [ToastSuccess "Doğru cevap! +15 XP kazandınız!"]).
Proof.
  intros Hq Hsel Hu Hright. unfold LessonDetailPage.handleAnswerSubmit.
  rewrite Hq, Hsel, Hu, Hright, String.eqb_refl. reflexivity.
Qed.

End PageFacts.

Lemma wrong_answer_explained_once_witness :
  LessonDetailPage.currentQuestion wrongPick = Some qA
  /\ LessonDetailPage.truthy (LessonDetailPage.selectedAnswer wrongPick) = true
  /\ LessonDetailPage.truthy (LessonDetailPage.userData_id (LessonDetailPage.mkUserData "u1")) = true
  /\ LessonDetailPage.selectedAnswer wrongPick <> correctAnswer qA
  /\ countEffects isRequestExplanation
       (snd (LessonDetailPage.handleAnswerSubmit unit Gemini.noJson (Some "l1")
               sampleUser Gemini.unreachable false wrongPick)) = 1
  /\ countEffects isInsertMistake
       (snd (LessonDetailPage.handleAnswerSubmit unit Gemini.noJson (Some "l1")
               sampleUser Gemini.unreachable false wrongPick)) = 1.
Proof.
  assert (H1 : LessonDetailPage.currentQuestion wrongPick = Some qA) by reflexivity.
  assert (H2 : LessonDetailPage.truthy (LessonDetailPage.selectedAnswer wrongPick) = true)
    by reflexivity.
  assert (H3 : LessonDetailPage.truthy
                 (LessonDetailPage.userData_id (LessonDetailPage.mkUserData "u1")) = true)
    by reflexivity.
  assert (H4 : LessonDetailPage.selectedAnswer wrongPick <> correctAnswer qA)
    by discriminate.
  pose proof (wrong_answer_explained_once unit Gemini.noJson (Some "l1")
                (LessonDetailPage.mkUserData "u1") Gemini.unreachable false
                wrongPick qA H1 H2 H3 H4) as (Ha & Hb & _).
  split; [exact H1|]. split; [exact H2|]. split; [exact H3|]. split; [exact H4|].
  split; [exact Ha|exact Hb].
Defined.

(** Without user data the submission of a wrong answer is dropped: no
    explanation is requested. *)
Lemma wrong_answer_ignored_without_user :
  ~ LessonDetailPage.explanationFlowOnce unit Gemini.noJson (Some "l1") None
      Gemini.unreachable false wrongPick.
Proof.
  intros H.
  destruct (H qA eq_refl eq_refl ltac:(discriminate)) as [H1 _].
  cbn in H1. discriminate H1.
Qed.

(** On the page, a question answered correctly comes up again at the next
    check near its timestamp. *)
Example page_retriggers_after_correct_answer :
  let run := LessonDetailPage.run unit Gemini.noJson (Some "l1") sampleLesson in
  let answered :=
    run [LessonDetailPage.Tick 30 false; LessonDetailPage.SelectAnswer "4";
         LessonDetailPage.Submit sampleUser Gemini.chatty false;
         LessonDetailPage.CloseModal] LessonDetailPage.initial in
  LessonDetailPage.displayed answered = []
  /\ LessonDetailPage.displayed (run [LessonDetailPage.Tick 30 false] answered) = [qA].
Proof. split; reflexivity. Qed.

End SchedulerFacts.

(** * Further properties of the gateway *)

Module GatewayExtras.
Import Js Gemini.
Local Open Scope list_scope.

(** ** [retryWithBackoff] for any [maxRetries] *)

(** While [i] counts up to [maxRetries]: the attempts made are consecutive,
    there is at least one if an iteration remains, the sleeps are those of
    all attempts but the last, and the loop does not fall through. *)
Lemma retryLoop_shape (fn : Remote) (m : nat) :
  forall rem i,
    i + rem = m ->
    let n := length (calls (fst (retryLoop fn m rem i))) in
    calls (fst (retryLoop fn m rem i)) = seq i n
    /\ n <= rem
    /\ (1 <= rem -> 1 <= n)
    /\ sleeps (fst (retryLoop fn m rem i)) = map (fun a => 2 ^ a * 1000) (seq i (n - 1))
    /\ (1 <= rem -> snd (retryLoop fn m rem i) <> ReturnUndefined).
Proof.
  induction rem as [|rem IH]; intros i Hm; cbn [retryLoop].
  - cbn. repeat split; try lia.
  - destruct (fn i) as [text|e].
    + cbn. repeat split; try lia; discriminate.
    + destruct (rateLimited e && (i <? m - 1)) eqn:Hretry.
      * apply andb_true_iff in Hretry as [_ Hlt]. apply Nat.ltb_lt in Hlt.
        specialize (IH (S i) ltac:(lia)).
        destruct (retryLoop fn m rem (S i)) as [evs r].
        cbn [fst snd] in *. cbn [calls sleeps flat_map app] in *.
        fold (calls evs) in *. fold (sleeps evs) in *.
        destruct IH as (Hc & Hle & Hpos & Hs & Hdef).
        cbn [length]. set (n' := length (calls evs)) in *.
        assert (1 <= n') by (apply Hpos; lia).
        split; [cbn [seq]; rewrite Hc at 1; reflexivity|].
        split; [lia|]. split; [lia|]. split.
        -- replace (S n' - 1) with (S (n' - 1)) by lia.
           cbn [seq map]. rewrite Hs. reflexivity.
        -- intros _. apply Hdef. lia.
      * cbn. repeat split; try lia; discriminate.
Qed.

(** X1. For every [maxRetries] and every remote behaviour, the wrapper calls
    attempts 0, 1, .. in order, at most [maxRetries] of them and at least
    one unless [maxRetries] is 0; it returns [undefined] exactly when
    [maxRetries] is 0, without calling anything. *)
Theorem retryWithBackoff_attempts (fn : Remote) (maxRetries : nat) :
  let n := length (calls (fst (retryWithBackoff fn maxRetries))) in
  calls (fst (retryWithBackoff fn maxRetries)) = seq 0 n
  /\ n <= maxRetries
  /\ Nat.min 1 maxRetries <= n
  /\ ((maxRetries =? 0) = true <-> snd (retryWithBackoff fn maxRetries) = ReturnUndefined).
Proof.
  intros n. unfold retryWithBackoff in *.
  destruct (retryLoop_shape fn maxRetries maxRetries 0 eq_refl)
    as (Hc & Hle & Hpos & _ & Hdef).
  fold n in Hc, Hle, Hpos.
  split; [exact Hc|]. split; [exact Hle|]. split.
  - destruct maxRetries; [cbn; lia|]. cbn [Nat.min]. apply Hpos. lia.
  - split.
    + intros H. apply Nat.eqb_eq in H. subst. reflexivity.
    + intros H. apply Nat.eqb_eq. destruct maxRetries; [reflexivity|].
      exfalso. apply Hdef; [lia|exact H].
Qed.

(** X2. The sleeps are determined by the number of attempts: attempt [a] is
    followed by a sleep of [2^a * 1000] ms unless it is the last one made.
    With the default of three attempts the wrapper never sleeps more than
    3000 ms in total. *)
Theorem retryWithBackoff_sleeps (fn : Remote) (maxRetries : nat) :
  sleeps (fst (retryWithBackoff fn maxRetries))
    = map (fun a => 2 ^ a * 1000)
        (seq 0 (length (calls (fst (retryWithBackoff fn maxRetries))) - 1))
  /\ list_sum (sleeps (fst (retryWithBackoff fn defaultMaxRetries))) <= 3000.
Proof.
  split.
  - unfold retryWithBackoff.
    exact (proj1 (proj2 (proj2 (proj2
             (retryLoop_shape fn maxRetries maxRetries 0 eq_refl))))).
  - unfold retryWithBackoff.
    destruct (retryLoop_shape fn defaultMaxRetries defaultMaxRetries 0 eq_refl)
      as (_ & Hle & _ & Hs & _).
    rewrite Hs.
    set (n := length (calls (fst (retryLoop fn defaultMaxRetries defaultMaxRetries 0)))) in *.
    clearbody n. unfold defaultMaxRetries in Hle.
    destruct n as [|[|[|[|n]]]]; cbn; lia.
Qed.

Lemma retryLoop_throws_last (fn : Remote) (m : nat) (e : Error) :
  forall rem i,
    snd (retryLoop fn m rem i) = Throw e ->
    exists j, i <= j < i + rem /\ fn j = Fails e.
Proof.
  induction rem as [|rem IH]; intros i; cbn [retryLoop].
  - discriminate.
  - destruct (fn i) as [text|e'] eqn:Hi; [discriminate|].
    destruct (rateLimited e' && (i <? m - 1)).
    + specialize (IH (S i)). destruct (retryLoop fn m rem (S i)) as [evs r].
      cbn [snd] in *. intros H. destruct (IH H) as (j & Hj & Hf).
      exists j. split; [lia|exact Hf].
    + cbn [snd]. intros [= <-]. exists i. split; [lia|exact Hi].
Qed.

(** ** The operations as callers see them *)

Section OperationExtras.

Variable json : Type.
Variable JSON_parse : string -> option json.

Ltac unfold_item :=
  unfold generateText, analyzeImage, generateAIExplanation,
    generateQuestionFromContent, outcome, item_of, generateText_item,
    analyzeImage_item, generateAIExplanation_item,
    generateQuestionFromContent_item, tryCatch, bind, await_retryWithBackoff.

Lemma calls_app (l1 l2 : list Event) : calls (l1 ++ l2) = calls l1 ++ calls l2.
Proof. apply flat_map_app. Qed.

(** The remote calls an operation makes are those of its retry wrapper. *)
Lemma item_calls (op : Operation) (remote : Remote) :
  calls (trace (fst (item_of JSON_parse op remote (freshItem json))))
  = calls (fst (retryWithBackoff remote defaultMaxRetries)).
Proof.
  destruct op; unfold_item;
    destruct (retryWithBackoff remote defaultMaxRetries) as [evs [text|e|]];
    cbn [fst snd freshItem trace handle app];
    unfold resolve, reject, settle, emit, parse, ret, throw, tryCatch, bind, value_of;
    cbn [trace handle fst snd];
    repeat match goal with
           | |- context [if ?b then _ else _] => destruct b
           | |- context [match JSON_parse ?t with _ => _ end] => destruct (JSON_parse t)
           end;
    cbn [trace handle fst snd]; rewrite ?calls_app, ?app_nil_r; reflexivity.
Qed.

(** X3. Every exported operation, whatever the remote does, settles its
    promise (it is never left pending), completes its queued arrow without
    throwing, and calls the remote at most three times. *)
Theorem operations_always_settle (op : Operation) (remote : Remote) :
  (exists o, outcome JSON_parse op remote = Some o)
  /\ snd (item_of JSON_parse op remote (freshItem json)) = inl tt
  /\ length (calls (trace (fst (item_of JSON_parse op remote (freshItem json))))) <= 3.
Proof.
  split; [|split].
  - pose proof (GeminiFacts.outcome_settled json JSON_parse op remote) as H.
    destruct (outcome JSON_parse op remote) as [o|]; [exists o; reflexivity|contradiction].
  - apply GeminiFacts.item_of_fulfils.
  - rewrite item_calls.
    apply (GeminiFacts.retryLoop_calls_bound remote defaultMaxRetries defaultMaxRetries 0).
Qed.

(** X4. Free-text chat and image analysis reject only with an error that
    carries neither the 429 nor the quota marker, and that error is the one
    the remote gave to one of the (at most three) attempts. *)
Theorem rejection_is_unclassified (remote : Remote) (e : Error)
    (prompt imageBase64 mimeType : string) :
  generateText json JSON_parse prompt remote = Some (Rejected e)
  \/ analyzeImage json JSON_parse prompt imageBase64 mimeType remote = Some (Rejected e) ->
  quotaClassified e = false
  /\ exists j, j < defaultMaxRetries /\ remote j = Fails e.
Proof.
  rewrite GeminiFacts.generateText_outcome, GeminiFacts.analyzeImage_outcome.
  pose proof (retryLoop_throws_last remote defaultMaxRetries e defaultMaxRetries 0) as Hlast.
  unfold retryWithBackoff in *.
  destruct (snd (retryLoop remote defaultMaxRetries defaultMaxRetries 0)) as [t|e'|].
  - intros [H|H]; discriminate H.
  - assert (He : (if quotaClassified e'
                  then @Resolved json (VText (getOfflineResponse chat))
                  else Rejected e') = Rejected e
                 \/ (if quotaClassified e'
                     then @Resolved json (VText (getOfflineResponse image))
                     else Rejected e') = Rejected e
                 -> quotaClassified e' = false /\ e' = e).
    { destruct (quotaClassified e'); intros [H|H]; try discriminate H;
        injection H as ->; split; reflexivity. }
    intros H.
    destruct He as [Hq ->]; [destruct H as [H|H]; injection H as H; auto|].
    split; [exact Hq|]. destruct (Hlast eq_refl) as (j & Hj & Hf).
    exists j. split; [lia|exact Hf].
  - intros [H|H]; discriminate H.
Qed.

(** X5. An error whose message mentions the quota but not 429 is not
    retried, yet it is answered with the offline text: chat, image analysis
    and explanation make a single call, sleep never, and resolve with the
    offline message of their tag; quiz generation rejects with the error. *)
Theorem quota_error_not_retried (remote : Remote) (e : Error)
    (prompt imageBase64 mimeType question correctAnswer userAnswer content subject : string)
    (options : list string) :
  remote 0 = Fails e ->
  message_includes e "429" = false ->
  message_includes e "quota" = true ->
  retryWithBackoff remote defaultMaxRetries = ([EvCall 0], Throw e)
  /\ generateText json JSON_parse prompt remote
     = Some (Resolved (VText (getOfflineResponse chat)))
  /\ analyzeImage json JSON_parse prompt imageBase64 mimeType remote
     = Some (Resolved (VText (getOfflineResponse image)))
  /\ generateAIExplanation json JSON_parse question options correctAnswer userAnswer remote
     = Some (Resolved (VText (getOfflineResponse explanation)))
  /\ generateQuestionFromContent json JSON_parse content subject remote
     = Some (Rejected e).
Proof.
  intros H0 H429 Hquota.
  assert (Hr : retryWithBackoff remote defaultMaxRetries = ([EvCall 0], Throw e)).
  { unfold retryWithBackoff, defaultMaxRetries. cbn [retryLoop].
    unfold rateLimited. rewrite H0, H429. reflexivity. }
  assert (Hq : quotaClassified e = true).
  { unfold quotaClassified. rewrite H429, Hquota. reflexivity. }
  rewrite GeminiFacts.generateText_outcome, GeminiFacts.analyzeImage_outcome,
    GeminiFacts.generateAIExplanation_outcome,
    GeminiFacts.generateQuestionFromContent_outcome.
  rewrite Hr. cbn [snd]. rewrite Hq. repeat split.
Qed.

End OperationExtras.

Lemma rejection_is_unclassified_witness :
  generateText unit noJson "Merhaba" unreachable = Some (Rejected networkDown)
  /\ quotaClassified networkDown = false
  /\ exists j, j < defaultMaxRetries /\ unreachable j = Fails networkDown.
Proof.
  assert (H : generateText unit noJson "Merhaba" unreachable = Some (Rejected networkDown))
    by reflexivity.
  split; [exact H|].
  exact (rejection_is_unclassified unit noJson unreachable networkDown
           "Merhaba" "" "" (or_introl H)).
Defined.

Lemma quota_error_not_retried_witness :
  overQuota 0 = Fails quotaExceeded
  /\ message_includes quotaExceeded "429" = false
  /\ message_includes quotaExceeded "quota" = true
  /\ generateText unit noJson "Merhaba" overQuota
     = Some (Resolved (VText (getOfflineResponse chat))).
Proof.
  split; [reflexivity|]. split; [reflexivity|]. split; [reflexivity|].
  exact (proj1 (proj2 (quota_error_not_retried unit noJson overQuota quotaExceeded
                         "Merhaba" "" "" "" "" "" "" "" [] eq_refl eq_refl eq_refl))).
Defined.

(** ** The drain loop serves the schedule *)

Section ScheduleFacts.

Variable json : Type.
Variable JSON_parse : string -> option json.

Lemma callsOf_app (a1 a2 : list Action) :
  callsOf (a1 ++ a2) = callsOf a1 ++ callsOf a2.
Proof. apply flat_map_app. Qed.

Lemma callsOf_resumes (n : nat) (k : nat) : callsOf (repeat (Resume k) n) = [].
Proof. induction n as [|n IH]; [reflexivity|exact IH]. Qed.

Lemma turns_snoc (pre : list (nat * Operation * Remote)) (c : nat * Operation * Remote) :
  flat_map (turnOfCall JSON_parse) (pre ++ [c])
  = flat_map (turnOfCall JSON_parse) pre
    ++ [Started (fst (fst c));
        Finished (fst (fst c)) (outcome JSON_parse (snd (fst c)) (snd c)) false;
        Delayed RATE_LIMIT_DELAY].
Proof. rewrite flat_map_app. cbn [flat_map]. rewrite app_nil_r. reflexivity. Qed.

Lemma request_itemOfCall (c : nat * Operation * Remote) :
  request (itemOfCall JSON_parse c) (freshItem json)
  = (fst (request (itemOfCall JSON_parse c) (freshItem json)), inl tt)
  /\ handle (fst (request (itemOfCall JSON_parse c) (freshItem json)))
     = outcome JSON_parse (snd (fst c)) (snd c).
Proof.
  split; [|reflexivity].
  pose proof (GeminiFacts.item_of_fulfils json JSON_parse (snd (fst c)) (snd c)
                (freshItem json)) as H.
  unfold itemOfCall. cbn [request].
  destruct (item_of JSON_parse (snd (fst c)) (snd c) (freshItem json)) as [s r].
  cbn [fst snd] in *. now subst.
Qed.

Lemma scheduleInv_idle : scheduleInv JSON_parse [] (idle json).
Proof. exists [], []. cbn. repeat split. Qed.

Lemma scheduleInv_call acts g t op remote :
  scheduleInv JSON_parse acts g ->
  scheduleInv JSON_parse (acts ++ [Call t op remote])
    (step JSON_parse g (Call t op remote)).
Proof.
  intros (pre & rest & Hcalls & Hshape).
  destruct g as [q p ls lg]. cbn [requestQueue isProcessing loops log] in *.
  unfold scheduleInv, step, addToQueue, processQueue.
  cbn [requestQueue isProcessing loops log].
  rewrite callsOf_app, Hcalls. cbn [callsOf flat_map app].
  destruct ls as [|l [|l' ls]].
  - destruct rest as [|c rest]; [|contradiction].
    destruct Hshape as (-> & -> & ->).
    exists pre, [(t, op, remote)].
    cbn [app length Nat.eqb orb whileHead requestQueue isProcessing loops log
         option_list map tag fst snd].
    split; [rewrite app_nil_r; reflexivity|]. repeat split.
  - destruct l as [it|]; (destruct rest as [|c suf]; [contradiction|]).
    + destruct Hshape as (-> & -> & -> & ->).
      exists pre, (c :: suf ++ [(t, op, remote)]).
      cbn [orb requestQueue isProcessing loops log].
      split; [rewrite <- app_assoc; reflexivity|].
      repeat split. rewrite map_app. reflexivity.
    + destruct Hshape as (-> & -> & ->).
      exists pre, (c :: suf ++ [(t, op, remote)]).
      cbn [orb requestQueue isProcessing loops log].
      split; [rewrite <- app_assoc; reflexivity|].
      repeat split. rewrite map_app. reflexivity.
  - destruct l; contradiction.
Qed.

(** A resumption keeps the gateway on the schedule and, unless the drain is
    idle, takes one of the steps still pending. *)
Lemma scheduleInv_resume acts g k :
  scheduleInv JSON_parse acts g ->
  scheduleInv JSON_parse (acts ++ [Resume k]) (step JSON_parse g (Resume k))
  /\ (k = 0 -> pendingSteps (step JSON_parse g (Resume k)) = pendingSteps g - 1).
Proof.
  intros (pre & rest & Hcalls & Hshape).
  destruct g as [q p ls lg]. cbn [requestQueue isProcessing loops log] in *.
  unfold scheduleInv, step, resume, pendingSteps.
  cbn [requestQueue isProcessing loops log].
  rewrite callsOf_app, Hcalls. cbn [callsOf flat_map]. rewrite app_nil_r.
  destruct ls as [|l [|l' ls]]; [| |destruct l; contradiction].
  - destruct k; cbn [nth_error requestQueue isProcessing loops log].
    + split; [exists pre, rest; split; [reflexivity|exact Hshape]|].
      destruct rest; [|contradiction]. destruct Hshape as (_ & -> & _). reflexivity.
    + split; [exists pre, rest; split; [reflexivity|exact Hshape]|]. discriminate.
  - destruct k as [|k].
    2:{ destruct k; cbn [nth_error requestQueue isProcessing loops log];
          (split; [exists pre, rest; split; [reflexivity|exact Hshape]|discriminate]). }
    cbn [nth_error]. destruct l as [it|]; (destruct rest as [|c suf]; [contradiction|]).
    + destruct Hshape as (-> & -> & -> & ->).
      destruct (request_itemOfCall c) as [Hreq Hh]. rewrite Hreq, Hh.
      cbn [requestQueue isProcessing loops log setLoop firstn skipn option_list app].
      split; [|intros _; lia].
      exists pre, (c :: suf). split; [reflexivity|].
      repeat split. rewrite <- app_assoc. reflexivity.
    + destruct Hshape as (-> & -> & ->).
      unfold whileHead. cbn [requestQueue isProcessing loops log].
      rewrite <- app_assoc. cbn [app].
      rewrite <- turns_snoc.
      destruct suf as [|c1 suf];
        cbn [map requestQueue isProcessing loops log setLoop firstn skipn option_list
             app length].
      * split; [|intros _; reflexivity].
        exists (pre ++ [c]), []. split; [rewrite <- app_assoc; reflexivity|].
        repeat split.
      * split; [|intros _; lia].
        exists (pre ++ [c]), (c1 :: suf). split; [rewrite <- app_assoc; reflexivity|].
        repeat split.
Qed.

Lemma scheduleInv_run :
  forall acts acts0 g,
    scheduleInv JSON_parse acts0 g ->
    scheduleInv JSON_parse (acts0 ++ acts) (run JSON_parse acts g).
Proof.
  induction acts as [|a acts IH]; intros acts0 g Hinv.
  - rewrite app_nil_r. exact Hinv.
  - cbn [run fold_left].
    replace (acts0 ++ a :: acts) with ((acts0 ++ [a]) ++ acts)
      by (rewrite <- app_assoc; reflexivity).
    apply IH. destruct a as [t op remote|k].
    + apply scheduleInv_call, Hinv.
    + apply scheduleInv_resume, Hinv.
Qed.

Lemma drain_completes :
  forall n acts g,
    scheduleInv JSON_parse acts g ->
    pendingSteps g = n ->
    pendingSteps (run JSON_parse (repeat (Resume 0) n) g) = 0.
Proof.
  induction n as [|n IH]; intros acts g Hinv Hn; [exact Hn|].
  cbn [repeat run fold_left].
  destruct (scheduleInv_resume acts g 0 Hinv) as [Hinv' Hdec].
  apply (IH _ _ Hinv'). rewrite (Hdec eq_refl). lia.
Qed.

(** X6. At every moment, the log of the gateway is a prefix of the schedule
    of the calls made so far: units appear in the order of the calls, and
    the handle logged for a unit is the outcome of that call's own
    operation, never another caller's. *)
Theorem log_prefix_of_schedule (acts : list Action) :
  exists rest,
    log (run JSON_parse acts (idle json)) ++ rest = schedule JSON_parse acts.
Proof.
  destruct (scheduleInv_run acts [] (idle json) scheduleInv_idle)
    as (pre & rest & Hcalls & Hshape).
  cbn [app] in Hcalls. unfold schedule. rewrite Hcalls, flat_map_app.
  destruct (loops (run JSON_parse acts (idle json))) as [|l [|l' ls]];
    [| |destruct l; contradiction].
  - destruct rest; [|contradiction]. destruct Hshape as (_ & _ & ->).
    exists []. reflexivity.
  - destruct l as [it|]; (destruct rest as [|c suf]; [contradiction|]).
    + destruct Hshape as (_ & _ & _ & ->).
      eexists. rewrite <- app_assoc. cbn [flat_map turnOfCall turn fst snd app].
      reflexivity.
    + destruct Hshape as (_ & _ & ->).
      eexists. rewrite <- app_assoc. cbn [flat_map turnOfCall turn fst snd app].
      reflexivity.
Qed.

(** X7. No unit is starved: after any sequence of calls and resumptions,
    resuming the drain as often as steps are pending empties the queue,
    ends the drain, and leaves in the log exactly the schedule of all the
    calls made, each with the outcome of its operation. *)
Theorem drain_serves_every_call (acts : list Action) :
  let n := pendingSteps (run JSON_parse acts (idle json)) in
  let g := run JSON_parse (acts ++ repeat (Resume 0) n) (idle json) in
  log g = schedule JSON_parse acts
  /\ requestQueue g = []
  /\ loops g = []
  /\ isProcessing g = false
  /\ n <= 2 * length (callsOf acts).
Proof.
  intros n g.
  pose proof (scheduleInv_run acts [] (idle json) scheduleInv_idle) as Hinv0.
  cbn [app] in Hinv0.
  assert (Hbound : n <= 2 * length (callsOf acts)).
  { destruct Hinv0 as (pre & rest & Hcalls & Hshape).
    unfold n, pendingSteps. rewrite Hcalls, length_app.
    destruct (loops (run JSON_parse acts (idle json))) as [|l [|l' ls]];
      [| |destruct l; contradiction].
    - destruct rest; [|contradiction]. destruct Hshape as (_ & -> & _). cbn. lia.
    - destruct l as [it|]; (destruct rest as [|c suf]; [contradiction|]).
      + destruct Hshape as (_ & _ & -> & _). rewrite length_map. cbn [length]. lia.
      + destruct Hshape as (_ & -> & _). rewrite length_map. cbn [length]. lia. }
  pose proof (drain_completes n acts _ Hinv0 eq_refl) as Hzero.
  pose proof (scheduleInv_run (repeat (Resume 0) n) acts _ Hinv0) as Hinv.
  assert (Hg : g = run JSON_parse (repeat (Resume 0) n) (run JSON_parse acts (idle json))).
  { unfold g, run. apply fold_left_app. }
  rewrite <- Hg in Hzero, Hinv.
  destruct Hinv as (pre & rest & Hcalls & Hshape).
  rewrite callsOf_app, callsOf_resumes, app_nil_r in Hcalls.
  unfold pendingSteps in Hzero.
  destruct (loops g) as [|l [|l' ls]]; [| |destruct l; contradiction].
  - destruct rest; [|contradiction]. destruct Hshape as (Hp & Hq & Hlog).
    rewrite app_nil_r in Hcalls. unfold schedule. rewrite Hcalls in *.
    split; [exact Hlog|]. split; [exact Hq|]. split; [reflexivity|].
    split; [exact Hp|exact Hbound].
  - destruct l; lia.
Qed.

End ScheduleFacts.

End GatewayExtras.

(** * Further properties of the lesson views *)

Module SchedulerExtras.
Import Js.
Local Open Scope list_scope.

(** ** [VideoPlayer] *)

Section VideoPlayerExtras.

Variable questions : list InteractiveQuestion.
Variable customEmbedUrl : string.

Lemma questionToShow_In (answered : list string) (t : Q) (q : InteractiveQuestion) :
  VideoPlayer.questionToShow questions answered t = Some q -> In q questions.
Proof.
  unfold VideoPlayer.questionToShow. intros H. apply find_some in H. tauto.
Qed.

Lemma NoDup_snoc {A : Type} (l : list A) (x : A) :
  NoDup l -> ~ In x l -> NoDup (l ++ [x]).
Proof.
  intros Hl Hx. induction Hl as [|a l Ha Hl IH]; cbn.
  - constructor; [intros []|constructor].
  - constructor.
    + rewrite in_app_iff. intros [H|[H|[]]]; [exact (Ha H)|].
      apply Hx. left. symmetry. exact H.
    + apply IH. intros H. apply Hx. right. exact H.
Qed.

(** X8. In a session that starts with nothing answered and no question on
    screen, the answered list never holds an id twice and holds only ids of
    the lesson's questions; the question on screen, if any, is one of the
    lesson's questions and has not been answered. *)
Theorem answered_list_wellformed (st0 : VideoPlayer.State)
    (evs : list VideoPlayer.Event) :
  VideoPlayer.activeQuestion st0 = None ->
  VideoPlayer.answeredQuestions st0 = [] ->
  let st := VideoPlayer.run questions customEmbedUrl evs st0 in
  NoDup (VideoPlayer.answeredQuestions st)
  /\ incl (VideoPlayer.answeredQuestions st) (map id questions)
  /\ (forall q, VideoPlayer.activeQuestion st = Some q ->
                In q questions /\ ~ In (id q) (VideoPlayer.answeredQuestions st)).
Proof.
  intros Hact Hans. cbv zeta.
  assert (Hinit : NoDup (VideoPlayer.answeredQuestions st0)
                  /\ incl (VideoPlayer.answeredQuestions st0) (map id questions)
                  /\ (forall q, VideoPlayer.activeQuestion st0 = Some q ->
                        In q questions /\ ~ In (id q) (VideoPlayer.answeredQuestions st0))).
  { rewrite Hact, Hans. split; [constructor|]. split; [intros x []|discriminate]. }
  clear Hact Hans. revert st0 Hinit.
  induction evs as [|e evs IH]; intros st Hinv; [exact Hinv|].
  cbn [VideoPlayer.run fold_left]. apply IH. clear IH.
  destruct Hinv as (Hnd & Hincl & Hq).
  destruct st as [pl act ans playing ref].
  destruct e as [t|[|]| | |]; cbn [VideoPlayer.step];
    unfold VideoPlayer.tick, VideoPlayer.intervalCallback, VideoPlayer.handleAnswer,
      VideoPlayer.onClose, VideoPlayer.togglePlay, VideoPlayer.handleSeek;
    cbn [VideoPlayer.player VideoPlayer.activeQuestion VideoPlayer.answeredQuestions
         VideoPlayer.isPlaying VideoPlayer.playerRef] in *.
  - destruct (pl && playing); [|repeat split; assumption || apply Hq; assumption].
    destruct (VideoPlayer.questionToShow questions ans t) as [q'|] eqn:E;
      cbn [VideoPlayer.activeQuestion VideoPlayer.answeredQuestions];
      [|split; [assumption|split; assumption]].
    split; [assumption|]. split; [assumption|].
    intros q [= <-]. split; [eapply questionToShow_In, E|].
    eapply SchedulerFacts.questionToShow_unanswered, E.
  - destruct act as [q|]; cbn [fst VideoPlayer.activeQuestion VideoPlayer.answeredQuestions];
      [|split; [assumption|split; assumption]].
    destruct (Hq q eq_refl) as [Hin Hnew].
    split; [apply NoDup_snoc; assumption|]. split; [|discriminate].
    intros x Hx. apply in_app_or in Hx as [Hx|[<-|[]]]; [apply Hincl, Hx|].
    apply in_map, Hin.
  - destruct act; cbn [fst VideoPlayer.activeQuestion VideoPlayer.answeredQuestions];
      [|split; [assumption|split; assumption]].
    split; [constructor|]. split; [intros x []|discriminate].
  - split; [assumption|]. split; [assumption|discriminate].
  - split; [assumption|split; assumption].
  - split; [assumption|split; assumption].
Qed.

(** X9. When the check finds a due question while the video plays, the
    question comes on screen and playback stops; from then on no further
    check, at whatever positions, changes anything. *)
Theorem question_blocks_playback (st : VideoPlayer.State) (t : Q)
    (q : InteractiveQuestion) (ts : list Q) :
  VideoPlayer.player st = true ->
  VideoPlayer.isPlaying st = true ->
  VideoPlayer.questionToShow questions (VideoPlayer.answeredQuestions st) t = Some q ->
  let st1 := VideoPlayer.tick questions t st in
  VideoPlayer.activeQuestion st1 = Some q
  /\ VideoPlayer.isPlaying st1 = false
  /\ VideoPlayer.run questions customEmbedUrl (map VideoPlayer.Tick ts) st1 = st1.
Proof.
  intros Hpl Hplay Hdue st1.
  assert (H1 : st1 = VideoPlayer.mkState (VideoPlayer.player st) (Some q)
                       (VideoPlayer.answeredQuestions st) false (VideoPlayer.playerRef st)).
  { unfold st1, VideoPlayer.tick, VideoPlayer.intervalCallback.
    rewrite Hpl, Hplay, Hdue. reflexivity. }
  rewrite H1. split; [reflexivity|]. split; [reflexivity|].
  induction ts as [|t' ts IH]; [reflexivity|].
  cbn [map VideoPlayer.run fold_left VideoPlayer.step].
  unfold VideoPlayer.tick at 1. cbn [VideoPlayer.player VideoPlayer.isPlaying].
  rewrite andb_false_r. exact IH.
Qed.

(** X10. Closing the modal is not an answer: the answered list stays as it
    was, and once playback is resumed the next check at the same position
    brings the same question back. *)
Theorem closing_does_not_skip (st : VideoPlayer.State) (t : Q)
    (q : InteractiveQuestion) :
  VideoPlayer.player st = true ->
  VideoPlayer.isPlaying st = true ->
  VideoPlayer.questionToShow questions (VideoPlayer.answeredQuestions st) t = Some q ->
  let st1 := VideoPlayer.tick questions t st in
  let closed := VideoPlayer.onClose st1 in
  VideoPlayer.answeredQuestions closed = VideoPlayer.answeredQuestions st
  /\ VideoPlayer.activeQuestion closed = None
  /\ VideoPlayer.isPlaying closed = false
  /\ VideoPlayer.tick questions t (VideoPlayer.togglePlay closed) = st1.
Proof.
  intros Hpl Hplay Hdue st1 closed.
  assert (H1 : st1 = VideoPlayer.mkState (VideoPlayer.player st) (Some q)
                       (VideoPlayer.answeredQuestions st) false (VideoPlayer.playerRef st)).
  { unfold st1, VideoPlayer.tick, VideoPlayer.intervalCallback.
    rewrite Hpl, Hplay, Hdue. reflexivity. }
  unfold closed. rewrite H1.
  unfold VideoPlayer.onClose, VideoPlayer.togglePlay, VideoPlayer.tick,
    VideoPlayer.intervalCallback.
  cbn [VideoPlayer.player VideoPlayer.activeQuestion VideoPlayer.answeredQuestions
       VideoPlayer.isPlaying VideoPlayer.playerRef negb].
  rewrite Hpl, Hdue. repeat split.
Qed.

End VideoPlayerExtras.

Lemma answered_list_wellformed_witness :
  VideoPlayer.activeQuestion playing = None
  /\ VideoPlayer.answeredQuestions playing = []
  /\ NoDup (VideoPlayer.answeredQuestions
              (VideoPlayer.run [qA; qC] sampleEmbedUrl
                 [VideoPlayer.Tick 30; VideoPlayer.Answer true; VideoPlayer.Tick 30;
                  VideoPlayer.Tick 120; VideoPlayer.Answer true] playing)).
Proof.
  split; [reflexivity|]. split; [reflexivity|].
  exact (proj1 (answered_list_wellformed [qA; qC] sampleEmbedUrl playing
                  [VideoPlayer.Tick 30; VideoPlayer.Answer true; VideoPlayer.Tick 30;
                   VideoPlayer.Tick 120; VideoPlayer.Answer true] eq_refl eq_refl)).
Defined.

Lemma question_blocks_playback_witness :
  VideoPlayer.player playing = true
  /\ VideoPlayer.isPlaying playing = true
  /\ VideoPlayer.questionToShow [qA; qC] (VideoPlayer.answeredQuestions playing) 30
     = Some qA
  /\ VideoPlayer.run [qA; qC] sampleEmbedUrl
       (map VideoPlayer.Tick [31; 120; 30]%Q) (VideoPlayer.tick [qA; qC] 30 playing)
     = VideoPlayer.tick [qA; qC] 30 playing.
Proof.
  split; [reflexivity|]. split; [reflexivity|]. split; [reflexivity|].
  exact (proj2 (proj2 (question_blocks_playback [qA; qC] sampleEmbedUrl playing 30 qA
                         [31; 120; 30]%Q eq_refl eq_refl eq_refl))).
Defined.

Lemma closing_does_not_skip_witness :
  VideoPlayer.player playing = true
  /\ VideoPlayer.isPlaying playing = true
  /\ VideoPlayer.questionToShow [qA; qC] (VideoPlayer.answeredQuestions playing) 30
     = Some qA
  /\ VideoPlayer.tick [qA; qC] 30
       (VideoPlayer.togglePlay (VideoPlayer.onClose (VideoPlayer.tick [qA; qC] 30 playing)))
     = VideoPlayer.tick [qA; qC] 30 playing.
Proof.
  split; [reflexivity|]. split; [reflexivity|]. split; [reflexivity|].
  exact (proj2 (proj2 (proj2 (closing_does_not_skip [qA; qC] playing 30 qA
                                eq_refl eq_refl eq_refl)))).
Defined.

(** ** [formatTime] *)

Lemma two_digit_seconds (s : Z) :
  (0 <= s < 60)%Z ->
  String.length (VideoPlayer.padStart2 (VideoPlayer.decimal s)) = 2.
Proof.
  intros Hs. rewrite <- (Z2Nat.id s) by lia.
  assert (Hn : Z.to_nat s < 60) by lia.
  set (n := Z.to_nat s) in *. clearbody n.
  do 60 (destruct n as [|n]; [reflexivity|]). lia.
Qed.

(** X11. For a position that is a double, not negative and below [2^53],
    the time label is the whole minutes, a colon and the whole seconds below
    60 written with exactly two digits; minutes and seconds together are
    the position rounded down.  [toString] is only assumed to print a whole
    number that a double holds exactly as its decimal digits. *)
Theorem formatTime_minutes_seconds (Number_toString : Double.number -> string)
    (seconds : Q) :
  VideoPlayer.printsWholeNumbers Number_toString ->
  Double.isDouble seconds ->
  (0 <= seconds)%Q ->
  (seconds < inject_Z (2 ^ 53))%Q ->
  let m := (Qfloor seconds / 60)%Z in
  let s := (Qfloor seconds mod 60)%Z in
  VideoPlayer.formatTime Number_toString (Double.Finite seconds)
  = (VideoPlayer.decimal m ++ ":"
     ++ VideoPlayer.padStart2 (VideoPlayer.decimal s))%string
  /\ String.length (VideoPlayer.padStart2 (VideoPlayer.decimal s)) = 2
  /\ (0 <= m)%Z /\ (0 <= s < 60)%Z /\ (60 * m + s = Qfloor seconds)%Z.
Proof.
  intros Hprint Hdbl Hpos Hbound m s.
  pose proof (Qfloor_le seconds) as Hf1. pose proof (Qlt_floor seconds) as Hf2.
  rewrite inject_Z_plus in Hf2. change (inject_Z 1) with 1%Q in Hf2.
  assert (Hn : (0 <= Qfloor seconds)%Z).
  { change 0%Z with (Qfloor 0). apply Qfloor_resp_le, Hpos. }
  assert (Hn53 : (Qfloor seconds < 2 ^ 53)%Z).
  { rewrite Zlt_Qlt. apply (Qle_lt_trans _ seconds); assumption. }
  assert (Hs : (0 <= s < 60)%Z) by (apply Z.mod_pos_bound; lia).
  assert (Hm : (0 <= m)%Z) by (apply Z.div_pos; lia).
  assert (Hdiv : (Qfloor seconds = 60 * m + s)%Z) by (apply Z.div_mod; lia).
  assert (HdivQ : (inject_Z (Qfloor seconds) == 60 * inject_Z m + inject_Z s)%Q).
  { rewrite Hdiv, inject_Z_plus, inject_Z_mult. reflexivity. }
  assert (Hs1 : (0 <= inject_Z s)%Q).
  { change (inject_Z 0 <= inject_Z s)%Q. rewrite <- Zle_Qle. lia. }
  assert (Hs2 : (inject_Z s <= 59)%Q).
  { change (inject_Z s <= inject_Z 59)%Q. rewrite <- Zle_Qle. lia. }
  assert (Hy : (seconds == 60 * (seconds / 60))%Q) by field.
  assert (Hmins : Double.floor (Double.div (Double.Finite seconds) (Double.Finite 60))
                  = Double.Finite (inject_Z m)).
  { apply (DoubleFacts.floor_div_double seconds 60 60 Hdbl);
      [reflexivity|split; [lia|reflexivity]|exact Hpos|].
    rewrite DoubleFacts.pow2_Z by lia. exact Hbound. }
  assert (Htrunc : Double.truncate (seconds / 60) = m).
  { unfold Double.truncate.
    assert (Hle : Qle_bool 0 (seconds / 60) = true).
    { apply Qle_bool_iff. set (y := (seconds / 60)%Q) in *. clearbody y. lra. }
    rewrite Hle. apply DoubleFacts.Qfloor_unique;
      set (M := inject_Z m) in *; set (S := inject_Z s) in *;
      set (F := inject_Z (Qfloor seconds)) in *; set (y := (seconds / 60)%Q) in *;
      clearbody M S F y; lra. }
  assert (Hsecs : Double.floor (Double.rem (Double.Finite seconds) (Double.Finite 60))
                  = Double.Finite (inject_Z s)).
  { cbn [Double.rem Double.floor].
    assert (H60 : Qeq_bool 60 0 = false) by reflexivity.
    rewrite H60, Htrunc. cbn [Double.floor]. f_equal. f_equal.
    apply DoubleFacts.Qfloor_unique; rewrite Qred_correct;
      set (M := inject_Z m) in *; set (S := inject_Z s) in *;
      set (F := inject_Z (Qfloor seconds)) in *; clearbody M S F; lra. }
  unfold VideoPlayer.formatTime. rewrite Hmins, Hsecs.
  assert (Hm53 : (m < 2 ^ 53)%Z).
  { assert (m <= Qfloor seconds)%Z; [|lia]. apply Z.div_le_upper_bound; lia. }
  rewrite (Hprint m) by lia. rewrite (Hprint s) by lia.
  split; [reflexivity|]. split; [apply two_digit_seconds, Hs|].
  split; [exact Hm|]. split; [exact Hs|]. lia.
Qed.

Lemma wholeToString_prints : VideoPlayer.printsWholeNumbers wholeToString.
Proof. intros z _. cbn [wholeToString]. rewrite Qfloor_Z. reflexivity. Qed.

Lemma formatTime_minutes_seconds_witness :
  VideoPlayer.printsWholeNumbers wholeToString
  /\ Double.isDouble (3725 # 10)
  /\ (0 <= 3725 # 10)%Q
  /\ (3725 # 10 < inject_Z (2 ^ 53))%Q
  /\ VideoPlayer.formatTime wholeToString (Double.Finite (3725 # 10)) = "6:12".
Proof.
  assert (Hd : Double.isDouble (3725 # 10)) by (vm_compute; reflexivity).
  assert (H0 : (0 <= 3725 # 10)%Q) by (cbv; intros H; discriminate H).
  assert (Hb : (3725 # 10 < inject_Z (2 ^ 53))%Q) by reflexivity.
  split; [exact wholeToString_prints|]. split; [exact Hd|].
  split; [exact H0|]. split; [exact Hb|].
  rewrite (proj1 (formatTime_minutes_seconds wholeToString (3725 # 10)
                    wholeToString_prints Hd H0 Hb)).
  reflexivity.
Defined.

(** The label of a whole minute and of the second before it. *)
Example formatTime_minute_boundary :
  map (fun z => VideoPlayer.formatTime wholeToString (Double.Finite (inject_Z z)))
      [59; 60; 3599; 3600]%Z
  = ["0:59"; "1:00"; "59:59"; "60:00"].
Proof. vm_compute. reflexivity. Qed.

(** ** [LessonDetailPage] *)

Section PageExtras.

Variable json : Type.
Variable JSON_parse : string -> option json.
Variable lessonId : option string.

(** X12. Whatever is submitted, by whomever and however the AI service
    answers: a mistake record is written only for the question on screen,
    with the selected answer, which differs from the correct one, under a
    non-empty user id, and with the explanation text that the modal then
    shows; at most one explanation is requested and at most one record
    written, and none without a request. *)
Theorem mistake_records_are_mistakes (userData : option LessonDetailPage.UserData)
    (remote : Gemini.Remote) (insertThrows : bool) (st : LessonDetailPage.State)
    (r : MistakeRecord) :
  let res := LessonDetailPage.handleAnswerSubmit json JSON_parse lessonId userData
               remote insertThrows st in
  In (InsertMistake r) (snd res) ->
  (exists q u,
     LessonDetailPage.currentQuestion st = Some q
     /\ userData = Some u
     /\ r = mkMistake (LessonDetailPage.userData_id u) lessonId q
              (LessonDetailPage.selectedAnswer st) (correctAnswer q)
              (LessonDetailPage.aiExplanation (fst res))
     /\ LessonDetailPage.selectedAnswer st <> correctAnswer q
     /\ LessonDetailPage.userData_id u <> ""
     /\ LessonDetailPage.showExplanation (fst res) = true)
  /\ countEffects isInsertMistake (snd res) = 1
  /\ countEffects isRequestExplanation (snd res) = 1.
Proof.
  cbv zeta. unfold LessonDetailPage.handleAnswerSubmit.
  destruct (LessonDetailPage.currentQuestion st) as [q|]; [|intros []].
  destruct userData as [u|]; [|intros []].
  destruct (LessonDetailPage.truthy (LessonDetailPage.selectedAnswer st)); [|intros []].
  destruct (LessonDetailPage.truthy (LessonDetailPage.userData_id u)) eqn:Hu; [|intros []].
  cbn [andb].
  destruct (String.eqb (LessonDetailPage.selectedAnswer st) (correctAnswer q)) eqn:Heq;
    cbn [negb].
  { intros [H|[]]. discriminate H. }
  apply String.eqb_neq in Heq.
  assert (Hid : LessonDetailPage.userData_id u <> "").
  { unfold LessonDetailPage.truthy in Hu. apply negb_true_iff in Hu.
    apply String.eqb_neq, Hu. }
  destruct (Gemini.generateAIExplanation json JSON_parse (question q) (options q)
              (correctAnswer q) (LessonDetailPage.selectedAnswer st) remote)
    as [[v|e]|].
  - destruct insertThrows; cbn [fst snd In];
      (intros [H|[H|H]]; [discriminate H| |];
       [injection H as <-; split; [exists q, u; repeat split; assumption|];
        split; reflexivity
       |destruct H as [H|[H|[]]] || destruct H as [H|[]]; discriminate H]).
  - cbn [snd In]. intros [H|[H|[H|[]]]]; discriminate H.
  - cbn [snd In]. intros [H|[]]. discriminate H.
Qed.

(** X13. A submission never closes the modal and never resumes the video:
    the question, the modal flag, the selected option, the position and the
    playing flag are what they were, whatever the outcome. *)
Theorem submission_keeps_modal (userData : option LessonDetailPage.UserData)
    (remote : Gemini.Remote) (insertThrows : bool) (st : LessonDetailPage.State) :
  let st' := fst (LessonDetailPage.handleAnswerSubmit json JSON_parse lessonId
                    userData remote insertThrows st) in
  LessonDetailPage.currentQuestion st' = LessonDetailPage.currentQuestion st
  /\ LessonDetailPage.showQuestionModal st' = LessonDetailPage.showQuestionModal st
  /\ LessonDetailPage.selectedAnswer st' = LessonDetailPage.selectedAnswer st
  /\ LessonDetailPage.videoProgress st' = LessonDetailPage.videoProgress st
  /\ LessonDetailPage.isVideoPlaying st' = LessonDetailPage.isVideoPlaying st
  /\ LessonDetailPage.displayed st' = LessonDetailPage.displayed st.
Proof.
  cbv zeta. unfold LessonDetailPage.handleAnswerSubmit, LessonDetailPage.displayed.
  destruct (LessonDetailPage.currentQuestion st) as [q|] eqn:Hq;
    [|cbn [fst]; rewrite ?Hq; repeat split].
  destruct userData as [u|]; [|cbn [fst]; rewrite ?Hq; repeat split].
  destruct (LessonDetailPage.truthy (LessonDetailPage.selectedAnswer st)
            && LessonDetailPage.truthy (LessonDetailPage.userData_id u));
    [|cbn [fst]; rewrite ?Hq; repeat split].
  destruct (negb (String.eqb (LessonDetailPage.selectedAnswer st) (correctAnswer q)));
    [|cbn; rewrite ?Hq; repeat split].
  destruct (Gemini.generateAIExplanation json JSON_parse (question q) (options q)
              (correctAnswer q) (LessonDetailPage.selectedAnswer st) remote)
    as [[v|e]|]; [destruct insertThrows| |]; cbn; rewrite ?Hq; repeat split.
Qed.

Lemma submission_keeps_question (userData : option LessonDetailPage.UserData)
    (remote : Gemini.Remote) (insertThrows : bool) (st : LessonDetailPage.State) :
  LessonDetailPage.currentQuestion
    (fst (LessonDetailPage.handleAnswerSubmit json JSON_parse lessonId userData
            remote insertThrows st))
  = LessonDetailPage.currentQuestion st.
Proof.
  unfold LessonDetailPage.handleAnswerSubmit.
  destruct (LessonDetailPage.currentQuestion st) as [q|] eqn:Hq; [|exact Hq].
  destruct userData as [u|]; [|exact Hq].
  destruct (_ && _); [|exact Hq].
  destruct (negb _); [|cbn; exact Hq].
  destruct (Gemini.generateAIExplanation _ _ _ _ _ _ _) as [[v|e]|];
    [destruct insertThrows| |]; cbn; rewrite ?Hq; reflexivity.
Qed.

Variable lesson : option LessonDetailPage.Lesson.

Lemma findDue_In (qs : list InteractiveQuestion) (P : Q) (q : InteractiveQuestion) :
  LessonDetailPage.findDue qs P = Some q -> In q qs.
Proof.
  unfold LessonDetailPage.findDue. intros H. apply find_some in H. tauto.
Qed.

(** X14. Starting from the initial state of the page, with marker clicks on
    the lesson's own markers, every question ever displayed is one of the
    lesson's questions; a lesson without questions never displays any. *)
Theorem displayed_belongs_to_lesson (evs : list LessonDetailPage.Event)
    (q : InteractiveQuestion) :
  LessonDetailPage.markersFromLesson lesson evs ->
  In q (LessonDetailPage.displayed
          (LessonDetailPage.run json JSON_parse lessonId lesson evs
             LessonDetailPage.initial)) ->
  In q (LessonDetailPage.lessonQuestions lesson).
Proof.
  intros Hmark Hin.
  assert (Hinv : forall st,
             (forall q', LessonDetailPage.currentQuestion st = Some q' ->
                         In q' (LessonDetailPage.lessonQuestions lesson)) ->
             LessonDetailPage.markersFromLesson lesson evs ->
             forall q', LessonDetailPage.currentQuestion
                          (LessonDetailPage.run json JSON_parse lessonId lesson evs st)
                        = Some q' ->
                        In q' (LessonDetailPage.lessonQuestions lesson)).
  { clear. induction evs as [|e evs IH]; intros st Hst Hm; [exact Hst|].
    cbn [LessonDetailPage.run fold_left]. apply IH.
    2:{ intros q0 H0. apply Hm. right. exact H0. }
    destruct e as [P shown|qm|o|u remote thr|]; cbn [LessonDetailPage.step].
    - unfold LessonDetailPage.tick, LessonDetailPage.questionCheck,
        LessonDetailPage.intervalStarted, LessonDetailPage.lessonQuestions in *.
      destruct lesson as [[[qs|]]|]; cbn [LessonDetailPage.interactive_questions] in *;
        try exact Hst.
      destruct qs as [|q0 qs]; [exact Hst|].
      destruct (LessonDetailPage.findDue (q0 :: qs) P) as [qd|] eqn:E; [|exact Hst].
      destruct shown; cbn [negb]; [exact Hst|].
      cbn [LessonDetailPage.currentQuestion]. intros q' [= <-].
      eapply findDue_In, E.
    - cbn [LessonDetailPage.selectMarker LessonDetailPage.currentQuestion].
      intros q' [= <-]. apply Hm. left. reflexivity.
    - exact Hst.
    - intros q' Hq'. apply Hst.
      rewrite <- (submission_keeps_question u remote thr st). exact Hq'.
    - cbn. discriminate. }
  unfold LessonDetailPage.displayed in Hin.
  destruct (LessonDetailPage.showQuestionModal _); [|destruct Hin].
  destruct (LessonDetailPage.currentQuestion _) as [q'|] eqn:Hq; [|destruct Hin].
  destruct Hin as [<-|[]].
  apply (Hinv LessonDetailPage.initial); [discriminate|exact Hmark|exact Hq].
Qed.

End PageExtras.

Lemma mistake_records_are_mistakes_witness :
  In (InsertMistake
        (mkMistake "u1" (Some "l1") qA "3" "4"
           (Gemini.fallbackExplanation "3" "4")))
     (snd (LessonDetailPage.handleAnswerSubmit unit Gemini.noJson (Some "l1")
             sampleUser Gemini.unreachable false wrongPick))
  /\ countEffects isInsertMistake
       (snd (LessonDetailPage.handleAnswerSubmit unit Gemini.noJson (Some "l1")
               sampleUser Gemini.unreachable false wrongPick)) = 1.
Proof.
  assert (H : In (InsertMistake
                    (mkMistake "u1" (Some "l1") qA "3" "4"
                       (Gemini.fallbackExplanation "3" "4")))
                 (snd (LessonDetailPage.handleAnswerSubmit unit Gemini.noJson (Some "l1")
                         sampleUser Gemini.unreachable false wrongPick)))
    by (right; left; reflexivity).
  split; [exact H|].
  exact (proj1 (proj2 (mistake_records_are_mistakes unit Gemini.noJson (Some "l1")
                         sampleUser Gemini.unreachable false wrongPick _ H))).
Defined.

Lemma displayed_belongs_to_lesson_witness :
  LessonDetailPage.markersFromLesson sampleLesson pageSession
  /\ In qC (LessonDetailPage.displayed
              (LessonDetailPage.run unit Gemini.noJson (Some "l1") sampleLesson
                 pageSession LessonDetailPage.initial))
  /\ In qC (LessonDetailPage.lessonQuestions sampleLesson).
Proof.
  assert (H1 : LessonDetailPage.markersFromLesson sampleLesson pageSession).
  { intros q [H|[H|[H|[H|[]]]]]; try discriminate H.
    injection H as <-. right. right. left. reflexivity. }
  assert (H2 : In qC (LessonDetailPage.displayed
                        (LessonDetailPage.run unit Gemini.noJson (Some "l1") sampleLesson
                           pageSession LessonDetailPage.initial)))
    by (left; reflexivity).
  split; [exact H1|]. split; [exact H2|].
  exact (displayed_belongs_to_lesson unit Gemini.noJson (Some "l1") sampleLesson
           pageSession qC H1 H2).
Defined.

End SchedulerExtras.

(** * Properties of the question solver *)

Module QuestionSolverFacts.
Import Js QuestionSolver.
Local Open Scope list_scope.

(** ** [addXP] *)

Lemma pow2_52_53 : (2 ^ 53 = 2 ^ 52 + 2 ^ 52)%Z.
Proof. reflexivity. Qed.

Lemma pow2_52_large : (1000 < 2 ^ 52)%Z.
Proof. reflexivity. Qed.

Lemma awardFor_bounds (s : Z) :
  (0 <= s)%Z ->
  (15 <= awardFor s <= 35)%Z
  /\ ((s <= 10)%Z -> awardFor s = (15 + 2 * s)%Z)
  /\ ((10 <= s)%Z -> awardFor s = 35%Z).
Proof. unfold awardFor, bonusFor. lia. Qed.

(** On a whole streak the award is computed exactly. *)
Lemma total_whole (d : UserDoc) (s : Z) :
  wholeNumber (currentStreak d) s ->
  streakBonus d = Double.Finite (inject_Z (bonusFor s))
  /\ totalXP d = Double.Finite (inject_Z (awardFor s)).
Proof.
  intros [Hs Hs0].
  pose proof pow2_52_53 as H53. pose proof pow2_52_large as Hbig.
  destruct (awardFor_bounds s ltac:(lia)) as [Haward _].
  assert (Hbonus : streakBonus d = Double.Finite (inject_Z (bonusFor s))).
  { unfold streakBonus.
    rewrite (DoubleFacts.mul_whole (currentStreak d) (Double.Finite 2) s 2 Hs
               (Qeq_refl _)) by lia.
    change (Double.Finite 20) with (Double.Finite (inject_Z 20)).
    rewrite DoubleFacts.min_whole. unfold bonusFor. do 3 f_equal. lia. }
  split; [exact Hbonus|].
  unfold totalXP. rewrite Hbonus.
  apply (DoubleFacts.add_whole (Double.Finite 15) _ 15 (bonusFor s));
    [reflexivity|reflexivity|]. fold (awardFor s). lia.
Qed.

(** On whole numbers every step of [addXP] is exact. *)
Lemma award_whole (d : UserDoc) (x0 s : Z) :
  wholeNumber (currentXP d) x0 ->
  wholeNumber (currentStreak d) s ->
  newXP d = Double.Finite (inject_Z (x0 + awardFor s))
  /\ newLevel d = Double.Finite (inject_Z ((x0 + awardFor s) / 200 + 1)).
Proof.
  intros [Hx Hx0] Hs.
  destruct (total_whole d s Hs) as [_ Htotal]. destruct Hs as [_ Hs0].
  pose proof pow2_52_53 as H53. pose proof pow2_52_large as Hbig.
  destruct (awardFor_bounds s ltac:(lia)) as [Haward _].
  assert (Hnew : newXP d = Double.Finite (inject_Z (x0 + awardFor s))).
  { unfold newXP. rewrite Htotal.
    apply (DoubleFacts.add_whole (currentXP d) _ x0 (awardFor s) Hx);
      [reflexivity|lia]. }
  split; [exact Hnew|].
  unfold newLevel. rewrite Hnew.
  set (n := (x0 + awardFor s)%Z) in *.
  assert (Hk : (0 <= n / 200 <= n)%Z).
  { split; [apply Z.div_pos; lia|]. apply Z.div_le_upper_bound; lia. }
  assert (Hfloor : Double.floor
                     (Double.div (Double.Finite (inject_Z n)) (Double.Finite 200))
                   = Double.Finite (inject_Z (n / 200))).
  { apply (DoubleFacts.floor_div_whole (inject_Z n) 200 n 200 46).
    - reflexivity.
    - reflexivity.
    - lia.
    - lia.
    - lia.
    - apply (Z.lt_trans _ (2 ^ 53)); [lia|reflexivity].
    - reflexivity. }
  rewrite Hfloor.
  apply (DoubleFacts.add_whole _ (Double.Finite 1) (n / 200) 1);
    [reflexivity|reflexivity|lia].
Qed.

(** X15. For a user whose streak is a whole number of days, one solved
    question is worth between 15 and 35 XP: 15 plus two per streak day up to
    ten days, and 35 from ten days on. *)
Theorem award_bounds (d : UserDoc) (s : Z) :
  wholeNumber (currentStreak d) s ->
  exists t : Z,
    totalXP d = Double.Finite (inject_Z t)
    /\ (15 <= t <= 35)%Z
    /\ ((s <= 10)%Z -> t = (15 + 2 * s)%Z)
    /\ ((10 <= s)%Z -> t = 35%Z).
Proof.
  intros Hs. exists (awardFor s).
  split; [exact (proj2 (total_whole d s Hs))|].
  apply awardFor_bounds. destruct Hs as [_ Hs]. lia.
Qed.

(** X16. Whenever [addXP] writes to the user document, the document was
    found, the write is for the signed-in user, and it carries the new XP
    and the new level computed from that document.  When the stored XP and
    streak are whole numbers, the XP written is the stored XP plus the
    award, and the level written is the whole number that fits it: level
    [l] with [200 (l - 1) <= xp < 200 l]. *)
Theorem level_matches_xp (currentUser : option string) (snapshot : Snapshot)
    (updateThrows : bool) (uid : string) (x l : Double.number) :
  In (UpdateDoc uid x l) (addXP currentUser snapshot updateThrows) ->
  currentUser = Some uid
  /\ exists d : UserDoc,
       snapshot = DocFound d /\ x = newXP d /\ l = newLevel d
       /\ forall x0 s : Z,
            wholeNumber (currentXP d) x0 ->
            wholeNumber (currentStreak d) s ->
            x = Double.Finite (inject_Z (x0 + awardFor s))
            /\ exists lz : Z,
                 l = Double.Finite (inject_Z lz)
                 /\ (200 * (lz - 1) <= x0 + awardFor s < 200 * lz)%Z.
Proof.
  unfold addXP. destruct currentUser as [u|]; [|intros []].
  destruct snapshot as [| |d]; [intros [H|[]]; discriminate H|intros []|].
  assert (Hin : In (UpdateDoc uid x l) [UpdateDoc u (newXP d) (newLevel d)] ->
                Some u = Some uid
                /\ exists d' : UserDoc,
                     DocFound d = DocFound d' /\ x = newXP d' /\ l = newLevel d'
                     /\ forall x0 s : Z,
                          wholeNumber (currentXP d') x0 ->
                          wholeNumber (currentStreak d') s ->
                          x = Double.Finite (inject_Z (x0 + awardFor s))
                          /\ exists lz : Z,
                               l = Double.Finite (inject_Z lz)
                               /\ (200 * (lz - 1) <= x0 + awardFor s < 200 * lz)%Z).
  { intros [H|[]]. injection H as -> <- <-.
    split; [reflexivity|]. exists d.
    split; [reflexivity|]. split; [reflexivity|]. split; [reflexivity|].
    intros x0 s Hx Hs.
    destruct (award_whole d x0 s Hx Hs) as (Hnew & Hlevel).
    split; [exact Hnew|].
    exists ((x0 + awardFor s) / 200 + 1)%Z. split; [exact Hlevel|].
    pose proof (Z.div_mod (x0 + awardFor s) 200 ltac:(lia)) as Hdm.
    pose proof (Z.mod_pos_bound (x0 + awardFor s) 200 ltac:(lia)) as Hmod.
    lia. }
  destruct updateThrows; [|destruct (levelUp d)];
    (intros [H|[H|[]]]; [apply Hin; left; exact H|discriminate H]).
Qed.

(** X17. If XP and streak are whole numbers and the stored level is the one
    that fits the stored XP, an award raises the XP, never lowers the level
    and never raises it by more than one; the level-up toast is shown
    exactly when the level rises. *)
Theorem award_raises_level_by_at_most_one (d : UserDoc) (x0 s : Z) :
  wholeNumber (currentXP d) x0 ->
  wholeNumber (currentStreak d) s ->
  Double.valueIs (currentLevel d) (inject_Z (x0 / 200 + 1)) ->
  exists xz lz : Z,
    newXP d = Double.Finite (inject_Z xz)
    /\ newLevel d = Double.Finite (inject_Z lz)
    /\ (x0 < xz)%Z
    /\ (x0 / 200 + 1 <= lz <= x0 / 200 + 2)%Z
    /\ (levelUp d = true <-> lz = (x0 / 200 + 2)%Z).
Proof.
  intros Hx Hs Hlevel0.
  destruct (award_whole d x0 s Hx Hs) as (Hnew & Hlevel).
  destruct Hx as [_ Hx0]. destruct Hs as [_ Hs0].
  destruct (awardFor_bounds s ltac:(lia)) as [Haward _].
  set (t := awardFor s) in *. clearbody t.
  exists (x0 + t)%Z, ((x0 + t) / 200 + 1)%Z.
  split; [exact Hnew|]. split; [exact Hlevel|]. split; [lia|].
  pose proof (Z.div_mod x0 200 ltac:(lia)) as Hd0.
  pose proof (Z.mod_pos_bound x0 200 ltac:(lia)) as Hm0.
  pose proof (Z.div_mod (x0 + t) 200 ltac:(lia)) as Hd1.
  pose proof (Z.mod_pos_bound (x0 + t) 200 ltac:(lia)) as Hm1.
  split; [lia|].
  unfold levelUp. rewrite Hlevel.
  destruct (currentLevel d) as [q| |]; [|destruct Hlevel0|destruct Hlevel0].
  cbn [Double.valueIs Double.ltb] in *. rewrite SchedulerFacts.Qltb_lt, Hlevel0.
  rewrite <- Zlt_Qlt. lia.
Qed.

Lemma seasoned_whole :
  wholeNumber (currentXP seasoned) 390
  /\ wholeNumber (currentStreak seasoned) 12
  /\ Double.valueIs (currentLevel seasoned) (inject_Z (390 / 200 + 1)).
Proof.
  unfold wholeNumber. cbn [currentXP currentStreak currentLevel seasoned orElse
                          xp level streak Double.truthy Double.valueIs].
  repeat split; try reflexivity; lia.
Qed.

Lemma award_bounds_witness :
  wholeNumber (currentStreak seasoned) 12
  /\ exists t : Z, totalXP seasoned = Double.Finite (inject_Z t) /\ (15 <= t <= 35)%Z.
Proof.
  destruct seasoned_whole as (_ & Hs & _).
  split; [exact Hs|].
  destruct (award_bounds seasoned 12 Hs) as (t & Ht & Hb & _).
  exists t. split; [exact Ht|exact Hb].
Defined.

Lemma level_matches_xp_witness :
  In (UpdateDoc "u1" (Double.Finite 425) (Double.Finite 3))
     (addXP (Some "u1") (DocFound seasoned) false)
  /\ exists d : UserDoc,
       DocFound seasoned = DocFound d
       /\ Double.Finite 425 = newXP d /\ Double.Finite 3 = newLevel d.
Proof.
  assert (Hrun : addXP (Some "u1") (DocFound seasoned) false
                 = [UpdateDoc "u1" (Double.Finite 425) (Double.Finite 3);
                    LevelUpToast (Double.Finite 35) (Double.Finite 2) (Double.Finite 3)])
    by (vm_compute; reflexivity).
  assert (H : In (UpdateDoc "u1" (Double.Finite 425) (Double.Finite 3))
                 (addXP (Some "u1") (DocFound seasoned) false))
    by (rewrite Hrun; left; reflexivity).
  split; [exact H|].
  destruct (level_matches_xp (Some "u1") (DocFound seasoned) false "u1" _ _ H)
    as (_ & d & Hd & Hx & Hl & _).
  exists d. split; [exact Hd|]. split; [exact Hx|exact Hl].
Defined.

Lemma award_raises_level_by_at_most_one_witness :
  wholeNumber (currentXP seasoned) 390
  /\ wholeNumber (currentStreak seasoned) 12
  /\ Double.valueIs (currentLevel seasoned) (inject_Z (390 / 200 + 1))
  /\ exists xz lz : Z,
       newXP seasoned = Double.Finite (inject_Z xz)
       /\ newLevel seasoned = Double.Finite (inject_Z lz)
       /\ (390 < xz)%Z.
Proof.
  destruct seasoned_whole as (Hx & Hs & Hl).
  split; [exact Hx|]. split; [exact Hs|]. split; [exact Hl|].
  destruct (award_raises_level_by_at_most_one seasoned 390 12 Hx Hs Hl)
    as (xz & lz & H1 & H2 & H3 & _).
  exists xz, lz. split; [exact H1|]. split; [exact H2|exact H3].
Defined.

(** A fractional streak is rounded where the arithmetic is not exact: a
    tenth of a day gives 15.2 XP, which is not a double. *)
Example award_fractional_streak :
  totalXP (mkUserDoc None None (Some (Double.Finite (3602879701896397 # 36028797018963968))))
  = Double.Finite (4278419646001971 # 281474976710656).
Proof. vm_compute. reflexivity. Qed.

(** ** [analyzeProblem] *)

Section SolverFacts.

Variable json : Type.
Variable JSON_parse : string -> option json.
Variable syntaxErrorOf : string -> Error.
Variable prompt : string.
Variable isNull : json -> bool.


(** X18. When the image is there and the AI service is rate-limited (the
    terminal error carries 429 or quota), the gateway's offline text is
    taken for the model's answer: it is neither JSON nor a fenced block, so
    the mock solution is shown with the success toast and XP is awarded as
    for a solved question; no error is reported. *)
Theorem rate_limited_analysis_reports_success (currentUser : option string)
    (snapshot : Snapshot) (updateThrows : bool) (remote : Gemini.Remote)
    (st : State json) (img mime : string) (e : Error) :
  truthyField (imageBase64 st) = Some img ->
  truthyField (mimeType st) = Some mime ->
  snd (Gemini.retryWithBackoff remote Gemini.defaultMaxRetries) = Gemini.Throw e ->
  Gemini.quotaClassified e = true ->
  JSON_parse (Gemini.getOfflineResponse Gemini.image) = None ->
  analyzeProblem json JSON_parse syntaxErrorOf prompt isNull currentUser snapshot
    updateThrows remote st
  = (mkState (selectedImage st) (imagePreview st) (imageBase64 st) (mimeType st)
       false (Some MockSolution),
     [ToastLoading "Soru analiz ediliyor..."; AnalyzeImageRequest prompt img mime;
      solvedToast]
     ++ addXP currentUser snapshot updateThrows ++ [ToastDismiss]).
Proof.
  intros Himg Hmime Hthrow Hquota Hparse.
  unfold analyzeProblem. rewrite Himg, Hmime.
  rewrite GeminiFacts.analyzeImage_outcome, Hthrow, Hquota.
  assert (Htext : responseTextOf json (Gemini.VText (Gemini.getOfflineResponse Gemini.image))
                  = Some (Gemini.getOfflineResponse Gemini.image)) by reflexivity.
  rewrite Htext. unfold parseResponse. rewrite Hparse.
  assert (Hfence : extractJsonBlock (Gemini.getOfflineResponse Gemini.image) = None)
    by (vm_compute; reflexivity).
  rewrite Hfence. reflexivity.
Qed.


(** An answer that parses to [null] is reported as solved, and leaves the
    state without a solution. *)
Lemma null_answer_reported_solved (currentUser : option string)
    (snapshot : Snapshot) (updateThrows : bool) (remote : Gemini.Remote)
    (st : State json) (img mime responseText : string) (j : json) :
  truthyField (imageBase64 st) = Some img ->
  truthyField (mimeType st) = Some mime ->
  Gemini.analyzeImage json JSON_parse prompt img mime remote
    = Some (Gemini.Resolved (Gemini.VText responseText)) ->
  truthy responseText = true ->
  JSON_parse responseText = Some j ->
  isNull j = true ->
  let res := analyzeProblem json JSON_parse syntaxErrorOf prompt isNull currentUser
               snapshot updateThrows remote st in
  solution (fst res) = None /\ In solvedToast (snd res).
Proof.
  intros Himg Hmime Hremote Htext Hparse Hnull. cbv zeta.
  unfold analyzeProblem. rewrite Himg, Hmime, Hremote.
  cbn [responseTextOf]. rewrite Htext. unfold parseResponse. rewrite Hparse.
  cbn [stored fst snd solution]. rewrite Hnull.
  split; [reflexivity|]. right. right. left. reflexivity.
Qed.

End SolverFacts.

Lemma rate_limited_analysis_reports_success_witness :
  truthyField (imageBase64 withImage) = Some "aGVsbG8="
  /\ truthyField (mimeType withImage) = Some "image/png"
  /\ Gemini.quotaClassified Gemini.tooManyRequests = true
  /\ snd (analyzeProblem unit Gemini.noJson noSyntaxError samplePrompt neverNull (Some "u1")
            (DocFound seasoned) false Gemini.alwaysRateLimited withImage)
     = [ToastLoading "Soru analiz ediliyor...";
        AnalyzeImageRequest samplePrompt "aGVsbG8=" "image/png";
        solvedToast; UpdateDoc "u1" (Double.Finite 425) (Double.Finite 3);
        LevelUpToast (Double.Finite 35) (Double.Finite 2) (Double.Finite 3);
        ToastDismiss].
Proof.
  split; [reflexivity|]. split; [reflexivity|]. split; [reflexivity|].
  rewrite (rate_limited_analysis_reports_success unit Gemini.noJson noSyntaxError
             samplePrompt neverNull (Some "u1") (DocFound seasoned) false
             Gemini.alwaysRateLimited withImage "aGVsbG8=" "image/png"
             Gemini.tooManyRequests eq_refl eq_refl eq_refl eq_refl eq_refl).
  vm_compute. reflexivity.
Defined.


(** ** Fenced answers and data URLs *)

Lemma stripPrefix_sound (p : string) :
  forall s r, stripPrefix p s = Some r -> s = (p ++ r)%string.
Proof.
  induction p as [|a p IH]; cbn [stripPrefix String.append]; intros s r H.
  - congruence.
  - destruct s as [|b s]; [discriminate H|].
    destruct (Ascii.eqb a b) eqn:E; [|discriminate H].
    apply Ascii.eqb_eq in E. subst b. f_equal. apply IH, H.
Qed.

Lemma stripPrefix_app (p r : string) : stripPrefix p (p ++ r) = Some r.
Proof.
  induction p as [|a p IH]; cbn [stripPrefix String.append]; [reflexivity|].
  rewrite Ascii.eqb_refl. exact IH.
Qed.

Lemma cutAt_eq (p s : string) :
  cutAt p s =
  match stripPrefix p s with
  | Some rest => Some (EmptyString, rest)
  | None =>
      match s with
      | EmptyString => None
      | String c s' =>
          match cutAt p s' with
          | Some (before, rest) => Some (String c before, rest)
          | None => None
          end
      end
  end.
Proof. destruct s; reflexivity. Qed.

Lemma cutAt_sound (p : string) :
  forall s a b, cutAt p s = Some (a, b) -> s = (a ++ p ++ b)%string.
Proof.
  induction s as [|c s IH]; intros a b; rewrite cutAt_eq.
  - destruct (stripPrefix p "") as [rest|] eqn:E; [|discriminate].
    intros [= <- <-]. exact (stripPrefix_sound p _ _ E).
  - destruct (stripPrefix p (String c s)) as [rest|] eqn:E.
    + intros [= <- <-]. exact (stripPrefix_sound p _ _ E).
    + destruct (cutAt p s) as [[before rest]|] eqn:Ec; [|discriminate].
      intros [= <- <-]. cbn [String.append]. f_equal. apply IH. reflexivity.
Qed.

(** The first occurrence of [p] is not inside a text that lacks the first
    character of [p]. *)
Lemma cutAt_after (p0 : ascii) (p' : string) :
  forall pre r,
    without p0 pre = true ->
    cutAt (String p0 p') (pre ++ String p0 p' ++ r) = Some (pre, r).
Proof.
  induction pre as [|c pre IH]; intros r Hpre; rewrite cutAt_eq.
  - cbn [String.append]. change (String p0 (p' ++ r)%string) with (String p0 p' ++ r)%string.
    rewrite stripPrefix_app. reflexivity.
  - unfold without in Hpre. cbn [list_ascii_of_string forallb] in Hpre.
    apply andb_true_iff in Hpre as [Hc Hpre]. apply negb_true_iff in Hc.
    cbn [String.append stripPrefix]. rewrite Ascii.eqb_sym, Hc.
    change (String p0 (p' ++ r)%string) with (String p0 p' ++ r)%string.
    rewrite (IH r Hpre). reflexivity.
Qed.

(** The closing fence is not found inside a block without backticks. *)
Lemma cutAt_fenceClose :
  forall block post,
    without backtick block = true ->
    cutAt fenceClose (block ++ fenceClose ++ post) = Some (block, post).
Proof.
  induction block as [|a block IH]; intros post Hb; rewrite cutAt_eq.
  - cbn [String.append]. rewrite stripPrefix_app. reflexivity.
  - unfold without in Hb. cbn [list_ascii_of_string forallb] in Hb.
    apply andb_true_iff in Hb as [Ha Hb]. apply negb_true_iff in Ha.
    assert (Hnone : stripPrefix fenceClose (String a block ++ fenceClose ++ post) = None).
    { cbn [String.append]. unfold fenceClose at 1, newline.
      cbn [String.append stripPrefix].
      destruct (Ascii.eqb (ascii_of_nat 10) a); [|reflexivity].
      destruct block as [|a' block].
      - reflexivity.
      - unfold without in Hb. cbn [list_ascii_of_string forallb] in Hb.
        apply andb_true_iff in Hb as [Ha' _]. apply negb_true_iff in Ha'.
        cbn [String.append stripPrefix].
        change "`"%char with backtick. rewrite Ascii.eqb_sym, Ha'. reflexivity. }
    rewrite Hnone. cbn [String.append]. rewrite (IH post Hb). reflexivity.
Qed.

Section FenceFacts.

Variable json : Type.
Variable JSON_parse : string -> option json.
Variable syntaxErrorOf : string -> Error.

(** X20. An answer that wraps its JSON in a fenced block, with no backtick
    before the fence nor inside the block, yields exactly that block; when
    the answer as a whole is not JSON and the block is not empty, the
    solution is what [JSON.parse] makes of the block, and its failure is
    the error reported. *)
Theorem fenced_block_recovered (pre block post : string) :
  without backtick pre = true ->
  without backtick block = true ->
  let answer := (pre ++ fenceOpen ++ block ++ fenceClose ++ post)%string in
  extractJsonBlock answer = Some block
  /\ (JSON_parse answer = None ->
      truthy block = true ->
      parseResponse json JSON_parse syntaxErrorOf answer
      = match JSON_parse block with
        | Some j => inl (ParsedSolution j)
        | None => inr (syntaxErrorOf block)
        end).
Proof.
  intros Hpre Hblock answer.
  assert (Hext : extractJsonBlock answer = Some block).
  { unfold extractJsonBlock, answer.
    assert (Ho : fenceOpen = String backtick ("``json" ++ newline)) by reflexivity.
    rewrite Ho, (cutAt_after backtick _ pre _ Hpre).
    rewrite (cutAt_fenceClose block post Hblock). reflexivity. }
  split; [exact Hext|].
  intros Hwhole Htruthy. unfold parseResponse.
  rewrite Hwhole, Hext, Htruthy. reflexivity.
Qed.

(** X21. Whatever block is extracted stands in the answer between an
    opening fence and a closing fence. *)
Theorem extracted_block_is_fenced (answer block : string) :
  extractJsonBlock answer = Some block ->
  exists pre post,
    answer = (pre ++ fenceOpen ++ block ++ fenceClose ++ post)%string.
Proof.
  unfold extractJsonBlock.
  destruct (cutAt fenceOpen answer) as [[pre rest]|] eqn:Eo; [|discriminate].
  destruct (cutAt fenceClose rest) as [[b post]|] eqn:Ec; [|discriminate].
  intros [= ->]. exists pre, post.
  apply cutAt_sound in Eo. apply cutAt_sound in Ec. rewrite Eo, Ec. reflexivity.
Qed.

End FenceFacts.

Lemma fenced_block_recovered_witness :
  without backtick "Cozum:" = true
  /\ without backtick "{}" = true
  /\ parseResponse unit (parsesOnly "{}") noSyntaxError
       ("Cozum:" ++ fenceOpen ++ "{}" ++ fenceClose ++ "")
     = inl (ParsedSolution tt).
Proof.
  split; [reflexivity|]. split; [reflexivity|].
  exact (proj2 (fenced_block_recovered unit (parsesOnly "{}") noSyntaxError
                  "Cozum:" "{}" "" eq_refl eq_refl) eq_refl eq_refl).
Defined.

Lemma extracted_block_is_fenced_witness :
  extractJsonBlock ("Cozum:" ++ fenceOpen ++ "{}" ++ fenceClose ++ "") = Some "{}"
  /\ exists pre post,
       ("Cozum:" ++ fenceOpen ++ "{}" ++ fenceClose ++ "")%string
       = (pre ++ fenceOpen ++ "{}" ++ fenceClose ++ post)%string.
Proof.
  split; [reflexivity|].
  exact (extracted_block_is_fenced
           ("Cozum:" ++ fenceOpen ++ "{}" ++ fenceClose ++ "") "{}" eq_refl).
Defined.

Lemma splitOn_app (sep : ascii) :
  forall a b,
    without sep a = true ->
    splitOn sep (a ++ String sep b) = a :: splitOn sep b.
Proof.
  induction a as [|c a IH]; intros b Ha; cbn [String.append splitOn].
  - rewrite Ascii.eqb_refl. reflexivity.
  - unfold without in Ha. cbn [list_ascii_of_string forallb] in Ha.
    apply andb_true_iff in Ha as [Hc Ha]. apply negb_true_iff in Hc.
    rewrite Hc, (IH b Ha). reflexivity.
Qed.

Lemma splitOn_whole (sep : ascii) :
  forall a, without sep a = true -> splitOn sep a = [a].
Proof.
  induction a as [|c a IH]; intros Ha; cbn [splitOn]; [reflexivity|].
  unfold without in Ha. cbn [list_ascii_of_string forallb] in Ha.
  apply andb_true_iff in Ha as [Hc Ha]. apply negb_true_iff in Hc.
  rewrite Hc, (IH Ha). reflexivity.
Qed.

Section ImageFacts.

Variable json : Type.
Variable JSON_parse : string -> option json.
Variable syntaxErrorOf : string -> Error.
Variable prompt : string.
Variable isNull : json -> bool.

(** X22. For an image file whose data URL is a header, a comma and a
    non-empty payload free of commas, selecting the file and loading it
    stores exactly the payload and the file's type and clears the old
    solution; the next analysis sends the gateway that payload and that
    type. *)
Theorem data_url_payload (file : File) (header payload : string)
    (currentUser : option string) (snapshot : Snapshot) (updateThrows : bool)
    (remote : Gemini.Remote) (st : State json) :
  prefix "image/" (file_type file) = true ->
  without comma header = true ->
  without comma payload = true ->
  truthy payload = true ->
  let st1 := readerOnload file (header ++ String comma payload)
               (fst (handleImageSelect file st)) in
  imageBase64 st1 = Some payload
  /\ mimeType st1 = Some (file_type file)
  /\ solution st1 = None
  /\ exists rest,
       snd (analyzeProblem json JSON_parse syntaxErrorOf prompt isNull currentUser snapshot
              updateThrows remote st1)
       = ToastLoading "Soru analiz ediliyor..."
         :: AnalyzeImageRequest prompt payload (file_type file) :: rest.
Proof.
  intros Himage Hheader Hpayload Htruthy st1.
  assert (H64 : imageBase64 st1 = Some payload).
  { unfold st1, readerOnload. cbn [imageBase64]. fold comma.
    rewrite (splitOn_app comma header payload Hheader),
      (splitOn_whole comma payload Hpayload). reflexivity. }
  assert (Hmime : mimeType st1 = Some (file_type file)) by reflexivity.
  assert (Htype : truthy (file_type file) = true).
  { destruct (file_type file); [discriminate Himage|reflexivity]. }
  split; [exact H64|]. split; [exact Hmime|]. split.
  - unfold st1, readerOnload, handleImageSelect. rewrite Himage. reflexivity.
  - unfold analyzeProblem. rewrite H64, Hmime. cbn [truthyField].
    rewrite Htruthy, Htype.
    destruct (Gemini.analyzeImage json JSON_parse prompt payload (file_type file) remote)
      as [[v|error]|]; [| |eexists; reflexivity].
    + destruct (responseTextOf json v) as [responseText|]; [|eexists; reflexivity].
      destruct (parseResponse json JSON_parse syntaxErrorOf responseText);
        eexists; reflexivity.
    + eexists. reflexivity.
Qed.

End ImageFacts.

Lemma data_url_payload_witness :
  prefix "image/" (file_type pngFile) = true
  /\ without comma "data:image/png;base64" = true
  /\ without comma "aGVsbG8=" = true
  /\ truthy "aGVsbG8=" = true
  /\ imageBase64 (readerOnload pngFile pngDataUrl
                    (fst (handleImageSelect pngFile (initial unit))))
     = Some "aGVsbG8=".
Proof.
  split; [reflexivity|]. split; [reflexivity|]. split; [reflexivity|].
  split; [reflexivity|].
  exact (proj1 (data_url_payload unit Gemini.noJson noSyntaxError samplePrompt
                  neverNull pngFile "data:image/png;base64" "aGVsbG8=" None DocMissing false
                  Gemini.chatty (initial unit) eq_refl eq_refl eq_refl eq_refl)).
Defined.

End QuestionSolverFacts.
